(** * array_lib: StackArray, HeapArray and GrowingArray

    A shallow embedding of [array_lib.h] (the revision that has the move
    constructors and the explicit [copy()] methods) together with the
    properties of its three containers.

    The C++ code manages raw storage by hand ([malloc], placement [new],
    explicit destructor calls, [free]).  The embedding therefore threads an
    explicit heap through every operation.  A heap is a list of blocks; a
    block remembers how many bytes were requested for it and holds one slot
    per element of type [T] that fits into those bytes.  A slot is either raw
    storage ([None]) or holds a value ([Some v]).

    Every operation returns an [outcome]:
    - [Ok r]       the operation ran to completion with result [r];
    - [Abort]      the code called [abort()];
    - [Undefined]  the code did something the language gives no meaning to
                   (a write through [nullptr], a write past the end of a
                   block, a read of raw storage, a double [free], a signed
                   counter running past [INT_MAX]). *)

From Stdlib Require Import ZArith Lia.
From stdpp Require Import base option list vector.

Local Open Scope Z_scope.

(** ** Outcomes *)

Inductive outcome (A : Type) : Type :=
  | Ok (a : A)
  | Abort
  | Undefined.

Arguments Ok {A} a.
Arguments Abort {A}.
Arguments Undefined {A}.

Definition bind {A B : Type} (m : outcome A) (k : A → outcome B) : outcome B :=
  match m with
  | Ok a => k a
  | Abort => Abort
  | Undefined => Undefined
  end.

Notation "'do' x <- m ; k" := (bind m (λ x, k))
  (at level 10, x pattern, m at level 100, k at level 200).

Definition outcome_map {A B : Type} (f : A → B) (m : outcome A) : outcome B :=
  do a <- m; Ok (f a).

(** ** The target and the element type

    [size_t] is an unsigned type whose largest value is [SIZE_MAX]; [int] is a
    signed type whose largest value is [INT_MAX].  Both depend on the board
    the sketch is compiled for, so they are parameters. *)

Class Target : Type := {
  SIZE_MAX : Z;
  INT_MAX : Z;
  SIZE_MAX_pos : 0 < SIZE_MAX;
  INT_MAX_pos : 0 < INT_MAX;
}.

(** What the templates need from [T]: its size in bytes, a default
    constructor, and the state a move constructor leaves its argument in.
    Copy construction and assignment yield a value equal to their argument. *)

Class Element (T : Type) : Type := {
  sizeof : Z;
  sizeof_pos : 0 < sizeof;
  T_default : T;
  T_moved_from : T → T;
}.

(** Conversion of a mathematical integer to [size_t]: unsigned arithmetic
    wraps around modulo [SIZE_MAX + 1]. *)

Definition size_t `{Target} (z : Z) : Z := z mod (SIZE_MAX + 1).

(** ** Memory *)

Section Memory.
Context `{Tg : Target} {T : Type} `{El : Element T}.

Record block : Type := Block {
  blk_live : bool;               (* false once the block was passed to free *)
  blk_bytes : Z;                 (* the argument malloc was called with *)
  blk_slots : list (option T);   (* None: raw storage *)
}.

Record heap : Type := Heap {
  blocks : list block;
  free_bytes : Z;                (* what malloc can still hand out *)
  constructions : nat;           (* constructor calls of T so far *)
  destructions : nat;            (* destructor calls of T so far *)
}.

(** A pointer to the start of a block; [None] is [nullptr]. *)
Definition ptr : Type := option nat.

Definition set_blocks (h : heap) (bs : list block) : heap :=
  Heap bs (free_bytes h) (constructions h) (destructions h).

Definition raw_block (n : Z) : block :=
  Block true n (replicate (Z.to_nat (n / sizeof)) None).

(** The heap after a successful [malloc(n)]. *)
Definition allocated (n : Z) (h : heap) : heap :=
  Heap (blocks h ++ [raw_block n]) (free_bytes h - n)
       (constructions h) (destructions h).

(** [malloc(n)]: a fresh block of [n] bytes, or [nullptr] when fewer than
    [n] bytes are left.  A request for 0 bytes yields a block without
    slots. *)
Definition malloc (n : Z) (h : heap) : ptr * heap :=
  if n <=? free_bytes h then (Some (length (blocks h)), allocated n h)
  else (None, h).

(** [free(p)]: nothing for [nullptr]; otherwise [p] must be a block that
    has not been freed yet. *)
Definition free (p : ptr) (h : heap) : outcome heap :=
  match p with
  | None => Ok h
  | Some b =>
      match blocks h !! b with
      | Some blk =>
          if blk_live blk then
            Ok (Heap (<[b := Block false (blk_bytes blk) (blk_slots blk)]> (blocks h))
                     (free_bytes h + blk_bytes blk)
                     (constructions h) (destructions h))
          else Undefined
      | None => Undefined
      end
  end.

(** The slot [p[i]], when [p] is a live block that has such a slot. *)
Definition slot (h : heap) (p : ptr) (i : Z) : option (option T) :=
  match p with
  | None => None
  | Some b =>
      match blocks h !! b with
      | Some blk =>
          if blk_live blk && (0 <=? i) then blk_slots blk !! Z.to_nat i else None
      | None => None
      end
  end.

Definition set_block_slot (i : Z) (s : option T) (blk : block) : block :=
  Block (blk_live blk) (blk_bytes blk) (<[Z.to_nat i := s]> (blk_slots blk)).

Definition set_slot (h : heap) (p : ptr) (i : Z) (s : option T) : heap :=
  set_blocks h
    match p with
    | None => blocks h
    | Some b => alter (set_block_slot i s) b (blocks h)
    end.

(** Reading the value of [p[i]]. *)
Definition read (h : heap) (p : ptr) (i : Z) : outcome T :=
  match slot h p i with
  | Some (Some v) => Ok v
  | _ => Undefined
  end.

(** [p[i] = v]: the assignment stores the value; no constructor runs. *)
Definition write (p : ptr) (i : Z) (v : T) (h : heap) : outcome heap :=
  match slot h p i with
  | Some _ => Ok (set_slot h p i (Some v))
  | None => Undefined
  end.

Definition count_construction (h : heap) : heap :=
  Heap (blocks h) (free_bytes h) (S (constructions h)) (destructions h).

Definition count_destruction (h : heap) : heap :=
  Heap (blocks h) (free_bytes h) (constructions h) (S (destructions h)).

(** [new (p + i) T(v)]: placement new with a value equal to [v]. *)
Definition construct (p : ptr) (i : Z) (v : T) (h : heap) : outcome heap :=
  do h1 <- write p i v h;
  Ok (count_construction h1).

(** [new (dst + i) T(move(src[i]))] *)
Definition move_construct (dst src : ptr) (i : Z) (h : heap) : outcome heap :=
  do v <- read h src i;
  do h1 <- write src i (T_moved_from v) h;
  construct dst i v h1.

(** [new (dst + i) T(src[i])] *)
Definition copy_construct (dst src : ptr) (i : Z) (h : heap) : outcome heap :=
  do v <- read h src i;
  construct dst i v h.

(** [p[i].~T()] *)
Definition destroy_at (p : ptr) (i : Z) (h : heap) : outcome heap :=
  do _ <- read h p i;
  Ok (count_destruction (set_slot h p i None)).

(** [n] rounds of a loop body with a counter that starts at [i] and is
    incremented after every round. *)
Fixpoint for_upto (n : nat) (i : Z) (body : Z → heap → outcome heap) (h : heap)
  : outcome heap :=
  match n with
  | O => Ok h
  | S n' => do h1 <- body i h; for_upto n' (i + 1) body h1
  end.

(** [for (size_t i{0}; i != size; ++i) body]: [i] meets [size] after
    exactly [size] rounds. *)
Definition for_size_t (size : Z) (body : Z → heap → outcome heap) (h : heap)
  : outcome heap :=
  for_upto (Z.to_nat size) 0 body h.

(** [for (int i = 0; i != size; ++i) body]: as above while [size] is within
    the range of [int]; beyond it the counter overflows. *)
Definition for_int (size : Z) (body : Z → heap → outcome heap) (h : heap)
  : outcome heap :=
  if INT_MAX <? size then Undefined
  else for_upto (Z.to_nat size) 0 body h.

End Memory.

Arguments block T : clear implicits.
Arguments heap T : clear implicits.

(** ** StackArray<T, N> *)

Module StackArray.
Section StackArray.
Context {T : Type} {N : nat}.

(** [T c_array[N]] is a public member.  The [constexpr] overload of
    [operator []] is evaluated by the compiler; it is modelled apart, as
    [StackArrayConst.index_constexpr]. *)
Record t : Type := { c_array : vec T N }.

(** [T& operator [] (const size_t index)]: the reference is the position
    inside [c_array]. *)
Definition index (a : t) (index : Z) : outcome Z :=
  if Z.of_nat N <=? index then Abort else Ok index.

Definition length (a : t) : Z := Z.of_nat N.

(** What a reference obtained from [index] designates. *)
Definition deref (a : t) (r : Z) : option T :=
  if 0 <=? r then vec_to_list (c_array a) !! Z.to_nat r else None.

End StackArray.
Arguments t T N : clear implicits.
End StackArray.

(** ** HeapArray<T> *)

Module HeapArray.
Section HeapArray.
Context `{Tg : Target} {T : Type} `{El : Element T}.

Record t : Type := { begin : ptr; size : Z }.

(** [HeapArray(size_t length)] *)
Definition create (length : Z) (h : heap T) : outcome (t * heap T) :=
  let (p, h0) := malloc length h in
  do h1 <- for_size_t length (λ i, construct p i T_default) h0;
  Ok ({| begin := p; size := length |}, h1).

(** [HeapArray(HeapArray&& temp)]: the new array and what is left of [temp]. *)
Definition move (temp : t) : t * t :=
  ({| begin := begin temp; size := size temp |},
   {| begin := None; size := 0 |}).

(** [HeapArray copy()].  The local [result] is handed to the caller; when
    that happens through the move constructor, the destructor of the
    moved-from local runs zero rounds and frees [nullptr]. *)
Definition copy (a : t) (h : heap T) : outcome (t * heap T) :=
  do (result, h0) <- create 0 h;
  let (p, h1) := malloc (size a) h0 in
  do h2 <- for_size_t (size a) (copy_construct p (begin a)) h1;
  Ok ({| begin := p; size := size a |}, h2).

(** [T& operator [] (const size_t index)]: the reference is [begin + index]. *)
Definition index (a : t) (index : Z) : outcome (ptr * Z) :=
  if size a <=? index then Abort else Ok (begin a, index).

Definition length (a : t) : Z := size a.

(** [~HeapArray()] *)
Definition destroy (a : t) (h : heap T) : outcome (heap T) :=
  do h1 <- for_int (size a) (destroy_at (begin a)) h;
  free (begin a) h1.

End HeapArray.
Arguments t : clear implicits.
End HeapArray.

(** ** GrowingArray<T> *)

Module GrowingArray.
Section GrowingArray.
Context `{Tg : Target} {T : Type} `{El : Element T}.

Record t : Type := { begin : ptr; size : Z; capacity : Z }.

(** [GrowingArray()] *)
Definition create : t := {| begin := None; size := 0; capacity := 0 |}.

(** [GrowingArray(GrowingArray&& temp)]: the new array and what is left of
    [temp]. *)
Definition move (temp : t) : t * t :=
  ({| begin := begin temp; size := size temp; capacity := capacity temp |},
   {| begin := None; size := 0; capacity := capacity temp |}).

(** [GrowingArray copy()]; see [HeapArray.copy] for the return. *)
Definition copy (a : t) (h : heap T) : outcome (t * heap T) :=
  let (p, h1) := malloc (size a) h in
  do h2 <- for_size_t (size a) (copy_construct p (begin a)) h1;
  Ok ({| begin := p; size := size a; capacity := size a |}, h2).

(** [T& operator [] (const size_t index)] *)
Definition index (a : t) (index : Z) : outcome (ptr * Z) :=
  if size a <=? index then Abort else Ok (begin a, index).

(** The capacity computed inside the [size == capacity] branch of [push]. *)
Definition grown (capacity : Z) : Z :=
  let capacity := if capacity =? 0 then 1 else capacity in
  size_t (size_t (capacity * 3) + 1) / 2.

(** The [size == capacity] branch of [push]. *)
Definition reallocate (a : t) (h : heap T) : outcome (t * heap T) :=
  let capacity := grown (capacity a) in
  let (new_begin, h0) := malloc (size_t (capacity * sizeof)) h in
  do h1 <- for_size_t (size a) (move_construct new_begin (begin a)) h0;
  Ok ({| begin := new_begin; size := size a; capacity := capacity |}, h1).

(** [void push(const T& item)].  The item is taken by value: a caller that
    passes a reference to an element of the very array it pushes to is not
    covered. *)
Definition push (a : t) (item : T) (h : heap T) : outcome (t * heap T) :=
  do (a1, h1) <- (if size a =? capacity a then reallocate a h else Ok (a, h));
  do h2 <- write (begin a1) (size a1) item h1;
  Ok ({| begin := begin a1; size := size_t (size a1 + 1); capacity := capacity a1 |}, h2).

Definition length (a : t) : Z := size a.

(** [~GrowingArray()] *)
Definition destroy (a : t) (h : heap T) : outcome (heap T) :=
  do h1 <- for_int (size a) (destroy_at (begin a)) h;
  free (begin a) h1.

(** A caller pushing a sequence of items, first to last. *)
Fixpoint push_all (items : list T) (a : t) (h : heap T) : outcome (t * heap T) :=
  match items with
  | [] => Ok (a, h)
  | item :: items' => do (a1, h1) <- push a item h; push_all items' a1 h1
  end.

End GrowingArray.
Arguments t : clear implicits.
End GrowingArray.

(** ** Earlier revisions

    The repository still holds two earlier revisions of [growing_array::push].
    Both grow the block with [realloc]; only the way they compute the new
    capacity is recorded here. *)

Module Legacy.
Section Legacy.
Context `{Tg : Target}.

(** [capacity = (capacity * 3) / 2 + 1;] *)
Definition grown_first (capacity : Z) : Z :=
  size_t (size_t (capacity * 3) / 2 + 1).

(** [if (capacity == 0) { capacity = 1; } capacity = (capacity * 3) / 2;] *)
Definition grown_second (capacity : Z) : Z :=
  let capacity := if capacity =? 0 then 1 else capacity in
  size_t (capacity * 3) / 2.

End Legacy.
End Legacy.

(** ** What a container owns

    The predicates below relate the fields of a container to the heap.  They
    are stated slot by slot: [layout l room] is the picture of a block whose
    first [length l] slots hold the values [l], whose slots up to [room] are
    raw, and which has no further slots. *)

Section Ownership.
Context `{Tg : Target} {T : Type} `{El : Element T}.

Definition layout (l : list T) (room : Z) (j : Z) : option (option T) :=
  if decide (0 ≤ j < Z.of_nat (length l)) then Some (l !! Z.to_nat j)
  else if decide (0 ≤ j < room) then Some None
  else None.

(** The block at [p] looks like [layout l room].  A pointer without a live
    block behind it ([nullptr] in particular) stores [[]] with no room. *)
Definition stores (h : heap T) (p : ptr) (l : list T) (room : Z) : Prop :=
  ∀ j, slot h p j = layout l room j.

(** The invariant of a [GrowingArray]: [0 ≤ size ≤ capacity], and exactly
    the slots [0 .. size) of its block hold values. *)
Definition invariant (h : heap T) (a : GrowingArray.t) : Prop :=
  0 ≤ GrowingArray.size a ≤ GrowingArray.capacity a
  ∧ GrowingArray.capacity a ≤ SIZE_MAX
  ∧ ∃ l room, GrowingArray.size a = Z.of_nat (length l)
              ∧ stores h (GrowingArray.begin a) l room.

(** A [GrowingArray] that holds the elements [l] in a block with room for
    [capacity] elements. *)
Definition holds (h : heap T) (a : GrowingArray.t) (l : list T) : Prop :=
  GrowingArray.size a = Z.of_nat (length l)
  ∧ GrowingArray.size a ≤ GrowingArray.capacity a
  ∧ GrowingArray.capacity a ≤ SIZE_MAX
  ∧ ∃ room, GrowingArray.capacity a ≤ room
            ∧ stores h (GrowingArray.begin a) l room.

(** A [HeapArray] that holds the elements [l]. *)
Definition heap_array_holds (h : heap T) (a : HeapArray.t) (l : list T) : Prop :=
  HeapArray.size a = Z.of_nat (length l)
  ∧ stores h (HeapArray.begin a) l (HeapArray.size a).

(** The part of an outcome of [push] that an observer of sizes sees. *)
Definition size_and_capacity (r : outcome (GrowingArray.t * heap T)) : outcome (Z * Z) :=
  outcome_map (λ ah, (GrowingArray.size (fst ah), GrowingArray.capacity (fst ah))) r.

End Ownership.

(** ** What the loops and [push] leave behind

    The post-conditions of the loops in [reallocate] and [copy], of
    [reallocate], of the two branches of [push], and of [copy]. *)

Section Steps.
Context `{Tg : Target} {T : Type} `{El : Element T}.

(** The heap after one round of the loop in [reallocate]. *)
Definition moved_one (dst src : ptr) (i : Z) (v : T) (h : heap T) : heap T :=
  count_construction
    (set_slot (set_slot h src i (Some (T_moved_from v))) dst i (Some v)).

(** What holds after [k] rounds of the loop in [reallocate], started in
    [h0] with the elements [l] at [src] and a raw block with [m] slots at
    [dst]. *)
Definition moved_upto (h0 : heap T) (dst src : ptr) (l : list T) (m : Z)
    (k : nat) (h : heap T) : Prop :=
  Z.of_nat k ≤ m
  ∧ stores h dst (take k l) m
  ∧ (∀ j, Z.of_nat k ≤ j → slot h src j = slot h0 src j)
  ∧ (∀ q j, q ≠ src → q ≠ dst → slot h q j = slot h0 q j)
  ∧ free_bytes h = free_bytes h0
  ∧ constructions h = (constructions h0 + k)%nat
  ∧ destructions h = destructions h0
  ∧ length (blocks h) = length (blocks h0).

(** The number of slots of the block [reallocate] asks for. *)
Definition new_room (a : GrowingArray.t) : Z :=
  size_t (GrowingArray.grown (GrowingArray.capacity a) * sizeof) / sizeof.

(** [reallocate] took [a], holding [l] in [h], to [a1] in [h1]. *)
Definition reallocated (h : heap T) (a : GrowingArray.t) (l : list T)
    (a1 : GrowingArray.t) (h1 : heap T) : Prop :=
  a1 = {| GrowingArray.begin := Some (length (blocks h));
          GrowingArray.size := GrowingArray.size a;
          GrowingArray.capacity := GrowingArray.grown (GrowingArray.capacity a) |}
  ∧ size_t (GrowingArray.grown (GrowingArray.capacity a) * sizeof) ≤ free_bytes h
  ∧ Z.of_nat (length l) ≤ new_room a
  ∧ stores h1 (GrowingArray.begin a1) l (new_room a)
  ∧ (∀ q j, q ≠ GrowingArray.begin a → q ≠ GrowingArray.begin a1 →
            slot h1 q j = slot h q j)
  ∧ free_bytes h1 =
      free_bytes h - size_t (GrowingArray.grown (GrowingArray.capacity a) * sizeof)
  ∧ constructions h1 = (constructions h + length l)%nat
  ∧ destructions h1 = destructions h
  ∧ length (blocks h1) = S (length (blocks h)).

(** [push] with reallocation took [a], holding [l] in [h], to [a'] in [h']. *)
Definition grew (h : heap T) (a : GrowingArray.t) (l : list T) (x : T)
    (a' : GrowingArray.t) (h' : heap T) : Prop :=
  a' = {| GrowingArray.begin := Some (length (blocks h));
          GrowingArray.size := GrowingArray.size a + 1;
          GrowingArray.capacity := GrowingArray.grown (GrowingArray.capacity a) |}
  ∧ size_t (GrowingArray.grown (GrowingArray.capacity a) * sizeof) ≤ free_bytes h
  ∧ Z.of_nat (length l) < new_room a
  ∧ stores h' (GrowingArray.begin a') (l ++ [x]) (new_room a)
  ∧ (∀ q j, q ≠ GrowingArray.begin a → q ≠ GrowingArray.begin a' →
            slot h' q j = slot h q j)
  ∧ free_bytes h' =
      free_bytes h - size_t (GrowingArray.grown (GrowingArray.capacity a) * sizeof)
  ∧ constructions h' = (constructions h + length l)%nat
  ∧ destructions h' = destructions h
  ∧ length (blocks h') = S (length (blocks h)).

(** The result of [push] without reallocation. *)
Definition appended (a : GrowingArray.t) (x : T) (h : heap T)
    : GrowingArray.t * heap T :=
  ({| GrowingArray.begin := GrowingArray.begin a;
      GrowingArray.size := GrowingArray.size a + 1;
      GrowingArray.capacity := GrowingArray.capacity a |},
   set_slot h (GrowingArray.begin a) (GrowingArray.size a) (Some x)).

(** The heap after one round of the loop in [copy]. *)
Definition copied_one (dst : ptr) (i : Z) (v : T) (h : heap T) : heap T :=
  count_construction (set_slot h dst i (Some v)).

(** What holds after [k] rounds of the loop in [copy]. *)
Definition copied_upto (h0 : heap T) (dst : ptr) (l : list T) (m : Z)
    (k : nat) (h : heap T) : Prop :=
  Z.of_nat k ≤ m
  ∧ stores h dst (take k l) m
  ∧ (∀ q j, q ≠ dst → slot h q j = slot h0 q j)
  ∧ free_bytes h = free_bytes h0
  ∧ constructions h = (constructions h0 + k)%nat
  ∧ destructions h = destructions h0
  ∧ length (blocks h) = length (blocks h0).

(** [copy] took [a], holding [l] in [h], to the new array [a'] in [h']. *)
Definition copied (h : heap T) (a : GrowingArray.t) (l : list T)
    (a' : GrowingArray.t) (h' : heap T) : Prop :=
  a' = {| GrowingArray.begin := Some (length (blocks h));
          GrowingArray.size := GrowingArray.size a;
          GrowingArray.capacity := GrowingArray.size a |}
  ∧ GrowingArray.size a ≤ free_bytes h
  ∧ Z.of_nat (length l) ≤ GrowingArray.size a / sizeof
  ∧ stores h' (GrowingArray.begin a') l (GrowingArray.size a / sizeof)
  ∧ (∀ q j, q ≠ GrowingArray.begin a' → slot h' q j = slot h q j)
  ∧ free_bytes h' = free_bytes h - GrowingArray.size a
  ∧ constructions h' = (constructions h + length l)%nat
  ∧ destructions h' = destructions h
  ∧ length (blocks h') = S (length (blocks h)).

End Steps.

(** ** Forgetting the values

    [shape] replaces every stored value by [()].  What an operation does to
    the shape of the heap does not depend on the values. *)

Section Shape.
Context {T : Type} `{El : Element T}.

Definition unit_element : Element unit :=
  {| sizeof := sizeof; sizeof_pos := sizeof_pos;
     T_default := (); T_moved_from := λ u, u |}.

Definition shape_slot (s : option T) : option unit :=
  match s with Some _ => Some () | None => None end.

Definition shape_block (b : block T) : block unit :=
  Block (blk_live b) (blk_bytes b) (shape_slot <$> blk_slots b).

Definition shape (h : heap T) : heap unit :=
  Heap (shape_block <$> blocks h) (free_bytes h) (constructions h) (destructions h).

(** The outcome of a [GrowingArray] operation with the heap replaced by
    its shape. *)
Definition shape_result (r : outcome (GrowingArray.t * heap T))
  : outcome (GrowingArray.t * heap unit) :=
  outcome_map (λ ah, (fst ah, shape (snd ah))) r.

End Shape.

(** ** The compile-time side of StackArray

    The [constexpr] overload of [operator []], as the compiler evaluates it,
    and the free function [length] for C arrays. *)

Module StackArrayConst.
Section StackArrayConst.
Context {T : Type} {N : nat}.

(** [static inline const T& constexpr_stack_array_index_out_of_bounds()] *)
Definition constexpr_stack_array_index_out_of_bounds : outcome T := Abort.

(** [constexpr const T& operator [] (const size_t index)] *)
Definition index_constexpr (a : StackArray.t T N) (index : Z) : outcome T :=
  if index <? Z.of_nat N then
    match vec_to_list (StackArray.c_array a) !! Z.to_nat index with
    | Some v => Ok v
    | None => Undefined
    end
  else constexpr_stack_array_index_out_of_bounds.

End StackArrayConst.
End StackArrayConst.

(** [inline constexpr size_t length(const T(&)[N])] *)
Module CArray.
Definition length {T : Type} {N : nat} (c_array : vec T N) : Z := Z.of_nat N.
End CArray.

(** ** The [push] of the two earlier revisions

    Both call [realloc] and drop the pointer it returns. *)

Module LegacyPush.
Section LegacyPush.
Context `{Tg : Target} {T : Type} `{El : Element T}.

(** [realloc] of the C library.  Both revisions drop what it returns, so
    nothing is assumed about it. *)
Variable realloc : ptr → Z → heap T → outcome (ptr * heap T).

Record growing_array : Type := { begin : ptr; size : Z; capacity : Z }.

(** [growing_array()] *)
Definition create : growing_array := {| begin := None; size := 0; capacity := 0 |}.

(** [void push(const T& item)] with the capacity rule [grown]:
    [capacity = grown(capacity); realloc(begin, capacity * sizeof(T));]
    inside the branch, then [begin[size] = item; ++size;]. *)
Definition push_with (grown : Z → Z) (a : growing_array) (item : T) (h : heap T)
  : outcome (growing_array * heap T) :=
  do (a1, h1) <-
    (if size a =? capacity a then
       let capacity := grown (capacity a) in
       do (_, h0) <- realloc (begin a) (size_t (capacity * sizeof)) h;
       Ok ({| begin := begin a; size := size a; capacity := capacity |}, h0)
     else Ok (a, h));
  do h2 <- write (begin a1) (size a1) item h1;
  Ok ({| begin := begin a1; size := size_t (size a1 + 1); capacity := capacity a1 |}, h2).

(** The first revision. *)
Definition push_first := push_with Legacy.grown_first.

(** The second revision. *)
Definition push_second := push_with Legacy.grown_second.

End LegacyPush.
End LegacyPush.

(** ** Lifetimes of blocks and elements

    Whether a block is live, and the post-conditions of the constructor of
    [HeapArray], of the destructors and of a run of pushes. *)

Section Lifetime.
Context `{Tg : Target} {T : Type} `{El : Element T}.

(** Whether the block behind [p] is live, and the bytes it was requested
    with; [None] for [nullptr] and for a pointer to nothing. *)
Definition status (h : heap T) (p : ptr) : option (bool * Z) :=
  match p with
  | None => None
  | Some b => (λ blk, (blk_live blk, blk_bytes blk)) <$> blocks h !! b
  end.

(** [free] on a live block. *)
Definition freed (p : ptr) (h : heap T) : heap T :=
  match p with
  | None => h
  | Some b =>
      match blocks h !! b with
      | Some blk =>
          Heap (<[b := Block false (blk_bytes blk) (blk_slots blk)]> (blocks h))
               (free_bytes h + blk_bytes blk) (constructions h) (destructions h)
      | None => h
      end
  end.

(** What holds after [k] rounds of the loop in the constructor of
    [HeapArray], started in [h0] with a raw block with [m] slots at [p]. *)
Definition constructed_upto (h0 : heap T) (p : ptr) (m : Z) (k : nat) (h : heap T) : Prop :=
  Z.of_nat k ≤ m
  ∧ stores h p (replicate k T_default) m
  ∧ (∀ q j, q ≠ p → slot h q j = slot h0 q j)
  ∧ (∀ q, status h q = status h0 q)
  ∧ free_bytes h = free_bytes h0
  ∧ constructions h = (constructions h0 + k)%nat
  ∧ destructions h = destructions h0
  ∧ length (blocks h) = length (blocks h0).

(** The heap after one round of the loop in a destructor. *)
Definition destroyed_one (p : ptr) (i : Z) (h : heap T) : heap T :=
  count_destruction (set_slot h p i None).

(** What holds after [k] rounds of the loop in a destructor. *)
Definition destroyed_upto (h0 : heap T) (p : ptr) (k : nat) (h : heap T) : Prop :=
  (∀ j, Z.of_nat k ≤ j → slot h p j = slot h0 p j)
  ∧ (∀ q j, q ≠ p → slot h q j = slot h0 q j)
  ∧ (∀ q, status h q = status h0 q)
  ∧ free_bytes h = free_bytes h0
  ∧ constructions h = constructions h0
  ∧ destructions h = (destructions h0 + k)%nat
  ∧ length (blocks h) = length (blocks h0).

(** The heap a destructor leaves: [size] elements destroyed, the block
    freed. *)
Definition destructed (h : heap T) (p : ptr) (l : list T) (h' : heap T) : Prop :=
  (∀ j, slot h' p j = None)
  ∧ (∀ q j, q ≠ p → slot h' q j = slot h q j)
  ∧ (∀ q, q ≠ p → status h' q = status h q)
  ∧ (∀ bytes : Z, status h p = Some (true, bytes) →
       status h' p = Some (false, bytes) ∧ free_bytes h' = free_bytes h + bytes)
  ∧ (p = None → free_bytes h' = free_bytes h)
  ∧ constructions h' = constructions h
  ∧ destructions h' = (destructions h + length l)%nat
  ∧ length (blocks h') = length (blocks h).

(** [HeapArray(size_t length)] took [h] to the array [a] in [h']. *)
Definition created (h : heap T) (n : Z) (a : HeapArray.t) (h' : heap T) : Prop :=
  a = {| HeapArray.begin := Some (length (blocks h)); HeapArray.size := n |}
  ∧ n ≤ free_bytes h
  ∧ n ≤ n / sizeof
  ∧ stores h' (HeapArray.begin a) (replicate (Z.to_nat n) T_default) (n / sizeof)
  ∧ status h' (HeapArray.begin a) = Some (true, n)
  ∧ (∀ q j, q ≠ HeapArray.begin a → slot h' q j = slot h q j)
  ∧ (∀ q, q ≠ HeapArray.begin a → status h' q = status h q)
  ∧ free_bytes h' = free_bytes h - n
  ∧ constructions h' = (constructions h + Z.to_nat n)%nat
  ∧ destructions h' = destructions h
  ∧ length (blocks h') = S (length (blocks h)).

(** The books of a [GrowingArray] that was default-constructed on a heap
    with [F0] free bytes and [D0] destructor calls, and now holds [l]. *)
Definition accounted (F0 : Z) (D0 : nat) (h : heap T) (a : GrowingArray.t)
    (l : list T) : Prop :=
  holds h a l
  ∧ 2 * GrowingArray.capacity a ≤ 3 * Z.of_nat (length l) + 1
  ∧ (GrowingArray.begin a = None ∧ GrowingArray.capacity a = 0
     ∨ status h (GrowingArray.begin a) = Some (true, GrowingArray.capacity a * sizeof))
  ∧ F0 ≤ free_bytes h + 3 * GrowingArray.capacity a * sizeof
  ∧ (length l = 0%nat → GrowingArray.capacity a = 0 ∧ free_bytes h = F0)
  ∧ ((1 ≤ length l ≤ 2)%nat →
       GrowingArray.capacity a = 2 ∧ free_bytes h + 2 * sizeof = F0)
  ∧ ((3 ≤ length l)%nat →
       free_bytes h + GrowingArray.capacity a * sizeof ≤ F0 - 2 * sizeof)
  ∧ destructions h = D0.

End Lifetime.

(** ** The sketch that exercises the library *)

Module Sketch.
Section Sketch.
Context `{Tg : Target} `{El : Element Z}.

(** [assert(e)] *)
Definition assert (e : bool) : outcome unit := if e then Ok () else Abort.

(** Reading the element a [StackArray] expression [b[i]] designates. *)
Definition stack_array_at {N : nat} (b : StackArray.t Z N) (i : Z) : outcome Z :=
  do r <- StackArray.index b i;
  match StackArray.deref b r with Some v => Ok v | None => Undefined end.

(** Reading [c[i]] for a [HeapArray]. *)
Definition heap_array_at (c : HeapArray.t) (i : Z) (h : heap Z) : outcome Z :=
  do (p, j) <- HeapArray.index c i; read h p j.

(** [c[i] = v] for a [HeapArray]. *)
Definition heap_array_assign (c : HeapArray.t) (i v : Z) (h : heap Z) : outcome (heap Z) :=
  do (p, j) <- HeapArray.index c i; write p j v h.

(** Reading [d[i]] for a [GrowingArray]. *)
Definition growing_array_at (d : GrowingArray.t) (i : Z) (h : heap Z) : outcome Z :=
  do (p, j) <- GrowingArray.index d i; read h p j.

(** [void setup()] of the sketch that goes with this revision.  The
    [static_assert]s on the [constexpr] array are checked like the
    [assert]s; the locals are destroyed in reverse order when [setup]
    returns. *)
Definition setup (h : heap Z) : outcome (heap Z) :=
  let a : StackArray.t Z 3 := {| StackArray.c_array := [# 2; 4; 6] |} in
  do a0 <- StackArrayConst.index_constexpr a 0; do _ <- assert (a0 =? 2);
  do a1 <- StackArrayConst.index_constexpr a 1; do _ <- assert (a1 =? 4);
  do a2 <- StackArrayConst.index_constexpr a 2; do _ <- assert (a2 =? 6);
  do _ <- assert (StackArray.length a =? 3);
  do _ <- assert (CArray.length (StackArray.c_array a) =? 3);
  let b : StackArray.t Z 3 := {| StackArray.c_array := [# 2; 4; 6] |} in
  do b0 <- stack_array_at b 0; do _ <- assert (b0 =? 2);
  do b1 <- stack_array_at b 1; do _ <- assert (b1 =? 4);
  do b2 <- stack_array_at b 2; do _ <- assert (b2 =? 6);
  do _ <- assert (StackArray.length b =? 3);
  do _ <- assert (CArray.length (StackArray.c_array b) =? 3);
  do (c, h) <- HeapArray.create 3 h;
  do h <- heap_array_assign c 0 2 h;
  do h <- heap_array_assign c 1 4 h;
  do h <- heap_array_assign c 2 6 h;
  do c0 <- heap_array_at c 0 h; do _ <- assert (c0 =? 2);
  do c1 <- heap_array_at c 1 h; do _ <- assert (c1 =? 4);
  do c2 <- heap_array_at c 2 h; do _ <- assert (c2 =? 6);
  do _ <- assert (HeapArray.length c =? 3);
  let d := GrowingArray.create in
  do (d, h) <- GrowingArray.push d 2 h;
  do (d, h) <- GrowingArray.push d 4 h;
  do (d, h) <- GrowingArray.push d 6 h;
  do d0 <- growing_array_at d 0 h; do _ <- assert (d0 =? 2);
  do d1 <- growing_array_at d 1 h; do _ <- assert (d1 =? 4);
  do d2 <- growing_array_at d 2 h; do _ <- assert (d2 =? 6);
  do _ <- assert (GrowingArray.length d =? 3);
  do h <- GrowingArray.destroy d h;
  HeapArray.destroy c h.

End Sketch.
End Sketch.

(** ** A concrete target and element type

    The boards the library was written for: an 8-bit AVR, where [size_t] and
    [int] are 16 bits wide and an [int] takes two bytes. *)

Module Avr.

Definition target : Target :=
  {| SIZE_MAX := 65535; INT_MAX := 32767;
     SIZE_MAX_pos := eq_refl; INT_MAX_pos := eq_refl |}.

(** [int]: moving an [int] leaves the source as it was. *)
Definition int : Element Z :=
  {| sizeof := 2; sizeof_pos := eq_refl; T_default := 0; T_moved_from := λ v, v |}.

(** [char] *)
Definition char : Element Z :=
  {| sizeof := 1; sizeof_pos := eq_refl; T_default := 0; T_moved_from := λ v, v |}.

(** A heap without blocks and with [n] bytes to hand out. *)
Definition fresh_heap (n : Z) : heap Z := Heap [] n 0 0.

(** The array after [push(2); push(4)] on a heap that had 100 bytes. *)
Definition two_of_two : GrowingArray.t :=
  {| GrowingArray.begin := Some 0%nat;
     GrowingArray.size := 2; GrowingArray.capacity := 2 |}.

Definition heap_two_of_two : heap Z :=
  Heap [Block true 4 [Some 2; Some 4]] 96 0 0.

(** The array after [push(2); push(4); push(6); push(8)] on that heap. *)
Definition four_of_five : GrowingArray.t :=
  {| GrowingArray.begin := Some 2%nat;
     GrowingArray.size := 4; GrowingArray.capacity := 5 |}.

Definition heap_four_of_five : heap Z :=
  Heap [Block true 4 [Some 2; Some 4];
        Block true 6 [Some 2; Some 4; Some 6];
        Block true 10 [Some 2; Some 4; Some 6; Some 8; None]] 80 5 0.

(** [StackArray<int, 3> b{2, 4, 6}] *)
Definition two_four_six : StackArray.t Z 3 := {| StackArray.c_array := [# 2; 4; 6] |}.

(** A [HeapArray<char>] of three elements after [c[0] = 2; c[1] = 4;
    c[2] = 6] on a heap that had 100 bytes. *)
Definition three_chars : HeapArray.t :=
  {| HeapArray.begin := Some 0%nat; HeapArray.size := 3 |}.

Definition heap_three_chars : heap Z :=
  Heap [Block true 3 [Some 2; Some 4; Some 6]] 97 3 0.

(** A [GrowingArray<int>] that is full at a capacity of 21845 elements, the
    least one for which [capacity * 3 + 1] does not fit 16 bits. *)
Definition full : GrowingArray.t :=
  {| GrowingArray.begin := Some 0%nat;
     GrowingArray.size := 21845; GrowingArray.capacity := 21845 |}.

Definition heap_full : heap Z :=
  Heap [Block true 43690 (replicate (Z.to_nat 21845) (Some 0))] 0 0 0.

(** The array [four_of_five] as the first revision declares it. *)
Definition legacy_four_of_five : LegacyPush.growing_array :=
  {| LegacyPush.begin := Some 2%nat; LegacyPush.size := 4; LegacyPush.capacity := 5 |}.

(** A [realloc] that grows the block where it is. *)
Definition realloc_in_place (p : ptr) (n : Z) (h : heap Z) : outcome (ptr * heap Z) :=
  Ok (p, h).

End Avr.

(** * Properties *)

#[local] Set Warnings "-clear-no-such-hyp".

Ltac fields :=
  cbn [bind fst snd GrowingArray.begin GrowingArray.size GrowingArray.capacity] in *.

(** ** Facts about the memory *)

Section MemoryFacts.
Context `{Tg : Target} {T : Type} `{El : Element T}.
Implicit Types (h : heap T) (p q : ptr) (i j n : Z) (s : option T) (v : T).

Lemma bind_Ok {A B} (m : outcome A) (k : A → outcome B) (r : B) :
  bind m k = Ok r → ∃ a, m = Ok a ∧ k a = Ok r.
Proof. destruct m; simpl; [eauto | discriminate | discriminate]. Qed.

Lemma slot_is_Some h p j :
  is_Some (slot h p j) → ∃ b, p = Some b ∧ (b < length (blocks h))%nat ∧ 0 ≤ j.
Proof.
  unfold slot. destruct p as [b|]; [|intros [? [=]]].
  destruct (blocks h !! b) as [blk|] eqn:Hb; [|intros [? [=]]].
  destruct (blk_live blk); simpl; [|intros [? [=]]].
  destruct (Z.leb_spec 0 j); [|intros [? [=]]].
  intros _. exists b. split; [done|]. split; [|done].
  by eapply lookup_lt_Some.
Qed.

Lemma slot_set_slot h p i s q j :
  is_Some (slot h p i) →
  slot (set_slot h p i s) q j = if decide (q = p ∧ j = i) then Some s else slot h q j.
Proof.
  intros Hs. destruct (slot_is_Some _ _ _ Hs) as (b & -> & Hb & Hi).
  destruct (decide (q = Some b ∧ j = i)) as [[-> ->]|Hne].
  - unfold slot in *. simpl. rewrite list_lookup_alter_eq.
    destruct (blocks h !! b) as [blk|]; simpl in *; [|destruct Hs as [? [=]]].
    destruct (blk_live blk); simpl in *; [|destruct Hs as [? [=]]].
    rewrite (proj2 (Z.leb_le 0 i)) in * by lia.
    destruct Hs as [x Hx%lookup_lt_Some]. by apply list_lookup_insert_eq.
  - unfold slot in *. simpl. destruct q as [b'|]; [|done].
    destruct (decide (b' = b)) as [->|Hb'].
    + rewrite list_lookup_alter_eq.
      destruct (blocks h !! b) as [blk|]; simpl in *; [|done].
      destruct (blk_live blk); simpl in *; [|done].
      destruct (Z.leb_spec 0 j); [|done].
      apply list_lookup_insert_ne. intros Heq. apply Hne. split; [done|lia].
    + by rewrite list_lookup_alter_ne.
Qed.

Lemma length_blocks_set_slot h p i s :
  length (blocks (set_slot h p i s)) = length (blocks h).
Proof. destruct p; simpl; [apply length_alter | done]. Qed.

Lemma slot_allocated n h q j :
  slot (allocated n h) q j =
    if decide (q = Some (length (blocks h))) then layout [] (n / sizeof) j
    else slot h q j.
Proof.
  destruct (decide (q = Some (length (blocks h)))) as [->|Hne].
  - unfold layout. case_decide; [simpl in *; lia|].
    unfold slot. simpl. rewrite lookup_app_r, Nat.sub_diag by done. simpl.
    destruct (decide (0 ≤ j < n / sizeof)).
    + rewrite (proj2 (Z.leb_le 0 j)) by lia. apply lookup_replicate_2. lia.
    + destruct (Z.leb_spec 0 j); [|done].
      apply lookup_ge_None. rewrite length_replicate. lia.
  - unfold slot. simpl. destruct q as [b|]; [|done].
    destruct (decide (b < length (blocks h))%nat).
    + by rewrite lookup_app_l.
    + rewrite !lookup_ge_None_2; [done | |].
      * assert (b ≠ length (blocks h)) by congruence. lia.
      * rewrite length_app. simpl. assert (b ≠ length (blocks h)) by congruence. lia.
Qed.

Lemma malloc_enough n h :
  n ≤ free_bytes h → malloc n h = (Some (length (blocks h)), allocated n h).
Proof. unfold malloc. by destruct (Z.leb_spec n (free_bytes h)); [|lia]. Qed.

Lemma malloc_exhausted n h :
  free_bytes h < n → malloc n h = (None, h).
Proof. unfold malloc. by destruct (Z.leb_spec n (free_bytes h)); [lia|]. Qed.

Lemma read_Ok h p i v : read h p i = Ok v ↔ slot h p i = Some (Some v).
Proof.
  unfold read. destruct (slot h p i) as [[w|]|]; split; intros; simplify_eq; done.
Qed.

Lemma write_Ok p i v h h' :
  write p i v h = Ok h' ↔ is_Some (slot h p i) ∧ h' = set_slot h p i (Some v).
Proof.
  unfold write. destruct (slot h p i) as [s|]; split.
  - intros [= <-]. eauto.
  - by intros [_ ->].
  - discriminate.
  - by intros [[? [=]] _].
Qed.

Lemma construct_Ok p i v h h' :
  construct p i v h = Ok h' ↔
    is_Some (slot h p i) ∧ h' = count_construction (set_slot h p i (Some v)).
Proof.
  unfold construct. split.
  - intros (h1 & Hw%write_Ok & [= <-])%bind_Ok. destruct Hw as [? ->]. done.
  - intros [Hs ->]. by rewrite (proj2 (write_Ok p i v h _) (conj Hs eq_refl)).
Qed.

End MemoryFacts.

(** ** Loops, [layout] and [stores] *)

Section LoopFacts.
Context `{Tg : Target} {T : Type} `{El : Element T}.
Implicit Types (h : heap T) (p q : ptr) (i j room : Z) (n k : nat) (s : option T) (v x : T) (l : list T).

Lemma for_upto_total (P : nat → heap T → Prop) body n i0 h :
  P 0%nat h →
  (∀ k hk, (k < n)%nat → P k hk →
     ∃ hk', body (i0 + Z.of_nat k) hk = Ok hk' ∧ P (S k) hk') →
  ∃ h', for_upto n i0 body h = Ok h' ∧ P n h'.
Proof.
  revert P i0 h. induction n as [|n IH]; intros P i0 h H0 Hstep; simpl.
  - eauto.
  - destruct (Hstep 0%nat h) as (h1 & Hb & H1); [lia | done |].
    rewrite Z.add_0_r in Hb. rewrite Hb. simpl.
    apply (IH (λ k, P (S k))); [done|].
    intros k hk Hk HP.
    destruct (Hstep (S k) hk) as (hk' & Hb' & HP'); [lia | done |].
    exists hk'. split; [|done]. rewrite <- Hb'. f_equal. lia.
Qed.

Lemma for_upto_partial (P : nat → heap T → Prop) body n i0 h h' :
  for_upto n i0 body h = Ok h' →
  P 0%nat h →
  (∀ k hk hk', (k < n)%nat → P k hk →
     body (i0 + Z.of_nat k) hk = Ok hk' → P (S k) hk') →
  P n h'.
Proof.
  revert P i0 h. induction n as [|n IH]; intros P i0 h Hrun H0 Hstep; simpl in Hrun.
  - by injection Hrun as <-.
  - apply bind_Ok in Hrun as (h1 & Hb & Hrun).
    apply (IH (λ k, P (S k)) (i0 + 1) h1); [done | |].
    + apply (Hstep 0%nat h); [lia | done |]. by rewrite Z.add_0_r.
    + intros k hk hk' Hk HP Hb'. apply (Hstep (S k) hk); [lia | done |].
      rewrite <- Hb'. f_equal. lia.
Qed.

(** ** Facts about [layout] and [stores] *)

Lemma layout_snoc l room x j :
  Z.of_nat (length l) < room →
  layout (l ++ [x]) room j =
    if decide (j = Z.of_nat (length l)) then Some (Some x) else layout l room j.
Proof.
  intros Hroom. unfold layout. rewrite length_app. simpl.
  destruct (decide (j = Z.of_nat (length l))) as [->|Hne].
  - case_decide; [|lia]. f_equal.
    rewrite Nat2Z.id, lookup_app_r, Nat.sub_diag by done. done.
  - destruct (decide (0 ≤ j < Z.of_nat (length l))).
    + case_decide; [|lia]. f_equal. apply lookup_app_l. lia.
    + case_decide; [lia|]. done.
Qed.

Lemma stores_null h : stores h None [] 0.
Proof. intros j. unfold layout. simpl. repeat case_decide; done || lia. Qed.

Lemma stores_room h p l room : stores h p l room → l ≠ [] ∨ 0 < room →
  ∃ b, p = Some b ∧ (b < length (blocks h))%nat.
Proof.
  intros Hst Hne. destruct (slot_is_Some h p 0) as (b & ? & ? & _); [|eauto].
  rewrite Hst. unfold layout. repeat case_decide; eauto.
  destruct Hne as [Hne|?]; [|lia]. destruct l; [done|]. simpl in *. lia.
Qed.

Lemma stores_snoc h p l room x :
  stores h p l room → Z.of_nat (length l) < room →
  stores (set_slot h p (Z.of_nat (length l)) (Some x)) p (l ++ [x]) room.
Proof.
  intros Hst Hroom j. rewrite slot_set_slot, layout_snoc by
    (try rewrite Hst; unfold layout; repeat case_decide; eauto; lia).
  destruct (decide (j = Z.of_nat (length l))); case_decide; naive_solver.
Qed.

Lemma stores_read h p l room k v :
  stores h p l room → l !! k = Some v → read h p (Z.of_nat k) = Ok v.
Proof.
  intros Hst Hk. apply read_Ok. rewrite Hst. unfold layout.
  apply lookup_lt_Some in Hk as Hlt. case_decide; [|lia].
  by rewrite Nat2Z.id, Hk.
Qed.

End LoopFacts.

(** ** Arithmetic in [size_t] *)

Section Arithmetic.
Context `{Tg : Target}.

Lemma size_t_small z : 0 ≤ z ≤ SIZE_MAX → size_t z = z.
Proof. intros. unfold size_t. apply Z.mod_small. lia. Qed.

Lemma size_t_range z : 0 ≤ size_t z ≤ SIZE_MAX.
Proof.
  unfold size_t. pose proof SIZE_MAX_pos.
  pose proof (Z.mod_pos_bound z (SIZE_MAX + 1)). lia.
Qed.

Lemma size_t_le z : 0 ≤ z → size_t z ≤ z.
Proof. intros. unfold size_t. pose proof SIZE_MAX_pos. apply Z.mod_le; lia. Qed.

Lemma grown_exact c :
  0 ≤ c → 3 * Z.max c 1 + 1 ≤ SIZE_MAX →
  GrowingArray.grown c = (3 * Z.max c 1 + 1) / 2.
Proof.
  intros Hc Hmax. unfold GrowingArray.grown.
  assert ((if c =? 0 then 1 else c) = Z.max c 1) as ->.
  { destruct (Z.eqb_spec c 0); lia. }
  rewrite (size_t_small (Z.max c 1 * 3)) by lia.
  rewrite size_t_small by lia. f_equal. lia.
Qed.

Lemma grown_range c : 0 ≤ GrowingArray.grown c ≤ SIZE_MAX.
Proof.
  unfold GrowingArray.grown.
  pose proof (size_t_range (size_t ((if c =? 0 then 1 else c) * 3) + 1)) as Hr.
  split.
  - apply Z.div_pos; lia.
  - transitivity (size_t (size_t ((if c =? 0 then 1 else c) * 3) + 1)); [|lia].
    apply Z.div_le_upper_bound; lia.
Qed.

Lemma grown_wrapped c :
  1 ≤ c ≤ SIZE_MAX → SIZE_MAX < 3 * c + 1 → GrowingArray.grown c < c.
Proof.
  intros Hc Hwrap. unfold GrowingArray.grown. pose proof SIZE_MAX_pos.
  destruct (Z.eqb_spec c 0); [lia|].
  unfold size_t. rewrite Zplus_mod_idemp_l.
  set (M := SIZE_MAX + 1). set (m := c).
  assert (0 < M) by (unfold M; lia).
  apply Z.div_lt_upper_bound; [lia|].
  destruct (Z_lt_le_dec (m * 3 + 1) (2 * M)).
  - replace (m * 3 + 1) with ((m * 3 + 1 - M) + 1 * M) by lia.
    rewrite Z_mod_plus_full, Z.mod_small by (unfold M, m in *; lia).
    unfold M, m in *; lia.
  - replace (m * 3 + 1) with ((m * 3 + 1 - 2 * M) + 2 * M) by lia.
    rewrite Z_mod_plus_full, Z.mod_small by (unfold M, m in *; lia).
    unfold M, m in *; lia.
Qed.

End Arithmetic.

Section ElementArithmetic.
Context `{Tg : Target} {T : Type} `{El : Element T}.

(** The number of slots in a block requested for [c] elements never
    exceeds [c]. *)
Lemma slots_le c : 0 ≤ c → size_t (c * sizeof) / sizeof ≤ c.
Proof.
  intros Hc. pose proof sizeof_pos.
  apply Z.div_le_upper_bound; [lia|].
  pose proof (size_t_le (c * sizeof)). nia.
Qed.

Lemma slots_exact c : 0 ≤ c → c * sizeof ≤ SIZE_MAX → size_t (c * sizeof) / sizeof = c.
Proof.
  intros Hc Hfit. pose proof sizeof_pos.
  rewrite size_t_small by nia. apply Z.div_mul. lia.
Qed.

End ElementArithmetic.

(** ** The loop in [reallocate] *)

Section MoveLoop.
Context `{Tg : Target} {T : Type} `{El : Element T}.
Implicit Types (h : heap T) (p q src dst : ptr) (i j room m : Z) (n k : nat)
  (s : option T) (v x : T) (l : list T).

Lemma slot_count_construction h q j : slot (count_construction h) q j = slot h q j.
Proof. done. Qed.

Lemma slot_count_destruction h q j : slot (count_destruction h) q j = slot h q j.
Proof. done. Qed.

Lemma move_construct_Ok dst src i h h' :
  src ≠ dst →
  move_construct dst src i h = Ok h' ↔
    ∃ v, slot h src i = Some (Some v) ∧ is_Some (slot h dst i)
         ∧ h' = moved_one dst src i v h.
Proof.
  intros Hne. unfold move_construct. split.
  - intros (v & Hr%read_Ok & (h1 & Hw%write_Ok & Hc%construct_Ok)%bind_Ok)%bind_Ok.
    destruct Hw as [Hsrc ->]. destruct Hc as [Hdst ->].
    rewrite slot_set_slot in Hdst by done.
    case_decide; [naive_solver|]. eauto.
  - intros (v & Hsrc & Hdst & ->).
    rewrite (proj2 (read_Ok _ _ _ _) Hsrc). simpl.
    rewrite (proj2 (write_Ok _ _ _ _ _) (conj (mk_is_Some _ _ Hsrc) eq_refl)). simpl.
    apply construct_Ok. split; [|done].
    rewrite slot_set_slot by eauto. case_decide; [naive_solver|done].
Qed.

Lemma slot_moved_one dst src i v h q j :
  src ≠ dst → is_Some (slot h src i) → is_Some (slot h dst i) →
  slot (moved_one dst src i v h) q j =
    if decide (q = dst ∧ j = i) then Some (Some v)
    else if decide (q = src ∧ j = i) then Some (Some (T_moved_from v))
    else slot h q j.
Proof.
  intros Hne Hsrc Hdst. unfold moved_one.
  rewrite slot_count_construction, slot_set_slot.
  - case_decide; [done|]. by rewrite slot_set_slot.
  - rewrite slot_set_slot by done. case_decide; [naive_solver|done].
Qed.

Lemma moved_upto_0 h0 dst src l m :
  0 ≤ m → stores h0 dst [] m → moved_upto h0 dst src l m 0 h0.
Proof.
  intros Hm Hdst. unfold moved_upto. rewrite take_0, Nat.add_0_r.
  repeat split; done || lia.
Qed.

Lemma moved_upto_source h0 dst src l room m k h v :
  stores h0 src l room → moved_upto h0 dst src l m k h → l !! k = Some v →
  slot h src (Z.of_nat k) = Some (Some v).
Proof.
  intros Hsrc (_ & _ & Hrest & _) Hk. rewrite Hrest, Hsrc by lia.
  apply lookup_lt_Some in Hk as Hlt. unfold layout.
  case_decide; [|lia]. by rewrite Nat2Z.id, Hk.
Qed.

Lemma moved_upto_target h0 dst src l m k h :
  moved_upto h0 dst src l m k h → (k < length l)%nat →
  is_Some (slot h dst (Z.of_nat k)) ↔ Z.of_nat k < m.
Proof.
  intros (_ & Hdst & _) Hk. rewrite Hdst. unfold layout.
  rewrite length_take. repeat case_decide; split; intros; try lia; eauto.
  by destruct H1.
Qed.

Lemma moved_upto_S h0 dst src l room m k h v :
  src ≠ dst → stores h0 src l room → moved_upto h0 dst src l m k h →
  l !! k = Some v → Z.of_nat k < m →
  moved_upto h0 dst src l m (S k) (moved_one dst src (Z.of_nat k) v h).
Proof.
  intros Hne Hsrc Hk Hv Hroom.
  pose proof (moved_upto_source _ _ _ _ _ _ _ _ _ Hsrc Hk Hv) as Hs.
  apply lookup_lt_Some in Hv as Hlt.
  pose proof (proj2 (moved_upto_target _ _ _ _ _ _ _ Hk Hlt) Hroom) as Hd.
  destruct Hk as (Hkm & Hdst & Hrest & Hframe & Hfree & Hcon & Hdes & Hlen).
  unfold moved_upto. split; [lia|]. split; [|split; [|split]].
  - intros j. rewrite slot_moved_one by eauto.
    rewrite (take_S_r _ _ _ Hv).
    assert (length (take k l) = k) as Hlk by (rewrite length_take; lia).
    rewrite layout_snoc by lia. rewrite Hlk.
    case_decide; case_decide; try naive_solver.
    case_decide; [naive_solver|]. apply Hdst.
  - intros j Hj. rewrite slot_moved_one by eauto.
    case_decide; [naive_solver|]. case_decide; [lia|]. apply Hrest. lia.
  - intros q j Hq1 Hq2. rewrite slot_moved_one by eauto.
    case_decide; [naive_solver|]. case_decide; [naive_solver|]. by apply Hframe.
  - split; [done|]. split; [simpl; lia|]. split; [done|].
    unfold moved_one, count_construction. cbn [blocks].
    by rewrite !length_blocks_set_slot.
Qed.

Lemma move_loop_total h0 dst src l room m :
  (l = [] ∨ src ≠ dst) → stores h0 src l room → stores h0 dst [] m →
  Z.of_nat (length l) ≤ m →
  ∃ h, for_size_t (Z.of_nat (length l)) (move_construct dst src) h0 = Ok h
       ∧ moved_upto h0 dst src l m (length l) h.
Proof.
  intros Hne Hsrc Hdst Hm. unfold for_size_t. rewrite Nat2Z.id.
  apply for_upto_total.
  - apply moved_upto_0; [lia|done].
  - intros k hk Hk HP. destruct Hne as [->|Hne]; [simpl in Hk; lia|].
    destruct (lookup_lt_is_Some_2 l k Hk) as [v Hv].
    exists (moved_one dst src (Z.of_nat k) v hk). split.
    + apply move_construct_Ok; [done|]. exists v. split; [|split; [|done]].
      * eapply moved_upto_source; eauto.
      * eapply moved_upto_target; eauto. lia.
    + eapply moved_upto_S; eauto. lia.
Qed.

Lemma move_loop_partial h0 dst src l room m h :
  (l = [] ∨ src ≠ dst) → stores h0 src l room → stores h0 dst [] m → 0 ≤ m →
  for_size_t (Z.of_nat (length l)) (move_construct dst src) h0 = Ok h →
  moved_upto h0 dst src l m (length l) h.
Proof.
  intros Hne Hsrc Hdst Hm Hrun. unfold for_size_t in Hrun. rewrite Nat2Z.id in Hrun.
  eapply for_upto_partial; [exact Hrun | by apply moved_upto_0 |].
  intros k hk hk' Hk HP Hbody. destruct Hne as [->|Hne]; [simpl in Hk; lia|].
  change (0 + Z.of_nat k) with (Z.of_nat k) in Hbody.
  apply move_construct_Ok in Hbody as (v & Hv & Hd & ->); [|done].
  destruct (lookup_lt_is_Some_2 l k Hk) as [w Hw].
  pose proof (moved_upto_source _ _ _ _ _ _ _ _ _ Hsrc HP Hw) as Hs.
  assert (w = v) as -> by congruence.
  eapply moved_upto_S; eauto. by eapply moved_upto_target.
Qed.

End MoveLoop.

(** ** [reallocate] *)

Section ReallocateFacts.
Context `{Tg : Target} {T : Type} `{El : Element T}.
Implicit Types (h : heap T) (p q src dst : ptr) (i j room m : Z) (n k : nat)
  (s : option T) (v x : T) (l : list T) (a : GrowingArray.t).

Lemma new_room_nonneg a : 0 ≤ new_room a.
Proof.
  unfold new_room. pose proof sizeof_pos.
  apply Z.div_pos; [|lia]. apply size_t_range.
Qed.

Lemma new_room_le a : new_room a ≤ GrowingArray.grown (GrowingArray.capacity a).
Proof. apply slots_le, grown_range. Qed.

Lemma stores_allocated_new (n : Z) h :
  stores (allocated n h) (Some (length (blocks h))) [] (n / sizeof).
Proof. intros j. rewrite slot_allocated. by case_decide. Qed.

Lemma stores_allocated_old (n : Z) h p l room :
  stores h p l room → l ≠ [] → stores (allocated n h) p l room
                                ∧ p ≠ Some (length (blocks h)).
Proof.
  intros Hst Hl. destruct (stores_room _ _ _ _ Hst) as (b & -> & Hb); [by left|].
  assert (Some b ≠ Some (length (blocks h))) by (intros [=]; lia).
  split; [|done]. intros j. rewrite slot_allocated. by case_decide.
Qed.

Lemma moved_upto_reallocated h a l room r :
  let a1 := {| GrowingArray.begin := Some (length (blocks h));
               GrowingArray.size := GrowingArray.size a;
               GrowingArray.capacity := GrowingArray.grown (GrowingArray.capacity a) |} in
  r = size_t (GrowingArray.grown (GrowingArray.capacity a) * sizeof) →
  r ≤ free_bytes h →
  stores h (GrowingArray.begin a) l room →
  ∀ h1,
  moved_upto (allocated r h) (Some (length (blocks h))) (GrowingArray.begin a)
             l (new_room a) (length l) h1 →
  reallocated h a l a1 h1.
Proof.
  intros a1 -> Hr Hst h1 (Hm & Hdst & _ & Hframe & Hfree & Hcon & Hdes & Hlen).
  unfold reallocated. split; [done|]. split; [done|]. split; [done|]. split.
  { rewrite firstn_all in Hdst. exact Hdst. }
  split.
  { intros q j Hq1 Hq2. rewrite Hframe by done. rewrite slot_allocated.
    by case_decide. }
  rewrite Hfree, Hcon, Hdes, Hlen. simpl. rewrite length_app. simpl.
  repeat split; lia.
Qed.

Lemma reallocate_total h a l room :
  stores h (GrowingArray.begin a) l room →
  GrowingArray.size a = Z.of_nat (length l) →
  size_t (GrowingArray.grown (GrowingArray.capacity a) * sizeof) ≤ free_bytes h →
  Z.of_nat (length l) ≤ new_room a →
  ∃ a1 h1, GrowingArray.reallocate a h = Ok (a1, h1) ∧ reallocated h a l a1 h1.
Proof.
  intros Hst Hsize Hfree Hroom. unfold GrowingArray.reallocate.
  rewrite malloc_enough by done.
  set (r := size_t _) in *.
  destruct (decide (l = [])) as [->|Hl].
  - assert (for_size_t (GrowingArray.size a)
              (move_construct (Some (length (blocks h))) (GrowingArray.begin a))
              (allocated r h) = Ok (allocated r h)) as Hloop by (by rewrite Hsize).
    rewrite Hloop. simpl. eexists _, _. split; [done|].
    eapply (moved_upto_reallocated h a [] room r); [done | done | done |].
    apply moved_upto_0; [apply new_room_nonneg | apply stores_allocated_new].
  - destruct (stores_allocated_old r _ _ _ _ Hst Hl) as [Hsrc Hne].
    destruct (move_loop_total (allocated r h) (Some (length (blocks h)))
                (GrowingArray.begin a) l room (new_room a))
      as (h1 & Hloop & Hmoved);
      [by right | done | apply stores_allocated_new | done |].
    rewrite <- Hsize in Hloop. rewrite Hloop.
    simpl. eexists _, _. split; [done|].
    by eapply moved_upto_reallocated.
Qed.

Lemma reallocate_partial h a l room a1 h1 :
  stores h (GrowingArray.begin a) l room →
  GrowingArray.size a = Z.of_nat (length l) →
  GrowingArray.reallocate a h = Ok (a1, h1) →
  GrowingArray.begin a1 ≠ None →
  reallocated h a l a1 h1.
Proof.
  intros Hst Hsize Hrun Hbegin. unfold GrowingArray.reallocate in Hrun.
  set (r := size_t _) in *.
  destruct (Z_le_gt_dec r (free_bytes h)).
  - rewrite malloc_enough in Hrun by done.
    apply bind_Ok in Hrun as (h' & Hloop & [= <- <-]).
    rewrite Hsize in Hloop.
    eapply (moved_upto_reallocated h a l room r); [done | done | done |].
    destruct (decide (l = [])) as [->|Hl].
    + simpl in Hloop. injection Hloop as <-.
      apply moved_upto_0; [apply new_room_nonneg | apply stores_allocated_new].
    + destruct (stores_allocated_old r _ _ _ _ Hst Hl) as [Hsrc Hne].
      eapply move_loop_partial; eauto using stores_allocated_new, new_room_nonneg.
  - rewrite malloc_exhausted in Hrun by lia.
    apply bind_Ok in Hrun as (h' & _ & [= <- <-]). done.
Qed.

End ReallocateFacts.

(** ** The two branches of [push] *)

Section PushFacts.
Context `{Tg : Target} {T : Type} `{El : Element T}.
Implicit Types (h : heap T) (p q src dst : ptr) (i j room m : Z) (n k : nat)
  (s : option T) (v x : T) (l : list T) (a : GrowingArray.t).

Lemma stores_slot_end h p l room :
  stores h p l room → is_Some (slot h p (Z.of_nat (length l))) ↔ Z.of_nat (length l) < room.
Proof.
  intros Hst. rewrite Hst. unfold layout. case_decide; [lia|].
  case_decide; split; intros; try lia; eauto. by destruct H1.
Qed.

Lemma reallocated_grew h a l x a1 h1 :
  GrowingArray.size a = Z.of_nat (length l) →
  reallocated h a l a1 h1 → Z.of_nat (length l) < new_room a →
  grew h a l x
    {| GrowingArray.begin := GrowingArray.begin a1;
       GrowingArray.size := size_t (GrowingArray.size a1 + 1);
       GrowingArray.capacity := GrowingArray.capacity a1 |}
    (set_slot h1 (GrowingArray.begin a1) (GrowingArray.size a1) (Some x)).
Proof.
  intros Hsize (-> & Hr & Hle & Hst & Hframe & Hfree & Hcon & Hdes & Hlen) Hroom.
  unfold grew. cbn [GrowingArray.begin GrowingArray.size GrowingArray.capacity] in *.
  pose proof (new_room_le a). pose proof (grown_range (GrowingArray.capacity a)).
  rewrite size_t_small by lia. split; [done|]. split; [done|]. split; [done|].
  rewrite Hsize. split; [by apply stores_snoc|]. split.
  { intros q j Hq1 Hq2. rewrite slot_set_slot by (by eapply stores_slot_end).
    case_decide; [naive_solver|]. by apply Hframe. }
  rewrite length_blocks_set_slot. cbn [free_bytes constructions destructions set_slot set_blocks].
  done.
Qed.

Lemma push_growth_total h a l room x :
  stores h (GrowingArray.begin a) l room →
  GrowingArray.size a = Z.of_nat (length l) →
  GrowingArray.size a = GrowingArray.capacity a →
  size_t (GrowingArray.grown (GrowingArray.capacity a) * sizeof) ≤ free_bytes h →
  Z.of_nat (length l) < new_room a →
  ∃ a' h', GrowingArray.push a x h = Ok (a', h') ∧ grew h a l x a' h'.
Proof.
  intros Hst Hsize Hfull Hfree Hroom. unfold GrowingArray.push.
  rewrite (proj2 (Z.eqb_eq _ _) Hfull).
  destruct (reallocate_total h a l room) as (a1 & h1 & -> & Hre); [done..|lia|].
  fields.
  assert (is_Some (slot h1 (GrowingArray.begin a1) (GrowingArray.size a1))) as Hs.
  { destruct Hre as (-> & _ & _ & Hst1 & _). fields. rewrite Hsize.
    by eapply stores_slot_end. }
  rewrite (proj2 (write_Ok _ _ x h1 _) (conj Hs eq_refl)). fields.
  eexists _, _. split; [done|]. by apply reallocated_grew.
Qed.

Lemma push_growth_partial h a l room x a' h' :
  stores h (GrowingArray.begin a) l room →
  GrowingArray.size a = Z.of_nat (length l) →
  GrowingArray.size a = GrowingArray.capacity a →
  GrowingArray.push a x h = Ok (a', h') →
  grew h a l x a' h'.
Proof.
  intros Hst Hsize Hfull Hrun. unfold GrowingArray.push in Hrun.
  rewrite (proj2 (Z.eqb_eq _ _) Hfull) in Hrun.
  apply bind_Ok in Hrun as ([a1 h1] & Hre & Hrun).
  apply bind_Ok in Hrun as (h2 & [Hs ->]%write_Ok & [= <- <-]).
  eapply reallocate_partial in Hre; [|done..|].
  - apply reallocated_grew; [done..|].
    destruct Hre as (-> & _ & _ & Hst1 & _). fields. rewrite Hsize in Hs.
    by eapply stores_slot_end.
  - destruct (slot_is_Some _ _ _ Hs) as (b & -> & _). done.
Qed.

Lemma push_spare_total h a l room x :
  stores h (GrowingArray.begin a) l room →
  GrowingArray.size a = Z.of_nat (length l) →
  GrowingArray.size a < GrowingArray.capacity a →
  GrowingArray.capacity a ≤ SIZE_MAX →
  GrowingArray.capacity a ≤ room →
  GrowingArray.push a x h = Ok (appended a x h).
Proof.
  intros Hst Hsize Hspare Hmax Hroom. unfold GrowingArray.push.
  rewrite (proj2 (Z.eqb_neq _ _)) by lia. fields.
  assert (is_Some (slot h (GrowingArray.begin a) (GrowingArray.size a))) as Hs.
  { rewrite Hsize. eapply stores_slot_end; [done|lia]. }
  rewrite (proj2 (write_Ok _ _ x h _) (conj Hs eq_refl)). fields.
  rewrite size_t_small by lia. done.
Qed.

Lemma push_spare_partial h a l room x a' h' :
  stores h (GrowingArray.begin a) l room →
  GrowingArray.size a = Z.of_nat (length l) →
  GrowingArray.size a < GrowingArray.capacity a →
  GrowingArray.capacity a ≤ SIZE_MAX →
  GrowingArray.push a x h = Ok (a', h') →
  (a', h') = appended a x h ∧ Z.of_nat (length l) < room.
Proof.
  intros Hst Hsize Hspare Hmax Hrun. unfold GrowingArray.push in Hrun.
  rewrite (proj2 (Z.eqb_neq _ _)) in Hrun by lia. fields.
  apply bind_Ok in Hrun as (h2 & [Hs ->]%write_Ok & [= <- <-]).
  rewrite size_t_small by lia. split; [done|].
  rewrite Hsize in Hs. by eapply stores_slot_end.
Qed.

Lemma stores_appended h a l room x :
  stores h (GrowingArray.begin a) l room →
  GrowingArray.size a = Z.of_nat (length l) →
  Z.of_nat (length l) < room →
  stores (snd (appended a x h)) (GrowingArray.begin a) (l ++ [x]) room.
Proof. intros Hst Hsize Hroom. simpl. rewrite Hsize. by apply stores_snoc. Qed.

End PushFacts.

(** ** Pushing into spare capacity, and runs of pushes *)

Section PushAllFacts.
Context `{Tg : Target} {T : Type} `{El : Element T}.
Implicit Types (h : heap T) (p q src dst : ptr) (i j room m : Z) (n k : nat)
  (s : option T) (v x item : T) (l items : list T) (a : GrowingArray.t).

Lemma holds_create h : holds h GrowingArray.create [].
Proof.
  unfold holds. simpl. pose proof SIZE_MAX_pos.
  repeat split; try lia. exists 0. split; [lia | apply stores_null].
Qed.

Lemma holds_invariant h a l : holds h a l → invariant h a.
Proof.
  intros (Hsize & Hle & Hmax & room & Hroom & Hst). unfold invariant.
  repeat split; try lia. eauto.
Qed.

(** C8.  A [push] into spare capacity.  For every [GrowingArray] that holds
    its elements [l] in a block with room for [capacity] elements and has
    [size < capacity], [push(item)] runs to completion; it leaves [begin] and
    [capacity] as they were and adds exactly 1 to [size]; afterwards position
    [size] reads [item]; no other slot of any block has changed, so the
    elements at [0 .. size) read as before; no block was allocated, no byte
    was taken from the heap, and no constructor or destructor ran. *)
Theorem push_within_capacity h a l item :
  holds h a l →
  GrowingArray.size a < GrowingArray.capacity a →
  ∃ h',
    GrowingArray.push a item h =
      Ok ({| GrowingArray.begin := GrowingArray.begin a;
             GrowingArray.size := GrowingArray.size a + 1;
             GrowingArray.capacity := GrowingArray.capacity a |}, h')
    ∧ read h' (GrowingArray.begin a) (GrowingArray.size a) = Ok item
    ∧ (∀ q j, ¬ (q = GrowingArray.begin a ∧ j = GrowingArray.size a) →
              slot h' q j = slot h q j)
    ∧ (∀ k v, l !! k = Some v → read h' (GrowingArray.begin a) (Z.of_nat k) = Ok v)
    ∧ length (blocks h') = length (blocks h)
    ∧ free_bytes h' = free_bytes h
    ∧ constructions h' = constructions h
    ∧ destructions h' = destructions h.
Proof.
  intros (Hsize & Hle & Hmax & room & Hroom & Hst) Hspare.
  exists (snd (appended a item h)).
  assert (is_Some (slot h (GrowingArray.begin a) (GrowingArray.size a))) as Hs.
  { rewrite Hsize. eapply stores_slot_end; [done|lia]. }
  pose proof (stores_appended h a l room item Hst Hsize ltac:(lia)) as Hst'.
  split; [by eapply push_spare_total|].
  split.
  { rewrite Hsize. eapply (stores_read _ _ (l ++ [item])); [done|].
    by rewrite lookup_app_r, Nat.sub_diag. }
  split.
  { intros q j Hne. unfold appended. cbn [snd].
    rewrite slot_set_slot by done. by case_decide. }
  split.
  { intros k v Hk. eapply stores_read; [done|]. by apply lookup_app_l_Some. }
  unfold appended. cbn [snd]. by rewrite length_blocks_set_slot.
Qed.

(** One [push] when nothing wraps around and memory suffices. *)
Lemma push_holds h a l item :
  holds h a l →
  (GrowingArray.size a = GrowingArray.capacity a →
     3 * Z.max (GrowingArray.capacity a) 1 + 1 ≤ SIZE_MAX
     ∧ (3 * Z.max (GrowingArray.capacity a) 1 + 1) / 2 * sizeof ≤ SIZE_MAX
     ∧ (3 * Z.max (GrowingArray.capacity a) 1 + 1) / 2 * sizeof ≤ free_bytes h) →
  ∃ a' h',
    GrowingArray.push a item h = Ok (a', h')
    ∧ holds h' a' (l ++ [item])
    ∧ GrowingArray.capacity a' =
        (if decide (GrowingArray.size a = GrowingArray.capacity a)
         then (3 * Z.max (GrowingArray.capacity a) 1 + 1) / 2
         else GrowingArray.capacity a)
    ∧ free_bytes h' =
        (if decide (GrowingArray.size a = GrowingArray.capacity a)
         then free_bytes h - GrowingArray.capacity a' * sizeof
         else free_bytes h)
    ∧ length (blocks h') =
        (if decide (GrowingArray.size a = GrowingArray.capacity a)
         then S (length (blocks h))
         else length (blocks h)).
Proof.
  intros Hholds Hres. pose proof Hholds as (Hsize & Hle & Hmax & room & Hroom & Hst).
  pose proof sizeof_pos as Hs.
  destruct (decide (GrowingArray.size a = GrowingArray.capacity a)) as [Hfull|Hspare].
  - destruct (Hres Hfull) as (Hw1 & Hw2 & Hfree).
    assert (0 ≤ GrowingArray.capacity a) as Hc by lia.
    pose proof (grown_exact _ Hc Hw1) as Hg.
    assert (new_room a = GrowingArray.grown (GrowingArray.capacity a)) as Hnr.
    { unfold new_room. rewrite Hg. apply slots_exact; [|done].
      apply Z.div_pos; lia. }
    assert (GrowingArray.capacity a < GrowingArray.grown (GrowingArray.capacity a)) as Hgt.
    { rewrite Hg. Z.to_euclidean_division_equations; lia. }
    destruct (push_growth_total h a l room item) as (a' & h' & Hrun & Hgrew);
      [done | done | done | | lia |].
    { rewrite Hg, size_t_small; [done|]. split; [|done].
      apply Z.mul_nonneg_nonneg; [apply Z.div_pos|]; lia. }
    exists a', h'. split; [done|].
    destruct Hgrew as (-> & _ & _ & Hst' & _ & Hfree' & _ & _ & Hlen). fields.
    split.
    { unfold holds. fields. rewrite length_app. simpl.
      pose proof (grown_range (GrowingArray.capacity a)).
      repeat split; try lia. exists (new_room a). split; [lia|done]. }
    rewrite Hfree', Hg, size_t_small; [done|]. split; [|done].
    apply Z.mul_nonneg_nonneg; [apply Z.div_pos|]; lia.
  - exists (fst (appended a item h)), (snd (appended a item h)).
    split; [eapply push_spare_total; eauto; lia|].
    split; [|unfold appended; cbn [snd]; by rewrite length_blocks_set_slot].
    unfold holds, appended. fields. rewrite length_app. simpl.
    repeat split; try lia. exists room. split; [done|].
    rewrite Hsize. apply stores_snoc; [done|lia].
Qed.

(** A run of pushes, as long as the heap has room for what it allocates. *)
Lemma push_all_holds items : ∀ a h l,
  holds h a l →
  2 * GrowingArray.capacity a ≤ 3 * Z.of_nat (length l) + 1 →
  5 * Z.of_nat (length l + length items) * sizeof
    ≤ free_bytes h + 3 * GrowingArray.capacity a * sizeof →
  5 * Z.of_nat (length l + length items) * sizeof ≤ SIZE_MAX →
  ∃ a' h', GrowingArray.push_all items a h = Ok (a', h') ∧ holds h' a' (l ++ items).
Proof.
  induction items as [|item items IH]; intros a h l Hholds Hcap Hfree Hmax.
  - simpl. rewrite app_nil_r. eauto.
  - simpl in Hfree, Hmax. pose proof sizeof_pos as Hs.
    pose proof Hholds as (Hsize & Hle & _).
    set (c := GrowingArray.capacity a) in *.
    set (K := Z.of_nat (length l + S (length items))) in *.
    assert (Z.of_nat (length l) < K) as HK by (unfold K; lia).
    assert (GrowingArray.size a = c →
            3 * Z.max c 1 + 1 ≤ 5 * K
            ∧ (3 * Z.max c 1 + 1) / 2 + 3 * c ≤ 5 * K
            ∧ 3 * c ≤ 2 * ((3 * Z.max c 1 + 1) / 2)) as Hlin.
    { intros Hfull. Z.to_euclidean_division_equations; lia. }
    destruct (push_holds h a l item Hholds) as (a' & h' & Hrun & Hholds' & Hc' & Hf' & _).
    { intros Hfull. destruct (Hlin Hfull) as (H1 & H2 & H3).
      assert (0 ≤ (3 * Z.max c 1 + 1) / 2) by (apply Z.div_pos; lia).
      fold c. repeat split; nia. }
    simpl. rewrite Hrun. fields. fold c in Hc', Hf'.
    assert (2 * GrowingArray.capacity a' ≤ 3 * (Z.of_nat (length l) + 1) + 1
            ∧ 5 * K * sizeof ≤ free_bytes h' + 3 * GrowingArray.capacity a' * sizeof)
      as [Hcap' Hfree'].
    { destruct (decide (GrowingArray.size a = c)) as [Hfull|Hspare].
      - destruct (Hlin Hfull) as (H1 & H2 & H3). rewrite Hf', Hc'.
        split; [Z.to_euclidean_division_equations; lia | nia].
      - rewrite Hf', Hc'. lia. }
    destruct (IH a' h' (l ++ [item])) as (a'' & h'' & Hrun' & Hholds'').
    + done.
    + rewrite length_app. simpl. lia.
    + rewrite length_app. simpl. rewrite <- Nat.add_assoc. simpl. by fold K.
    + rewrite length_app. simpl. rewrite <- Nat.add_assoc. simpl. by fold K.
    + exists a'', h''. split; [done|]. by rewrite <- app_assoc in Hholds''.
Qed.

(** C3.  Growth correctness.  For every sequence of [k] items, pushing them
    in order onto a default-constructed [GrowingArray] runs to completion,
    yields [length() == k], and indexed access at every [i < k] returns a
    reference to [begin + i] through which item [i] is read.  The run may
    cross any number of reallocations.  It needs memory: the heap must be
    able to hand out [5 * k * sizeof(T)] bytes (the blocks left behind by
    the reallocations included), and that number must fit [size_t]. *)
Theorem push_all_then_index items h :
  5 * Z.of_nat (length items) * sizeof ≤ free_bytes h →
  5 * Z.of_nat (length items) * sizeof ≤ SIZE_MAX →
  ∃ a' h',
    GrowingArray.push_all items GrowingArray.create h = Ok (a', h')
    ∧ GrowingArray.length a' = Z.of_nat (length items)
    ∧ ∀ k item, items !! k = Some item →
        GrowingArray.index a' (Z.of_nat k) = Ok (GrowingArray.begin a', Z.of_nat k)
        ∧ read h' (GrowingArray.begin a') (Z.of_nat k) = Ok item.
Proof.
  intros Hfree Hmax.
  destruct (push_all_holds items GrowingArray.create h []) as (a' & h' & Hrun & Hholds).
  - apply holds_create.
  - simpl. lia.
  - simpl. lia.
  - done.
  - exists a', h'. split; [done|]. simpl in Hholds.
    destruct Hholds as (Hsize & _ & _ & room & _ & Hst).
    split; [done|]. intros k item Hk. split.
    + unfold GrowingArray.index. apply lookup_lt_Some in Hk.
      destruct (Z.leb_spec (GrowingArray.size a') (Z.of_nat k)); [lia|done].
    + by eapply stores_read.
Qed.

End PushAllFacts.

(** ** The growth policy, failed allocations, bounds checks *)

Section PolicyFacts.
Context `{Tg : Target} {T : Type} `{El : Element T}.
Implicit Types (h : heap T) (p q src dst : ptr) (i j room m : Z) (n k : nat)
  (s : option T) (v x item : T) (l items : list T) (a : GrowingArray.t).

(** C1, as amended.  [push] allocates a block exactly when
    [size == capacity], and then sets the capacity to
    [floor((max(old_capacity, 1) * 3 + 1) / 2)]; otherwise the capacity stays.
    Iterating that rule from capacity 0 gives 0, 2, 3, 5, 8, 12.  The
    arithmetic is that of [size_t]; the hypotheses say that it does not wrap
    around and that the heap can provide the new block. *)
Theorem push_capacity_policy h a l item :
  holds h a l →
  3 * Z.max (GrowingArray.capacity a) 1 + 1 ≤ SIZE_MAX →
  (3 * Z.max (GrowingArray.capacity a) 1 + 1) / 2 * sizeof ≤ SIZE_MAX →
  (3 * Z.max (GrowingArray.capacity a) 1 + 1) / 2 * sizeof ≤ free_bytes h →
  (∃ a' h',
     GrowingArray.push a item h = Ok (a', h')
     ∧ (length (blocks h') = S (length (blocks h))
        ↔ GrowingArray.size a = GrowingArray.capacity a)
     ∧ (length (blocks h') = length (blocks h)
        ↔ GrowingArray.size a ≠ GrowingArray.capacity a)
     ∧ GrowingArray.capacity a' =
         (if decide (GrowingArray.size a = GrowingArray.capacity a)
          then (3 * Z.max (GrowingArray.capacity a) 1 + 1) / 2
          else GrowingArray.capacity a))
  ∧ (25 ≤ SIZE_MAX →
     (λ n, Nat.iter n GrowingArray.grown 0) <$> [0; 1; 2; 3; 4; 5]%nat
     = [0; 2; 3; 5; 8; 12]).
Proof.
  intros Hholds Hw1 Hw2 Hfree. split.
  - destruct (push_holds h a l item Hholds) as (a' & h' & Hrun & _ & Hcap & _ & Hlen);
      [done|].
    exists a', h'. split; [done|]. rewrite Hlen.
    destruct (decide (GrowingArray.size a = GrowingArray.capacity a));
      repeat split; intros; try done; lia.
  - intros Hmax.
    assert (GrowingArray.grown 0 = 2) as H0 by (by rewrite grown_exact by lia).
    assert (GrowingArray.grown 2 = 3) as H2 by (by rewrite grown_exact by lia).
    assert (GrowingArray.grown 3 = 5) as H3 by (by rewrite grown_exact by lia).
    assert (GrowingArray.grown 5 = 8) as H5 by (by rewrite grown_exact by lia).
    assert (GrowingArray.grown 8 = 12) as H8 by (by rewrite grown_exact by lia).
    cbn [fmap list_fmap Nat.iter nat_rect].
    by rewrite H0, H2, H3, H5, H8.
Qed.

Lemma for_upto_no_abort body n i0 h :
  (∀ i h, body i h ≠ Abort) → for_upto n i0 body h ≠ Abort.
Proof.
  intros Hbody. revert i0 h. induction n as [|n IH]; intros i0 h; simpl; [done|].
  destruct (body i0 h) as [h1| |] eqn:E; simpl; [apply IH | by apply Hbody in E | done].
Qed.

Lemma move_construct_no_abort dst src i h : move_construct dst src i h ≠ Abort.
Proof.
  unfold move_construct, construct, read, write.
  destruct (slot h src i) as [[v|]|]; simpl; try done.
  destruct (slot _ dst i); simpl; done.
Qed.

Lemma push_no_abort a item h : GrowingArray.push a item h ≠ Abort.
Proof.
  unfold GrowingArray.push, GrowingArray.reallocate.
  destruct (GrowingArray.size a =? GrowingArray.capacity a).
  - destruct (malloc _ h) as [new_begin h0].
    destruct (for_size_t _ _ h0) as [h1| |] eqn:E; fields.
    + unfold write. by destruct (slot h1 new_begin _).
    + by apply for_upto_no_abort in E; [|apply move_construct_no_abort].
    + done.
  - fields. unfold write. by destruct (slot h _ _).
Qed.

(** X16.  A [push] whose capacity arithmetic wraps around.  When the array
    is full and [capacity * 3 + 1] does not fit [size_t], the new capacity
    comes out smaller than the old one, the loop in [reallocate] runs past
    the end of the new block, and the behaviour of [push] is undefined. *)
Lemma push_wraps_undefined h a l item :
  holds h a l →
  GrowingArray.size a = GrowingArray.capacity a →
  1 ≤ GrowingArray.capacity a →
  SIZE_MAX < 3 * GrowingArray.capacity a + 1 →
  GrowingArray.push a item h = Undefined.
Proof.
  intros (Hsize & Hle & Hmax & room & Hroom & Hst) Hfull Hpos Hwrap.
  destruct (GrowingArray.push a item h) as [[a' h']| |] eqn:E.
  - eapply push_growth_partial in E as (_ & _ & Hfit & _); [|done..].
    pose proof (new_room_le a).
    pose proof (grown_wrapped (GrowingArray.capacity a)). lia.
  - by apply push_no_abort in E.
  - done.
Qed.

(** C5, as amended.  A [push] that finds [size == capacity] never calls
    [abort()].  When the heap cannot provide the new block, the [push] is
    undefined (it goes on to write through [nullptr]); it does not stop the
    program in an orderly way.  When the [push] runs to completion, the
    container's pointer is the block that was just allocated, and the old
    elements followed by [item] are read through it: the container does not
    refer to freed storage. *)
Theorem push_reallocation h a l item :
  holds h a l →
  GrowingArray.size a = GrowingArray.capacity a →
  GrowingArray.push a item h ≠ Abort
  ∧ (free_bytes h < size_t (GrowingArray.grown (GrowingArray.capacity a) * sizeof) →
     GrowingArray.push a item h = Undefined)
  ∧ (∀ a' h', GrowingArray.push a item h = Ok (a', h') →
       GrowingArray.begin a' = Some (length (blocks h))
       ∧ length (blocks h') = S (length (blocks h))
       ∧ ∀ k v, (l ++ [item]) !! k = Some v →
           read h' (GrowingArray.begin a') (Z.of_nat k) = Ok v).
Proof.
  intros (Hsize & Hle & Hmax & room & Hroom & Hst) Hfull.
  split; [apply push_no_abort|]. split.
  - intros Hfail. destruct (GrowingArray.push a item h) as [[a' h']| |] eqn:E.
    + eapply push_growth_partial in E as (_ & Hok & _); [lia | done..].
    + by apply push_no_abort in E.
    + done.
  - intros a' h' Hrun.
    eapply push_growth_partial in Hrun as (-> & _ & _ & Hst' & _ & _ & _ & _ & Hlen);
      [|done..].
    fields. split; [done|]. split; [done|].
    intros k v Hk. by eapply stores_read.
Qed.

(** C4.  Bounds checks.  For [StackArray], [HeapArray] and [GrowingArray]
    and every index, indexed access calls [abort()] if and only if
    [index >= length()]; if [index < length()] it returns, without aborting,
    the reference to the element at that position ([c_array[index]],
    respectively [begin + index]). *)
Theorem index_aborts_iff_out_of_bounds :
  (∀ (N : nat) (a : StackArray.t T N) (index : Z),
     (StackArray.index a index = Abort ↔ StackArray.length a ≤ index)
     ∧ (index < StackArray.length a → StackArray.index a index = Ok index)
     ∧ (0 ≤ index < StackArray.length a → is_Some (StackArray.deref a index)))
  ∧ (∀ (a : HeapArray.t) (index : Z),
       (HeapArray.index a index = Abort ↔ HeapArray.length a ≤ index)
       ∧ (index < HeapArray.length a →
          HeapArray.index a index = Ok (HeapArray.begin a, index)))
  ∧ (∀ (a : GrowingArray.t) (index : Z),
       (GrowingArray.index a index = Abort ↔ GrowingArray.length a ≤ index)
       ∧ (index < GrowingArray.length a →
          GrowingArray.index a index = Ok (GrowingArray.begin a, index))).
Proof.
  split; [|split].
  - intros N a index. unfold StackArray.index, StackArray.length, StackArray.deref.
    destruct (Z.leb_spec (Z.of_nat N) index); repeat split; try done; try lia.
    intros [H0 _]. rewrite (proj2 (Z.leb_le 0 index) H0).
    apply lookup_lt_is_Some_2. rewrite length_vec_to_list. lia.
  - intros a index. unfold HeapArray.index, HeapArray.length.
    destruct (Z.leb_spec (HeapArray.size a) index); repeat split; try done; lia.
  - intros a index. unfold GrowingArray.index, GrowingArray.length.
    destruct (Z.leb_spec (GrowingArray.size a) index); repeat split; try done; lia.
Qed.

End PolicyFacts.

(** ** [copy] *)

Section CopyFacts.
Context `{Tg : Target} {T : Type} `{El : Element T}.
Implicit Types (h : heap T) (p q src dst : ptr) (i j room m : Z) (n k : nat)
  (s : option T) (v x item : T) (l items : list T) (a : GrowingArray.t).

Lemma copy_construct_Ok dst src i h h' :
  copy_construct dst src i h = Ok h' ↔
    ∃ v, slot h src i = Some (Some v) ∧ is_Some (slot h dst i)
         ∧ h' = copied_one dst i v h.
Proof.
  unfold copy_construct. split.
  - intros (v & Hr%read_Ok & [Hd ->]%construct_Ok)%bind_Ok. eauto.
  - intros (v & Hsrc & Hdst & ->).
    rewrite (proj2 (read_Ok _ _ _ _) Hsrc). cbn [bind].
    by apply construct_Ok.
Qed.

Lemma copied_upto_0 h0 dst l m :
  0 ≤ m → stores h0 dst [] m → copied_upto h0 dst l m 0 h0.
Proof.
  intros Hm Hdst. unfold copied_upto. rewrite take_0, Nat.add_0_r.
  repeat split; done || lia.
Qed.

Lemma copied_upto_source h0 dst src l room m k h v :
  src ≠ dst → stores h0 src l room → copied_upto h0 dst l m k h → l !! k = Some v →
  slot h src (Z.of_nat k) = Some (Some v).
Proof.
  intros Hne Hsrc (_ & _ & Hframe & _) Hk. rewrite Hframe, Hsrc by done.
  apply lookup_lt_Some in Hk as Hlt. unfold layout.
  case_decide; [|lia]. by rewrite Nat2Z.id, Hk.
Qed.

Lemma copied_upto_target h0 dst l m k h :
  copied_upto h0 dst l m k h → (k < length l)%nat →
  is_Some (slot h dst (Z.of_nat k)) ↔ Z.of_nat k < m.
Proof.
  intros (_ & Hdst & _) Hk. pose proof (stores_slot_end _ _ _ _ Hdst) as Hend.
  by rewrite length_take, Nat.min_l in Hend by lia.
Qed.

Lemma copied_upto_S h0 dst l m k h v :
  copied_upto h0 dst l m k h → l !! k = Some v → Z.of_nat k < m →
  copied_upto h0 dst l m (S k) (copied_one dst (Z.of_nat k) v h).
Proof.
  intros Hk Hv Hroom. apply lookup_lt_Some in Hv as Hlt.
  pose proof (proj2 (copied_upto_target _ _ _ _ _ _ Hk Hlt) Hroom) as Hd.
  destruct Hk as (Hkm & Hdst & Hframe & Hfree & Hcon & Hdes & Hlen).
  assert (length (take k l) = k) as Hlk by (rewrite length_take; lia).
  unfold copied_upto, copied_one. split; [lia|]. split; [|split].
  - rewrite (take_S_r _ _ _ Hv). intros j. rewrite slot_count_construction.
    rewrite <- Hlk at 1. apply stores_snoc; [done|lia].
  - intros q j Hq. rewrite slot_count_construction, slot_set_slot by done.
    case_decide; [naive_solver|]. by apply Hframe.
  - cbn [free_bytes constructions destructions count_construction blocks
           set_slot set_blocks].
    split; [done|]. split; [lia|]. split; [done|].
    change (length (blocks (set_slot h dst (Z.of_nat k) (Some v))) = length (blocks h0)).
    by rewrite length_blocks_set_slot.
Qed.

Lemma copy_loop_total h0 dst src l room m :
  src ≠ dst → stores h0 src l room → stores h0 dst [] m →
  Z.of_nat (length l) ≤ m →
  ∃ h, for_size_t (Z.of_nat (length l)) (copy_construct dst src) h0 = Ok h
       ∧ copied_upto h0 dst l m (length l) h.
Proof.
  intros Hne Hsrc Hdst Hm. unfold for_size_t. rewrite Nat2Z.id.
  apply for_upto_total.
  - apply copied_upto_0; [lia|done].
  - intros k hk Hk HP.
    destruct (lookup_lt_is_Some_2 l k Hk) as [v Hv].
    exists (copied_one dst (Z.of_nat k) v hk). split.
    + apply copy_construct_Ok. exists v. split; [|split; [|done]].
      * eapply copied_upto_source; eauto.
      * eapply copied_upto_target; eauto. lia.
    + eapply copied_upto_S; eauto. lia.
Qed.

Lemma copy_loop_partial h0 dst src l room m h :
  src ≠ dst → stores h0 src l room → stores h0 dst [] m → 0 ≤ m →
  for_size_t (Z.of_nat (length l)) (copy_construct dst src) h0 = Ok h →
  copied_upto h0 dst l m (length l) h.
Proof.
  intros Hne Hsrc Hdst Hm Hrun. unfold for_size_t in Hrun. rewrite Nat2Z.id in Hrun.
  eapply for_upto_partial; [exact Hrun | by apply copied_upto_0 |].
  intros k hk hk' Hk HP Hbody.
  change (0 + Z.of_nat k) with (Z.of_nat k) in Hbody.
  apply copy_construct_Ok in Hbody as (v & Hv & Hd & ->).
  destruct (lookup_lt_is_Some_2 l k Hk) as [w Hw].
  pose proof (copied_upto_source _ _ _ _ _ _ _ _ _ Hne Hsrc HP Hw) as Hs.
  assert (w = v) as -> by congruence.
  eapply copied_upto_S; eauto. by eapply copied_upto_target.
Qed.

Lemma copied_upto_copied h a l :
  GrowingArray.size a = Z.of_nat (length l) →
  GrowingArray.size a ≤ free_bytes h →
  ∀ h',
  copied_upto (allocated (GrowingArray.size a) h) (Some (length (blocks h)))
              l (GrowingArray.size a / sizeof) (length l) h' →
  copied h a l
    {| GrowingArray.begin := Some (length (blocks h));
       GrowingArray.size := GrowingArray.size a;
       GrowingArray.capacity := GrowingArray.size a |} h'.
Proof.
  intros Hsize Hfree h' (Hm & Hdst & Hframe & Hfree' & Hcon & Hdes & Hlen).
  unfold copied. fields. rewrite firstn_all in Hdst.
  split; [done|]. split; [done|]. split; [done|]. split; [done|]. split.
  { intros q j Hq. rewrite Hframe, slot_allocated by done. by case_decide. }
  rewrite Hfree', Hcon, Hdes, Hlen. simpl. rewrite length_app. simpl.
  repeat split; lia.
Qed.

Lemma copy_total h a l room :
  stores h (GrowingArray.begin a) l room →
  GrowingArray.size a = Z.of_nat (length l) →
  GrowingArray.size a ≤ free_bytes h →
  Z.of_nat (length l) ≤ GrowingArray.size a / sizeof →
  ∃ a' h', GrowingArray.copy a h = Ok (a', h') ∧ copied h a l a' h'.
Proof.
  intros Hst Hsize Hfree Hroom. unfold GrowingArray.copy.
  rewrite malloc_enough by done.
  destruct (decide (l = [])) as [->|Hl].
  - assert (for_size_t (GrowingArray.size a)
              (copy_construct (Some (length (blocks h))) (GrowingArray.begin a))
              (allocated (GrowingArray.size a) h)
            = Ok (allocated (GrowingArray.size a) h)) as Hloop by (by rewrite Hsize).
    rewrite Hloop. fields. eexists _, _. split; [done|].
    apply copied_upto_copied; [done..|].
    apply copied_upto_0; [|apply stores_allocated_new].
    pose proof sizeof_pos. apply Z.div_pos; lia.
  - destruct (stores_allocated_old (GrowingArray.size a) _ _ _ _ Hst Hl) as [Hsrc Hne].
    destruct (copy_loop_total (allocated (GrowingArray.size a) h)
                (Some (length (blocks h))) (GrowingArray.begin a) l room
                (GrowingArray.size a / sizeof))
      as (h1 & Hloop & Hcopied); [done | done | apply stores_allocated_new | done |].
    rewrite <- Hsize in Hloop. rewrite Hloop. fields.
    eexists _, _. split; [done|]. by apply copied_upto_copied.
Qed.

Lemma copy_partial h a l room a' h' :
  stores h (GrowingArray.begin a) l room →
  GrowingArray.size a = Z.of_nat (length l) →
  GrowingArray.copy a h = Ok (a', h') →
  copied h a l a' h'
  ∨ (l = [] ∧ free_bytes h < 0 ∧ h' = h
     ∧ a' = {| GrowingArray.begin := None; GrowingArray.size := 0;
               GrowingArray.capacity := 0 |}).
Proof.
  intros Hst Hsize Hrun. unfold GrowingArray.copy in Hrun.
  pose proof sizeof_pos as Hs.
  destruct (Z_le_gt_dec (GrowingArray.size a) (free_bytes h)) as [Hfree|Hfree].
  - left. rewrite malloc_enough in Hrun by done.
    apply bind_Ok in Hrun as (h1 & Hloop & [= <- <-]).
    apply copied_upto_copied; [done..|].
    remember (allocated (GrowingArray.size a) h) as h0 eqn:Hh0.
    remember (GrowingArray.size a / sizeof) as m eqn:Hm.
    rewrite Hsize in Hloop. subst h0.
    assert (0 ≤ m) by (subst m; apply Z.div_pos; lia).
    assert (stores (allocated (GrowingArray.size a) h) (Some (length (blocks h))) [] m)
      by (subst m; apply stores_allocated_new).
    destruct (decide (l = [])) as [->|Hl].
    + simpl in Hloop. injection Hloop as <-. by apply copied_upto_0.
    + destruct (stores_allocated_old (GrowingArray.size a) _ _ _ _ Hst Hl) as [Hsrc Hne].
      eapply copy_loop_partial; eauto.
  - rewrite malloc_exhausted in Hrun by lia.
    apply bind_Ok in Hrun as (h1 & Hloop & [= <- <-]).
    destruct l as [|v l].
    + right. simpl in Hsize. unfold for_size_t in Hloop.
      rewrite Hsize in Hloop. simpl in Hloop. injection Hloop as <-.
      rewrite Hsize in *. repeat split; try done. lia.
    + exfalso. rewrite Hsize in Hloop. unfold for_size_t in Hloop.
      rewrite Nat2Z.id in Hloop. simpl in Hloop.
      apply bind_Ok in Hloop as (h2 & Hbody & _).
      apply copy_construct_Ok in Hbody as (? & _ & [? [=]] & _).
Qed.

End CopyFacts.

(** ** The invariant *)

Section InvariantFacts.
Context `{Tg : Target} {T : Type} `{El : Element T}.
Implicit Types (h : heap T) (p q src dst : ptr) (i j room m : Z) (n k : nat)
  (s : option T) (v x item : T) (l items : list T) (a : GrowingArray.t).

Lemma layout_insert l room k v j :
  (k < length l)%nat →
  layout (<[k := v]> l) room j =
    if decide (j = Z.of_nat k) then Some (Some v) else layout l room j.
Proof.
  intros Hk. unfold layout. rewrite length_insert.
  destruct (decide (j = Z.of_nat k)) as [->|Hne].
  - case_decide; [|lia]. by rewrite Nat2Z.id, list_lookup_insert_eq.
  - case_decide; [|done]. rewrite list_lookup_insert_ne; [done|lia].
Qed.

Lemma stores_overwrite h p l room k v :
  stores h p l room → (k < length l)%nat →
  stores (set_slot h p (Z.of_nat k) (Some v)) p (<[k := v]> l) room.
Proof.
  intros Hst Hk j. rewrite slot_set_slot, layout_insert by
    (try rewrite Hst; unfold layout; repeat case_decide; eauto; lia).
  destruct (decide (j = Z.of_nat k)); case_decide; naive_solver.
Qed.

Lemma stores_valued h p l room j :
  stores h p l room →
  (∃ v, slot h p j = Some (Some v)) ↔ 0 ≤ j < Z.of_nat (length l).
Proof.
  intros Hst. rewrite Hst. unfold layout. split.
  - intros [v Hv]. repeat case_decide; try done.
  - intros Hj. case_decide; [|lia].
    destruct (lookup_lt_is_Some_2 l (Z.to_nat j)) as [v ->]; [lia|]. eauto.
Qed.

Lemma free_Ok p h h' :
  free p h = Ok h' →
  (∀ j, slot h' p j = None)
  ∧ constructions h' = constructions h ∧ destructions h' = destructions h.
Proof.
  unfold free. destruct p as [b|]; [|by intros [= <-]].
  destruct (blocks h !! b) as [blk|] eqn:Hb; [|done].
  destruct (blk_live blk); [|done]. intros [= <-]. split; [|done].
  intros j. unfold slot. simpl.
  rewrite list_lookup_insert_eq by (by eapply lookup_lt_Some). done.
Qed.

Lemma destroy_at_Ok p i h h' :
  destroy_at p i h = Ok h' →
  constructions h' = constructions h ∧ destructions h' = S (destructions h).
Proof.
  unfold destroy_at. intros (v & _ & [= <-])%bind_Ok. done.
Qed.

Lemma destroy_Ok a h h' :
  GrowingArray.destroy a h = Ok h' →
  GrowingArray.size a ≤ INT_MAX
  ∧ (∀ j, slot h' (GrowingArray.begin a) j = None)
  ∧ constructions h' = constructions h
  ∧ destructions h' = (destructions h + Z.to_nat (GrowingArray.size a))%nat.
Proof.
  unfold GrowingArray.destroy, for_int.
  intros (h1 & Hloop & (Hslot & Hcon & Hdes)%free_Ok)%bind_Ok.
  destruct (Z.ltb_spec INT_MAX (GrowingArray.size a)); [done|].
  split; [done|]. split; [done|]. rewrite Hcon, Hdes.
  eapply (for_upto_partial
            (λ k hk, constructions hk = constructions h
                     ∧ destructions hk = (destructions h + k)%nat));
    [exact Hloop | split; [done|lia] |].
  intros k hk hk' _ [Hc Hd] [Hc' Hd']%destroy_at_Ok. split; lia.
Qed.

(** C9.  The invariant of [GrowingArray]: [0 <= size <= capacity], and
    exactly the slots [0 .. size) of its block hold values.  It holds for a
    default-constructed array, whose [size] and [capacity] are 0 and which
    has no block.  Every operation that runs to completion preserves it:
    [push]; move construction, for the new array and for the moved-from one;
    [copy], for the original and for the copy; an assignment through a
    reference obtained by indexed access.  The destructor runs exactly [size]
    element destructors and leaves no slot behind. *)
Theorem invariant_preserved h a :
  (GrowingArray.size GrowingArray.create = 0
   ∧ GrowingArray.capacity GrowingArray.create = 0
   ∧ GrowingArray.begin GrowingArray.create = None
   ∧ invariant h GrowingArray.create)
  ∧ (invariant h a →
     (∀ item a' h', GrowingArray.push a item h = Ok (a', h') → invariant h' a')
     ∧ invariant h (fst (GrowingArray.move a))
     ∧ invariant h (snd (GrowingArray.move a))
     ∧ (∀ a' h', GrowingArray.copy a h = Ok (a', h') →
          invariant h' a ∧ invariant h' a')
     ∧ (∀ index p j v h',
          GrowingArray.index a index = Ok (p, j) → write p j v h = Ok h' →
          invariant h' a)
     ∧ (∀ h', GrowingArray.destroy a h = Ok h' →
          destructions h' = (destructions h + Z.to_nat (GrowingArray.size a))%nat
          ∧ ∀ j, slot h' (GrowingArray.begin a) j = None)).
Proof.
  split.
  { split; [done|]. split; [done|]. split; [done|].
    apply holds_invariant with [], holds_create. }
  intros (Hsize & Hmax & l & room & Hlen & Hst).
  split; [|split; [|split; [|split; [|split]]]].
  - intros item a' h' Hrun.
    destruct (decide (GrowingArray.size a = GrowingArray.capacity a)) as [Hfull|Hspare].
    + eapply push_growth_partial in Hrun as (-> & _ & Hroom & Hst' & _); [|done..].
      pose proof (new_room_le a). pose proof (grown_range (GrowingArray.capacity a)).
      unfold invariant. fields. repeat split; try lia.
      exists (l ++ [item]), (new_room a). rewrite length_app. simpl. split; [lia|done].
    + eapply push_spare_partial in Hrun as [[= -> ->] Hroom]; [|done || lia..].
      unfold invariant. fields. repeat split; try lia.
      exists (l ++ [item]), room. rewrite length_app. simpl. split; [lia|].
      rewrite Hlen. by apply stores_snoc.
  - unfold invariant. simpl. repeat split; try lia. eauto.
  - unfold invariant. simpl. repeat split; try lia.
    exists [], 0. split; [done | apply stores_null].
  - intros a' h' Hrun.
    destruct (copy_partial h a l room a' h' Hst Hlen Hrun)
      as [Hcopied|(-> & _ & -> & ->)].
    + destruct Hcopied as (-> & _ & Hroom & Hst' & Hframe & _ & _ & _ & Hblocks).
      split.
      * unfold invariant. repeat split; try lia.
        destruct (decide (GrowingArray.begin a = Some (length (blocks h)))) as [Hb|Hb].
        -- exists l, (GrowingArray.size a / sizeof). split; [done|].
           by rewrite Hb.
        -- exists l, room. split; [done|]. intros j. rewrite Hframe by done. apply Hst.
      * unfold invariant. fields. repeat split; try lia. eauto.
    + split.
      * unfold invariant. repeat split; try lia. eauto.
      * unfold invariant. simpl. pose proof SIZE_MAX_pos. repeat split; try lia.
        exists [], 0. split; [done | apply stores_null].
  - intros index p j v h' Hidx [Hs ->]%write_Ok.
    unfold GrowingArray.index in Hidx.
    destruct (Z.leb_spec (GrowingArray.size a) index); [done|].
    injection Hidx as <- <-.
    destruct (slot_is_Some _ _ _ Hs) as (_ & _ & _ & Hindex).
    unfold invariant. repeat split; try lia.
    exists (<[Z.to_nat index := v]> l), room. rewrite length_insert. split; [done|].
    rewrite <- (Z2Nat.id index) at 1 by done. apply stores_overwrite; [done|lia].
  - intros h' (_ & Hslot & _ & Hdes)%destroy_Ok. done.
Qed.

End InvariantFacts.

(** ** Sizes do not depend on values *)

Section ShapeFacts.
Context `{Tg : Target} {T : Type} `{El : Element T}.
Implicit Types (h : heap T) (p q src dst : ptr) (i j room m : Z) (n k : nat)
  (s : option T) (v x item : T) (l items : list T) (a : GrowingArray.t).

Let U : Element unit := @unit_element T El.

Lemma slot_shape h p i : slot (shape h) p i = shape_slot <$> slot h p i.
Proof.
  unfold slot, shape. simpl. destruct p as [b|]; [|done].
  rewrite list_lookup_fmap. destruct (blocks h !! b) as [blk|]; [|done]. simpl.
  destruct (blk_live blk && (0 <=? i)); [|done].
  by rewrite list_lookup_fmap.
Qed.

Lemma shape_set_slot h p i s :
  shape (set_slot h p i s) = set_slot (shape h) p i (shape_slot s).
Proof.
  unfold shape, set_slot, set_blocks. simpl. f_equal.
  destruct p as [b|]; [|done].
  apply list_fmap_alter, Forall_forall. intros blk _.
  unfold shape_block, set_block_slot. simpl.
  by rewrite list_fmap_insert.
Qed.

Lemma shape_allocated (n : Z) h :
  shape (allocated n h) = allocated (El := U) n (shape h).
Proof.
  unfold shape, allocated. simpl. f_equal.
  rewrite fmap_app. f_equal. simpl. unfold shape_block, raw_block. simpl.
  by rewrite fmap_replicate.
Qed.

Lemma malloc_shape (n : Z) h :
  malloc (El := U) n (shape h) = (fst (malloc n h), shape (snd (malloc n h))).
Proof.
  unfold malloc. simpl. destruct (n <=? free_bytes h); simpl; [|done].
  by rewrite shape_allocated, length_fmap.
Qed.

Lemma read_shape h p i :
  read (shape h) p i = outcome_map (λ _, ()) (read h p i).
Proof.
  unfold read. rewrite slot_shape. by destruct (slot h p i) as [[v|]|].
Qed.

Lemma write_shape p i v h :
  write p i () (shape h) = outcome_map shape (write p i v h).
Proof.
  unfold write. rewrite slot_shape. destruct (slot h p i) as [s|]; simpl; [|done].
  by rewrite shape_set_slot.
Qed.

Lemma move_construct_shape dst src i h :
  move_construct (El := U) dst src i (shape h)
  = outcome_map shape (move_construct dst src i h).
Proof.
  unfold move_construct, construct. rewrite read_shape.
  destruct (read h src i) as [v| |]; simpl; [|done..].
  rewrite (write_shape src i (T_moved_from v)).
  destruct (write src i (T_moved_from v) h) as [h1| |]; simpl; [|done..].
  rewrite (write_shape dst i v).
  by destruct (write dst i v h1) as [h2| |].
Qed.

Lemma for_upto_shape body (body' : Z → heap unit → outcome (heap unit)) n :
  (∀ i h, body' i (shape h) = outcome_map shape (body i h)) →
  ∀ i h, for_upto n i body' (shape h) = outcome_map shape (for_upto n i body h).
Proof.
  intros Hbody. induction n as [|n IH]; intros i h; simpl; [done|].
  rewrite Hbody. destruct (body i h) as [h1| |]; simpl; [apply IH | done..].
Qed.

Lemma reallocate_shape a h :
  GrowingArray.reallocate (El := U) a (shape h)
  = shape_result (GrowingArray.reallocate a h).
Proof.
  unfold GrowingArray.reallocate, shape_result.
  change (@sizeof unit U) with (@sizeof T El).
  rewrite malloc_shape. destruct (malloc _ h) as [new_begin h0]. simpl.
  unfold for_size_t.
  rewrite (for_upto_shape (move_construct new_begin (GrowingArray.begin a)))
    by apply move_construct_shape.
  by destruct (for_upto _ _ _ h0) as [h1| |].
Qed.

Lemma push_shape a item h :
  GrowingArray.push (El := U) a () (shape h) = shape_result (GrowingArray.push a item h).
Proof.
  unfold GrowingArray.push, shape_result.
  destruct (GrowingArray.size a =? GrowingArray.capacity a).
  - rewrite reallocate_shape.
    destruct (GrowingArray.reallocate a h) as [[a1 h1]| |]; simpl; [|done..].
    rewrite (write_shape _ _ item).
    by destruct (write _ _ item h1) as [h2| |].
  - simpl. rewrite (write_shape _ _ item).
    by destruct (write _ _ item h) as [h2| |].
Qed.

Lemma push_all_shape items a h :
  GrowingArray.push_all (El := U) (replicate (length items) ()) a (shape h)
  = shape_result (GrowingArray.push_all items a h).
Proof.
  revert a h. induction items as [|item items IH]; intros a h; simpl; [done|].
  rewrite (push_shape a item).
  destruct (GrowingArray.push a item h) as [[a1 h1]| |]; simpl; [apply IH | done..].
Qed.

Lemma size_and_capacity_shape (r : outcome (GrowingArray.t * heap T)) :
  size_and_capacity (shape_result r) = size_and_capacity r.
Proof. by destruct r as [[a h]| |]. Qed.

(** C10.  Sizes do not depend on values.  Two runs that push equally many
    items onto a default-constructed [GrowingArray], starting from the same
    heap, agree after every step on whether the run is still defined and,
    if so, on [size] and [capacity], whatever the values pushed. *)
Theorem sizes_independent_of_values (items1 items2 : list T) h n :
  length items1 = length items2 →
  size_and_capacity (GrowingArray.push_all (take n items1) GrowingArray.create h)
  = size_and_capacity (GrowingArray.push_all (take n items2) GrowingArray.create h).
Proof.
  intros Hlen.
  rewrite <- (size_and_capacity_shape (GrowingArray.push_all (take n items1) _ h)).
  rewrite <- (size_and_capacity_shape (GrowingArray.push_all (take n items2) _ h)).
  rewrite <- !push_all_shape, !length_take. by rewrite Hlen.
Qed.

End ShapeFacts.

(** ** Move construction and the size of the copy *)

Section MoveFacts.
Context `{Tg : Target} {T : Type} `{El : Element T}.
Implicit Types (h : heap T) (l : list T) (a : GrowingArray.t).

Lemma for_int_zero body h : for_int 0 body h = Ok h.
Proof. unfold for_int. pose proof INT_MAX_pos. by destruct (Z.ltb_spec INT_MAX 0); [lia|]. Qed.

(** What move construction of a [GrowingArray] does achieve. *)
Lemma move_transfers h a l :
  holds h a l →
  holds h (fst (GrowingArray.move a)) l
  ∧ GrowingArray.length (snd (GrowingArray.move a)) = 0
  ∧ GrowingArray.destroy (snd (GrowingArray.move a)) h = Ok h
  ∧ (snd (GrowingArray.move a) = GrowingArray.create ↔ GrowingArray.capacity a = 0).
Proof.
  intros Hholds. split; [by destruct a|]. split; [done|]. split.
  - unfold GrowingArray.destroy. simpl. by rewrite for_int_zero.
  - unfold GrowingArray.move, GrowingArray.create. simpl. split; [by intros [=]|by intros ->].
Qed.

(** Move construction of a [HeapArray]. *)
Lemma heap_array_move_transfers h (a : HeapArray.t) l :
  heap_array_holds h a l →
  heap_array_holds h (fst (HeapArray.move a)) l
  ∧ HeapArray.length (snd (HeapArray.move a)) = 0
  ∧ HeapArray.begin (snd (HeapArray.move a)) = None
  ∧ HeapArray.destroy (snd (HeapArray.move a)) h = Ok h.
Proof.
  intros Hholds. split; [by destruct a|]. split; [done|]. split; [done|].
  unfold HeapArray.destroy. simpl. by rewrite for_int_zero.
Qed.

Lemma copy_construct_no_abort dst src i h : copy_construct dst src i h ≠ Abort.
Proof.
  unfold copy_construct, construct, read, write.
  destruct (slot h src i) as [[v|]|]; simpl; try done.
  destruct (slot _ dst i); simpl; done.
Qed.

(** X14.  [GrowingArray::copy] with elements of two or more bytes.  [copy]
    asks for [size] bytes, not [size * sizeof(T)]: the new block is too small
    for any non-empty array, and the behaviour of [copy] is undefined. *)
Lemma copy_overruns h a l :
  holds h a l → l ≠ [] → 2 ≤ sizeof → GrowingArray.copy a h = Undefined.
Proof.
  intros (Hsize & _ & _ & room & _ & Hst) Hl Hs.
  destruct (GrowingArray.copy a h) as [[a' h']| |] eqn:E; [| |done].
  - destruct (copy_partial h a l room a' h' Hst Hsize E) as [Hc|(-> & _)]; [|done].
    destruct Hc as (_ & _ & Hroom & _). exfalso.
    assert (0 < GrowingArray.size a) by (destruct l; simpl in *; [done|lia]).
    assert (GrowingArray.size a / sizeof < GrowingArray.size a)
      by (apply Z.div_lt; lia).
    lia.
  - unfold GrowingArray.copy in E. destruct (malloc _ h) as [p h1].
    destruct (for_size_t _ _ h1) as [h2| |] eqn:E'; [done| |done].
    by apply for_upto_no_abort in E'; [|apply copy_construct_no_abort].
Qed.

(** X15.  [GrowingArray::copy] with one-byte elements.  When the heap has
    [size] bytes left, [copy()] runs to completion; the original and the copy
    both hold the elements; the copy has [capacity == size]; and the two are
    independent: assigning to an element of one changes no element of the
    other. *)
Lemma copy_independent h a l :
  holds h a l → sizeof = 1 → GrowingArray.size a ≤ free_bytes h →
  ∃ a' h',
    GrowingArray.copy a h = Ok (a', h')
    ∧ holds h' a l ∧ holds h' a' l
    ∧ GrowingArray.capacity a' = GrowingArray.size a'
    ∧ ∀ k v, (k < length l)%nat →
        (∀ j, slot (set_slot h' (GrowingArray.begin a) (Z.of_nat k) (Some v))
                   (GrowingArray.begin a') j
              = slot h' (GrowingArray.begin a') j)
        ∧ (∀ j, slot (set_slot h' (GrowingArray.begin a') (Z.of_nat k) (Some v))
                     (GrowingArray.begin a) j
                = slot h' (GrowingArray.begin a) j).
Proof.
  intros (Hsize & Hle & Hmax & room & Hroom & Hst) Hs Hfree.
  destruct (copy_total h a l room) as (a' & h' & Hrun & Hc); [done..| |].
  { rewrite Hs, Z.div_1_r. lia. }
  exists a', h'. split; [done|].
  destruct Hc as (-> & _ & _ & Hst' & Hframe & _).
  cbn [GrowingArray.begin GrowingArray.size GrowingArray.capacity] in *.
  rewrite Hs, Z.div_1_r in Hst'.
  assert (l ≠ [] → GrowingArray.begin a ≠ Some (length (blocks h))) as Hne.
  { intros Hl. destruct (stores_room _ _ _ _ Hst) as (b & Hb & Hlt); [by left|].
    rewrite Hb. intros [=]. lia. }
  assert (stores h' (GrowingArray.begin a) l room) as Hsta.
  { destruct (decide (l = [])) as [->|Hl].
    - intros j. destruct (decide (GrowingArray.begin a = Some (length (blocks h)))) as [Hb|Hb].
      + assert (room ≤ 0) as Hroom0.
        { destruct (Z_le_gt_dec room 0) as [|Hpos]; [done|].
          destruct (stores_room _ _ _ _ Hst) as (b & Hb' & Hlt); [right; lia|].
          rewrite Hb in Hb'. injection Hb' as <-. lia. }
        rewrite Hb, Hst'. unfold layout. simpl in *.
        repeat case_decide; try done; lia.
      + rewrite Hframe by done. apply Hst.
    - intros j. rewrite Hframe by auto. apply Hst. }
  split; [|split; [|split; [done|]]].
  - unfold holds. repeat split; try done. eauto.
  - unfold holds. cbn [GrowingArray.begin GrowingArray.size GrowingArray.capacity].
    repeat split; try done || lia. exists (GrowingArray.size a). split; [lia|done].
  - intros k v Hk. assert (l ≠ []) as Hl by (destruct l; simpl in *; [lia|done]).
    specialize (Hne Hl). split; intros j.
    + rewrite slot_set_slot.
      * case_decide; [naive_solver|done].
      * rewrite Hsta. unfold layout. case_decide; [eauto|lia].
    + rewrite slot_set_slot.
      * case_decide; [naive_solver|done].
      * rewrite Hst'. unfold layout. case_decide; [eauto|lia].
Qed.

End MoveFacts.

(** ** From a block to [stores] *)

Section BlockFacts.
Context `{Tg : Target} {T : Type} `{El : Element T}.

Lemma stores_block (h : heap T) b blk (l : list T) (n : nat) :
  blocks h !! b = Some blk → blk_live blk = true →
  blk_slots blk = (Some <$> l) ++ replicate n None →
  stores h (Some b) l (Z.of_nat (length l + n)).
Proof.
  intros Hb Hlive Hslots j. unfold slot, layout. rewrite Hb, Hlive, Hslots. simpl.
  destruct (Z.leb_spec 0 j).
  - destruct (decide (0 ≤ j < Z.of_nat (length l))).
    + rewrite lookup_app_l by (rewrite length_fmap; lia).
      rewrite list_lookup_fmap.
      destruct (lookup_lt_is_Some_2 l (Z.to_nat j)) as [v ->]; [lia|done].
    + destruct (decide (0 ≤ j < Z.of_nat (length l + n))).
      * rewrite lookup_app_r by (rewrite length_fmap; lia).
        apply lookup_replicate_2. rewrite length_fmap. lia.
      * apply lookup_ge_None_2. rewrite length_app, length_fmap, length_replicate. lia.
  - rewrite !decide_False by lia. done.
Qed.
End BlockFacts.

(** ** Blocks: live or freed *)

Section StatusFacts.
Context `{Tg : Target} {T : Type} `{El : Element T}.
Implicit Types (h : heap T) (p q : ptr) (i j : Z) (s : option T) (v : T) (l : list T).

Lemma status_set_slot h p i s q : status (set_slot h p i s) q = status h q.
Proof.
  unfold status, set_slot. simpl. destruct q as [b'|]; [|done].
  destruct p as [b|]; [|done].
  destruct (decide (b = b')) as [->|Hne].
  - rewrite list_lookup_alter_eq. by destruct (blocks h !! b').
  - by rewrite list_lookup_alter_ne.
Qed.

Lemma status_allocated (n : Z) h q :
  status (allocated n h) q =
    if decide (q = Some (length (blocks h))) then Some (true, n) else status h q.
Proof.
  destruct (decide (q = Some (length (blocks h)))) as [->|Hne].
  - unfold status. simpl. by rewrite lookup_app_r, Nat.sub_diag.
  - unfold status. simpl. destruct q as [b|]; [|done].
    destruct (decide (b < length (blocks h))%nat).
    + by rewrite lookup_app_l.
    + rewrite !lookup_ge_None_2; [done | |].
      * assert (b ≠ length (blocks h)) by congruence. lia.
      * rewrite length_app. simpl. assert (b ≠ length (blocks h)) by congruence. lia.
Qed.

Lemma status_is_Some h p : is_Some (status h p) ↔ ∃ b, p = Some b ∧ (b < length (blocks h))%nat.
Proof.
  unfold status. destruct p as [b|].
  - rewrite fmap_is_Some, lookup_lt_is_Some. naive_solver.
  - split; [by intros [? [=]] | by intros (? & [=] & _)].
Qed.

Lemma slot_live h p j : is_Some (slot h p j) → ∃ n, status h p = Some (true, n).
Proof.
  unfold slot, status. destruct p as [b|]; [|by intros [? [=]]].
  destruct (blocks h !! b) as [blk|]; [|by intros [? [=]]]. simpl.
  destruct (blk_live blk); [eauto | by intros [? [=]]].
Qed.

Lemma slot_dead h p n j : status h p = Some (false, n) → slot h p j = None.
Proof.
  unfold slot, status. destruct p as [b|]; [|done].
  destruct (blocks h !! b) as [blk|]; [|done]. simpl.
  intros [= Hl _]. by rewrite Hl.
Qed.

Lemma free_live p h n : status h p = Some (true, n) → free p h = Ok (freed p h).
Proof.
  unfold status, free, freed. destruct p as [b|]; [|done].
  destruct (blocks h !! b) as [blk|]; [|done]. simpl. intros [= Hl _]. by rewrite Hl.
Qed.

Lemma free_Ok_inv p h h' :
  free p h = Ok h' →
  (p = None ∧ h' = h) ∨ (∃ n, status h p = Some (true, n) ∧ h' = freed p h).
Proof.
  unfold free, freed, status. destruct p as [b|]; [|intros [= <-]; by left].
  destruct (blocks h !! b) as [blk|] eqn:Hb; [|done]. simpl.
  destruct (blk_live blk); [|done]. intros [= <-]. right. eauto.
Qed.

Lemma free_not_live p h :
  p ≠ None → (∀ n, status h p ≠ Some (true, n)) → free p h = Undefined.
Proof.
  unfold free, status. destruct p as [b|]; [|done]. intros _.
  destruct (blocks h !! b) as [blk|]; [|done]. simpl.
  destruct (blk_live blk); [|done]. intros H. by destruct (H (blk_bytes blk)).
Qed.

Lemma status_freed p h n q :
  status h p = Some (true, n) →
  status (freed p h) q = if decide (q = p) then Some (false, n) else status h q.
Proof.
  unfold status, freed. destruct p as [b|]; [|done].
  destruct (blocks h !! b) as [blk|] eqn:Hb; [|done]. simpl. intros [= Hl <-].
  destruct (decide (q = Some b)) as [->|Hne].
  - simpl. rewrite list_lookup_insert_eq by (by eapply lookup_lt_Some). done.
  - destruct q as [b'|]; [|done]. simpl.
    rewrite list_lookup_insert_ne by congruence. done.
Qed.

Lemma slot_freed p h n q j :
  status h p = Some (true, n) →
  slot (freed p h) q j = if decide (q = p) then None else slot h q j.
Proof.
  intros Hst. destruct (decide (q = p)) as [->|Hne].
  - eapply slot_dead. rewrite (status_freed _ _ n) by done. by rewrite decide_True.
  - unfold slot, freed. unfold status in Hst. destruct p as [b|]; [|done].
    destruct (blocks h !! b) as [blk|] eqn:Hb; [|done].
    destruct q as [b'|]; [|done]. simpl.
    rewrite list_lookup_insert_ne by congruence. done.
Qed.

Lemma free_bytes_freed p h n :
  status h p = Some (true, n) → free_bytes (freed p h) = free_bytes h + n.
Proof.
  unfold status, freed. destruct p as [b|]; [|done].
  destruct (blocks h !! b) as [blk|]; [|done]. simpl. by intros [= _ <-].
Qed.

End StatusFacts.

(** ** The loops of the constructor and of the destructors *)

Section Loops.
Context `{Tg : Target} {T : Type} `{El : Element T}.
Implicit Types (h : heap T) (p q : ptr) (i j room m : Z) (n k : nat)
  (s : option T) (v x : T) (l : list T).

Lemma constructed_upto_0 h0 p m :
  0 ≤ m → stores h0 p [] m → constructed_upto h0 p m 0 h0.
Proof.
  intros Hm Hst. unfold constructed_upto. rewrite Nat.add_0_r.
  repeat split; done || lia.
Qed.

Lemma constructed_upto_S h0 p m k h :
  constructed_upto h0 p m k h → Z.of_nat k < m →
  constructed_upto h0 p m (S k) (copied_one p (Z.of_nat k) T_default h).
Proof.
  intros (Hkm & Hst & Hframe & Hstatus & Hfree & Hcon & Hdes & Hlen) Hroom.
  assert (length (replicate k (T_default : T)) = k) as Hlk by apply length_replicate.
  assert (is_Some (slot h p (Z.of_nat k))) as Hs.
  { rewrite <- Hlk at 1. eapply stores_slot_end; [done|]. by rewrite Hlk. }
  unfold constructed_upto, copied_one. split; [lia|]. split; [|split; [|split]].
  - rewrite replicate_S_end. intros j. rewrite slot_count_construction.
    rewrite <- Hlk at 1. apply stores_snoc; [done|]. by rewrite Hlk.
  - intros q j Hq. rewrite slot_count_construction, slot_set_slot by done.
    case_decide; [naive_solver|]. by apply Hframe.
  - intros q. change (status (set_slot h p (Z.of_nat k) (Some T_default)) q = status h0 q).
    by rewrite status_set_slot.
  - cbn [free_bytes constructions destructions count_construction blocks
           set_slot set_blocks].
    split; [done|]. split; [lia|]. split; [done|].
    change (length (blocks (set_slot h p (Z.of_nat k) (Some T_default))) = length (blocks h0)).
    by rewrite length_blocks_set_slot.
Qed.

Lemma construct_default_Ok p i h h' :
  construct p i T_default h = Ok h' ↔
    is_Some (slot h p i) ∧ h' = copied_one p i T_default h.
Proof. apply construct_Ok. Qed.

Lemma construct_loop_total h0 p m n :
  stores h0 p [] m → Z.of_nat n ≤ m →
  ∃ h, for_size_t (Z.of_nat n) (λ i, construct p i T_default) h0 = Ok h
       ∧ constructed_upto h0 p m n h.
Proof.
  intros Hst Hm. unfold for_size_t. rewrite Nat2Z.id.
  apply for_upto_total.
  - apply constructed_upto_0; [lia|done].
  - intros k hk Hk HP. exists (copied_one p (Z.of_nat k) T_default hk).
    assert (Z.of_nat k < m) as Hroom by lia.
    split; [|by apply constructed_upto_S].
    apply construct_default_Ok. split; [|done].
    destruct HP as (_ & Hst' & _).
    pose proof (stores_slot_end _ _ _ _ Hst') as Hend.
    rewrite length_replicate in Hend. by apply Hend.
Qed.

Lemma construct_loop_partial h0 p m n h :
  stores h0 p [] m → 0 ≤ m →
  for_size_t (Z.of_nat n) (λ i, construct p i T_default) h0 = Ok h →
  constructed_upto h0 p m n h.
Proof.
  intros Hst Hm Hrun. unfold for_size_t in Hrun. rewrite Nat2Z.id in Hrun.
  eapply for_upto_partial; [exact Hrun | by apply constructed_upto_0 |].
  intros k hk hk' Hk HP Hbody.
  change (0 + Z.of_nat k) with (Z.of_nat k) in Hbody.
  apply construct_default_Ok in Hbody as [Hs ->].
  apply constructed_upto_S; [done|].
  destruct HP as (_ & Hst' & _).
  pose proof (stores_slot_end _ _ _ _ Hst') as Hend.
  rewrite length_replicate in Hend. by apply Hend.
Qed.

Lemma destroy_at_value p i h v :
  slot h p i = Some (Some v) → destroy_at p i h = Ok (destroyed_one p i h).
Proof. intros Hs. unfold destroy_at. by rewrite (proj2 (read_Ok _ _ _ _) Hs). Qed.

Lemma destroyed_upto_S h0 p l room k h v :
  stores h0 p l room → destroyed_upto h0 p k h → l !! k = Some v →
  destroy_at p (Z.of_nat k) h = Ok (destroyed_one p (Z.of_nat k) h)
  ∧ destroyed_upto h0 p (S k) (destroyed_one p (Z.of_nat k) h).
Proof.
  intros Hst (Hrest & Hframe & Hstatus & Hfree & Hcon & Hdes & Hlen) Hv.
  apply lookup_lt_Some in Hv as Hlt.
  assert (slot h p (Z.of_nat k) = Some (Some v)) as Hs.
  { rewrite Hrest, Hst by lia. unfold layout. case_decide; [|lia].
    by rewrite Nat2Z.id, Hv. }
  split; [by eapply destroy_at_value|].
  unfold destroyed_upto, destroyed_one. split; [|split; [|split]].
  - intros j Hj. rewrite slot_count_destruction, slot_set_slot by eauto.
    case_decide; [lia|]. apply Hrest. lia.
  - intros q j Hq. rewrite slot_count_destruction, slot_set_slot by eauto.
    case_decide; [naive_solver|]. by apply Hframe.
  - intros q. change (status (set_slot h p (Z.of_nat k) None) q = status h0 q).
    by rewrite status_set_slot.
  - cbn [free_bytes constructions destructions count_destruction blocks
           set_slot set_blocks].
    split; [done|]. split; [done|]. split; [lia|].
    change (length (blocks (set_slot h p (Z.of_nat k) None)) = length (blocks h0)).
    by rewrite length_blocks_set_slot.
Qed.

Lemma destroy_loop_total h0 p l room :
  stores h0 p l room → Z.of_nat (length l) ≤ INT_MAX →
  ∃ h, for_int (Z.of_nat (length l)) (destroy_at p) h0 = Ok h
       ∧ destroyed_upto h0 p (length l) h.
Proof.
  intros Hst Hmax. unfold for_int.
  destruct (Z.ltb_spec INT_MAX (Z.of_nat (length l))); [lia|].
  rewrite Nat2Z.id. apply for_upto_total.
  - unfold destroyed_upto. rewrite Nat.add_0_r. done.
  - intros k hk Hk HP. destruct (lookup_lt_is_Some_2 l k Hk) as [v Hv].
    exists (destroyed_one p (Z.of_nat k) hk).
    by eapply destroyed_upto_S.
Qed.

(** The body shared by [~HeapArray()] and [~GrowingArray()]. *)
Lemma destructor_total h p l room :
  stores h p l room → Z.of_nat (length l) ≤ INT_MAX →
  p = None ∨ (∃ bytes : Z, status h p = Some (true, bytes)) →
  ∃ h', (do h1 <- for_int (Z.of_nat (length l)) (destroy_at p) h; free p h1) = Ok h'
        ∧ destructed h p l h'.
Proof.
  intros Hst Hmax Hlive.
  destruct (destroy_loop_total h p l room Hst Hmax) as (h1 & -> & HP).
  destruct HP as (Hrest & Hframe & Hstatus & Hfree & Hcon & Hdes & Hlen).
  cbn [bind]. destruct Hlive as [->|[sz Hn]].
  - exists h1. split; [done|]. unfold destructed.
    split; [done|]. split; [done|]. split; [by intros|].
    split; [by intros sz [=]|]. done.
  - assert (status h1 p = Some (true, sz)) as Hn1 by (by rewrite Hstatus).
    rewrite (free_live _ _ _ Hn1). exists (freed p h1). split; [done|].
    unfold destructed. split; [|split; [|split; [|split; [|split]]]].
    + intros j. rewrite (slot_freed _ _ sz) by done. by rewrite decide_True.
    + intros q j Hq. rewrite (slot_freed _ _ sz) by done.
      rewrite decide_False by done. by apply Hframe.
    + intros q Hq. rewrite (status_freed _ _ sz) by done.
      by rewrite decide_False, Hstatus by done.
    + intros n' Hn'. assert (n' = sz) as -> by congruence.
      rewrite (status_freed _ _ sz), decide_True by done.
      by rewrite (free_bytes_freed _ _ sz), Hfree by done.
    + intros ->. done.
    + unfold status in Hn1. destruct p as [b|]; [|done].
      unfold freed. destruct (blocks h1 !! b); [|done]. simpl.
      rewrite length_insert. done.
Qed.

End Loops.

(** ** HeapArray: construction and destruction *)

Section HeapArrayFacts.
Context `{Tg : Target} {T : Type} `{El : Element T}.
Implicit Types (h : heap T) (p q : ptr) (i j room m : Z) (k : nat)
  (s : option T) (v x : T) (l : list T).

Lemma construct_no_abort p i v h : construct p i v h ≠ Abort.
Proof. unfold construct, write. by destruct (slot h p i). Qed.

Lemma create_no_abort (n : Z) h : HeapArray.create n h ≠ Abort.
Proof.
  unfold HeapArray.create. destruct (malloc n h) as [p h0].
  destruct (for_size_t n _ h0) as [h1| |] eqn:E; [done| |done].
  apply for_upto_no_abort in E; [done|]. intros i h'. apply construct_no_abort.
Qed.

Lemma constructed_upto_created h (n : Z) h' :
  0 ≤ n → n ≤ free_bytes h →
  constructed_upto (allocated n h) (Some (length (blocks h))) (n / sizeof) (Z.to_nat n) h' →
  created h n {| HeapArray.begin := Some (length (blocks h)); HeapArray.size := n |} h'.
Proof.
  intros Hn Hfree (Hm & Hst & Hframe & Hstatus & Hfree' & Hcon & Hdes & Hlen).
  unfold created. cbn [HeapArray.begin HeapArray.size].
  split; [done|]. split; [done|]. split; [lia|]. split; [done|]. split.
  { rewrite Hstatus, status_allocated. by rewrite decide_True. }
  split.
  { intros q j Hq. rewrite Hframe, slot_allocated by done. by rewrite decide_False. }
  split.
  { intros q Hq. rewrite Hstatus, status_allocated. by rewrite decide_False. }
  rewrite Hfree', Hcon, Hdes, Hlen. simpl. rewrite length_app. simpl.
  repeat split; lia.
Qed.

Lemma create_total (n : Z) h :
  0 ≤ n → n ≤ free_bytes h → n ≤ n / sizeof →
  ∃ a h', HeapArray.create n h = Ok (a, h') ∧ created h n a h'.
Proof.
  intros Hn Hfree Hroom. unfold HeapArray.create. rewrite malloc_enough by done.
  destruct (construct_loop_total (allocated n h) (Some (length (blocks h)))
              (n / sizeof) (Z.to_nat n)) as (h' & Hloop & Hup).
  { apply stores_allocated_new. }
  { lia. }
  rewrite Z2Nat.id in Hloop by done. rewrite Hloop. cbn [bind].
  eexists _, _. split; [done|]. by apply constructed_upto_created.
Qed.

Lemma create_partial (n : Z) h a h' :
  0 < n → HeapArray.create n h = Ok (a, h') → created h n a h'.
Proof.
  intros Hn Hrun. unfold HeapArray.create in Hrun. pose proof sizeof_pos.
  destruct (Z_le_gt_dec n (free_bytes h)).
  - rewrite malloc_enough in Hrun by done.
    apply bind_Ok in Hrun as (h1 & Hloop & [= <- <-]).
    apply constructed_upto_created; [lia | done |].
    rewrite <- (Z2Nat.id n) in Hloop at 1 by lia.
    eapply construct_loop_partial; [apply stores_allocated_new | | done].
    apply Z.div_pos; lia.
  - rewrite malloc_exhausted in Hrun by lia.
    apply bind_Ok in Hrun as (h1 & Hloop & _). exfalso.
    unfold for_size_t in Hloop.
    destruct (Z.to_nat n) as [|k] eqn:Hk; [lia|]. simpl in Hloop. discriminate.
Qed.

End HeapArrayFacts.

Section HeapArrayTheorems.
Context `{Tg : Target} {T : Type} `{El : Element T}.
Implicit Types (h : heap T) (p q : ptr) (i j room m : Z) (k : nat)
  (s : option T) (v x : T) (l : list T).

(** X2.  The constructor of [HeapArray] for one-byte elements.  When
    [sizeof(T) == 1] and the heap can hand out [n] bytes, [HeapArray(n)] runs
    to completion: the array has length [n] and holds [n] default-constructed
    elements; no slot of any other block has changed; [n] bytes were taken,
    [n] constructors and no destructor ran. *)
Theorem heap_array_create_one_byte (n : Z) h :
  sizeof = 1 → 0 ≤ n → n ≤ free_bytes h →
  ∃ a h',
    HeapArray.create n h = Ok (a, h')
    ∧ HeapArray.length a = n
    ∧ heap_array_holds h' a (replicate (Z.to_nat n) T_default)
    ∧ (∀ q j, q ≠ HeapArray.begin a → slot h' q j = slot h q j)
    ∧ free_bytes h' = free_bytes h - n
    ∧ constructions h' = (constructions h + Z.to_nat n)%nat
    ∧ destructions h' = destructions h.
Proof.
  intros Hs Hn Hfree.
  destruct (create_total n h) as (a & h' & Hrun & Hc); [done | done | |].
  { rewrite Hs, Z.div_1_r. lia. }
  exists a, h'. split; [done|].
  destruct Hc as (-> & _ & _ & Hst & _ & Hframe & _ & Hfree' & Hcon & Hdes & _).
  cbn [HeapArray.begin HeapArray.size] in *. rewrite Hs, Z.div_1_r in Hst.
  split; [done|]. split; [|done].
  unfold heap_array_holds. cbn [HeapArray.begin HeapArray.size].
  rewrite length_replicate. split; [lia|done].
Qed.

(** X3.  When the constructor of [HeapArray] completes.  [HeapArray(n)] asks
    [malloc] for [n] bytes, not for [n * sizeof(T)], and does not look at the
    result: it runs to completion exactly when [n] is 0, or the elements take
    one byte and the heap has [n] bytes left.  In every other case the
    behaviour is undefined: the loop constructs past the end of the block, or
    through [nullptr]. *)
Theorem heap_array_create_completes_iff (n : Z) h :
  0 ≤ n →
  ((∃ a h', HeapArray.create n h = Ok (a, h'))
   ↔ n = 0 ∨ (sizeof = 1 ∧ n ≤ free_bytes h))
  ∧ ((∀ a h', HeapArray.create n h ≠ Ok (a, h')) → HeapArray.create n h = Undefined).
Proof.
  intros Hn. pose proof sizeof_pos as Hpos. split; [split|].
  - intros (a & h' & Hrun). destruct (decide (n = 0)) as [|Hn0]; [by left|right].
    apply create_partial in Hrun as (_ & Hfree & Hroom & _); [|lia].
    split; [|done]. destruct (decide (sizeof = 1)) as [|Hs]; [done|].
    assert (n / sizeof < n) by (apply Z.div_lt; lia). lia.
  - intros [->|[Hs Hfree]].
    + unfold HeapArray.create. destruct (malloc 0 h) as [p h0]. simpl. eauto.
    + destruct (create_total n h) as (a & h' & Hrun & _); [done | done | | eauto].
      rewrite Hs, Z.div_1_r. lia.
  - intros Hnot. destruct (HeapArray.create n h) as [[a h']| |] eqn:E; [| |done].
    + by destruct (Hnot a h').
    + by apply create_no_abort in E.
Qed.

Lemma heap_array_destroy_total h (a : HeapArray.t) l :
  heap_array_holds h a l → HeapArray.size a ≤ INT_MAX →
  HeapArray.begin a = None ∨ (∃ bytes : Z, status h (HeapArray.begin a) = Some (true, bytes)) →
  ∃ h', HeapArray.destroy a h = Ok h' ∧ destructed h (HeapArray.begin a) l h'.
Proof.
  intros [Hsize Hst] Hmax Hlive. unfold HeapArray.destroy. rewrite Hsize.
  eapply destructor_total; eauto. lia.
Qed.

(** X4.  Construction and destruction of a [HeapArray] of one-byte elements
    match.  For [n <= INT_MAX] (the destructor counts with an [int]) and a
    heap with [n] bytes left, [HeapArray(n)] followed by [~HeapArray()] runs
    to completion with [n] constructor calls and [n] destructor calls; every
    byte is back on the heap, no slot of the array's block can be read any
    more, and no other block was touched. *)
Theorem heap_array_create_destroy (n : Z) h :
  sizeof = 1 → 0 ≤ n ≤ INT_MAX → n ≤ free_bytes h →
  ∃ a h1 h2,
    HeapArray.create n h = Ok (a, h1)
    ∧ HeapArray.destroy a h1 = Ok h2
    ∧ constructions h2 = (constructions h + Z.to_nat n)%nat
    ∧ destructions h2 = (destructions h + Z.to_nat n)%nat
    ∧ free_bytes h2 = free_bytes h
    ∧ (∀ j, slot h2 (HeapArray.begin a) j = None)
    ∧ (∀ q j, q ≠ HeapArray.begin a → slot h2 q j = slot h q j).
Proof.
  intros Hs Hn Hfree.
  destruct (create_total n h) as (a & h1 & Hrun & Hc); [lia | done | |].
  { rewrite Hs, Z.div_1_r. lia. }
  destruct Hc as (-> & _ & _ & Hst & Hstatus & Hframe & _ & Hfree' & Hcon & Hdes & _).
  cbn [HeapArray.begin HeapArray.size] in *. rewrite Hs, Z.div_1_r in Hst.
  set (a := {| HeapArray.begin := Some (length (blocks h)); HeapArray.size := n |}).
  destruct (heap_array_destroy_total h1 a (replicate (Z.to_nat n) T_default))
    as (h2 & Hrun2 & Hd).
  { unfold heap_array_holds, a. cbn [HeapArray.begin HeapArray.size].
    rewrite length_replicate. split; [lia|done]. }
  { unfold a. cbn [HeapArray.size]. lia. }
  { right. eauto. }
  exists a, h1, h2. split; [done|]. split; [done|].
  destruct Hd as (Hgone & Hframe2 & _ & Hst2 & _ & Hcon2 & Hdes2 & _).
  destruct (Hst2 n Hstatus) as [_ Hfree2].
  rewrite length_replicate in Hdes2.
  split; [lia|]. split; [lia|]. split; [lia|]. split; [done|].
  intros q j Hq. rewrite Hframe2 by done. by apply Hframe.
Qed.

Lemma destructor_twice p (size : Z) h h' :
  (do h1 <- for_int size (destroy_at p) h; free p h1) = Ok h' →
  (p = None → h' = h)
  ∧ (p ≠ None → (do h1 <- for_int size (destroy_at p) h'; free p h1) = Undefined).
Proof.
  intros (h1 & Hloop & Hfree)%bind_Ok. unfold for_int in *.
  destruct (Z.ltb_spec INT_MAX size); [done|]. split.
  - intros ->. simpl in Hfree. injection Hfree as <-.
    destruct (Z.to_nat size); simpl in Hloop; [by injection Hloop | done].
  - intros Hp. apply free_Ok_inv in Hfree as [[-> _]|(n & Hlive & ->)]; [done|].
    pose proof (status_freed p h1 n p Hlive) as Hdead. rewrite decide_True in Hdead by done.
    destruct (Z.to_nat size) as [|k].
    + simpl. apply free_not_live; [done|]. intros n'. rewrite Hdead. done.
    + simpl. unfold destroy_at at 1, read. by rewrite (slot_dead _ _ n).
Qed.

(** X5.  A destructor must not run twice on the same block.  If the
    destructor of a [HeapArray] or of a [GrowingArray] ran to completion, then
    with [begin == nullptr] it left the heap as it was, and with any other
    [begin] running it once more on the resulting heap is undefined.  This is
    what the deleted copy constructors and the [nullptr] a move leaves behind
    protect against. *)
Theorem destroy_twice_undefined :
  (∀ (a : HeapArray.t) h h',
     HeapArray.destroy a h = Ok h' →
     (HeapArray.begin a = None → h' = h)
     ∧ (HeapArray.begin a ≠ None → HeapArray.destroy a h' = Undefined))
  ∧ (∀ (a : GrowingArray.t) h h',
       GrowingArray.destroy a h = Ok h' →
       (GrowingArray.begin a = None → h' = h)
       ∧ (GrowingArray.begin a ≠ None → GrowingArray.destroy a h' = Undefined)).
Proof. split; intros a h h'; apply destructor_twice. Qed.

(** X6.  The destructor of [GrowingArray].  For an array that holds [l], with
    [size <= INT_MAX] and with [begin] either [nullptr] or a live block, the
    destructor runs to completion: it runs one destructor per element and no
    constructor, leaves no slot of the array's block readable, hands the bytes
    of that block back to the heap, and touches no other block. *)
Theorem growing_array_destroy h (a : GrowingArray.t) l :
  holds h a l → GrowingArray.size a ≤ INT_MAX →
  GrowingArray.begin a = None
  ∨ (∃ bytes : Z, status h (GrowingArray.begin a) = Some (true, bytes)) →
  ∃ h',
    GrowingArray.destroy a h = Ok h'
    ∧ constructions h' = constructions h
    ∧ destructions h' = (destructions h + length l)%nat
    ∧ (∀ j, slot h' (GrowingArray.begin a) j = None)
    ∧ (∀ q j, q ≠ GrowingArray.begin a → slot h' q j = slot h q j)
    ∧ (∀ q, q ≠ GrowingArray.begin a → status h' q = status h q)
    ∧ (∀ bytes : Z, status h (GrowingArray.begin a) = Some (true, bytes) →
         free_bytes h' = free_bytes h + bytes).
Proof.
  intros (Hsize & _ & _ & room & _ & Hst) Hmax Hlive.
  destruct (destructor_total h (GrowingArray.begin a) l room) as (h' & Hrun & Hd);
    [done | lia | done |].
  exists h'. split; [unfold GrowingArray.destroy; by rewrite Hsize|].
  destruct Hd as (Hgone & Hframe & Hstatus & Hfreed & _ & Hcon & Hdes & _).
  repeat split; try done. intros bytes Hb. by destruct (Hfreed bytes Hb).
Qed.

End HeapArrayTheorems.

(** ** What [push] leaves alone *)

Section PushStatus.
Context `{Tg : Target} {T : Type} `{El : Element T}.
Implicit Types (h : heap T) (p q : ptr) (i j room m : Z) (k : nat)
  (s : option T) (v x item : T) (l items : list T) (a : GrowingArray.t).

Lemma write_status p i v h h' q : write p i v h = Ok h' → status h' q = status h q.
Proof. intros [_ ->]%write_Ok. apply status_set_slot. Qed.

Lemma move_construct_status dst src i h h' q :
  move_construct dst src i h = Ok h' → status h' q = status h q.
Proof.
  unfold move_construct, construct.
  intros (v & _ & (h1 & Hw1 & (h2 & Hw2 & [= <-])%bind_Ok)%bind_Ok)%bind_Ok.
  change (status h2 q = status h q).
  by rewrite (write_status _ _ _ _ _ _ Hw2), (write_status _ _ _ _ _ _ Hw1).
Qed.

Lemma move_construct_counts dst src i h h' :
  move_construct dst src i h = Ok h' →
  destructions h' = destructions h ∧ free_bytes h' = free_bytes h.
Proof.
  unfold move_construct, construct.
  intros (v & _ & (h1 & [_ ->]%write_Ok & (h2 & [_ ->]%write_Ok & [= <-])%bind_Ok)%bind_Ok)%bind_Ok.
  done.
Qed.

Lemma for_upto_status body n i0 h h' :
  (∀ i h1 h2 q, body i h1 = Ok h2 → status h2 q = status h1 q) →
  for_upto n i0 body h = Ok h' → ∀ q, status h' q = status h q.
Proof.
  intros Hbody Hrun.
  eapply (for_upto_partial (λ _ hk, ∀ q, status hk q = status h q)); [exact Hrun | done |].
  intros k hk hk' _ HP Hb q. rewrite <- HP. by eapply Hbody.
Qed.

(** A completed [push] changes the status of no block; the only new block
    is the one a reallocation asks for. *)
Lemma push_status a item h a' h' q :
  GrowingArray.push a item h = Ok (a', h') →
  status h' q =
    if decide (GrowingArray.size a = GrowingArray.capacity a ∧ q = Some (length (blocks h)))
    then Some (true, size_t (GrowingArray.grown (GrowingArray.capacity a) * sizeof))
    else status h q.
Proof.
  unfold GrowingArray.push. intros ([a1 h1] & Hre & Hrun)%bind_Ok.
  apply bind_Ok in Hrun as (h2 & Hw & [= <- <-]).
  rewrite (write_status _ _ _ _ _ q Hw).
  destruct (Z.eqb_spec (GrowingArray.size a) (GrowingArray.capacity a)) as [Hfull|Hspare].
  - unfold GrowingArray.reallocate in Hre.
    set (r := size_t _) in *.
    destruct (Z_le_gt_dec r (free_bytes h)).
    + rewrite malloc_enough in Hre by done.
      apply bind_Ok in Hre as (h0 & Hloop & [= <- <-]).
      unfold for_size_t in Hloop.
      rewrite (for_upto_status _ _ _ _ _ (λ i h1 h2 q, move_construct_status _ _ i h1 h2 q) Hloop).
      rewrite status_allocated.
      destruct (decide (q = Some (length (blocks h)))).
      * by rewrite decide_True.
      * by rewrite decide_False by naive_solver.
    + rewrite malloc_exhausted in Hre by lia.
      apply bind_Ok in Hre as (h0 & _ & [= <- <-]).
      apply write_Ok in Hw as [[? [=]] _].
  - injection Hre as <- <-. by rewrite decide_False by naive_solver.
Qed.

(** X9.  [push] never frees and never destroys.  A [push] that runs to
    completion leaves every live block live and at its size, hands no byte
    back to the heap, runs no destructor, removes no block, and changes slots
    only in the block the array had and the block it has now. *)
Theorem push_never_frees h a l item a' h' :
  holds h a l →
  GrowingArray.push a item h = Ok (a', h') →
  (∀ q (bytes : Z), status h q = Some (true, bytes) → status h' q = Some (true, bytes))
  ∧ free_bytes h' ≤ free_bytes h
  ∧ destructions h' = destructions h
  ∧ (length (blocks h) ≤ length (blocks h'))%nat
  ∧ (∀ q j, q ≠ GrowingArray.begin a → q ≠ GrowingArray.begin a' →
            slot h' q j = slot h q j).
Proof.
  intros (Hsize & Hle & Hmax & room & Hroom & Hst) Hrun. split.
  { intros q bytes Hq. rewrite (push_status _ _ _ _ _ q Hrun).
    rewrite decide_False; [done|]. intros [_ ->].
    assert (is_Some (status h (Some (length (blocks h))))) as Hs by (by rewrite Hq).
    apply status_is_Some in Hs as (b & [= <-] & Hlt). lia. }
  destruct (decide (GrowingArray.size a = GrowingArray.capacity a)) as [Hfull|Hspare].
  - eapply push_growth_partial in Hrun
      as (-> & _ & _ & _ & Hframe & Hfree & _ & Hdes & Hlen); [|done..].
    pose proof (size_t_range (GrowingArray.grown (GrowingArray.capacity a) * sizeof)).
    repeat split; try done; lia.
  - eapply push_spare_partial in Hrun as [[= -> ->] _]; [|done || lia..].
    unfold appended. cbn [GrowingArray.begin snd].
    split; [done|]. split; [done|]. split; [by rewrite length_blocks_set_slot|].
    intros q j Hq _. assert (is_Some (slot h (GrowingArray.begin a) (GrowingArray.size a))).
    { rewrite Hsize. eapply stores_slot_end; [done|lia]. }
    rewrite slot_set_slot by done. by rewrite decide_False by naive_solver.
Qed.

End PushStatus.

(** ** The books of a run of pushes *)

Section Account.
Context `{Tg : Target} {T : Type} `{El : Element T}.
Implicit Types (h : heap T) (p q : ptr) (i j room m : Z) (k : nat)
  (s : option T) (v x item : T) (l items : list T) (a : GrowingArray.t).

Lemma accounted_create h :
  accounted (free_bytes h) (destructions h) h GrowingArray.create [].
Proof.
  unfold accounted. simpl. split; [apply holds_create|].
  repeat split; try lia. by left.
Qed.

Lemma push_destructions a item h a' h' :
  GrowingArray.push a item h = Ok (a', h') → destructions h' = destructions h.
Proof.
  unfold GrowingArray.push. intros ([a1 h1] & Hre & Hrun)%bind_Ok.
  apply bind_Ok in Hrun as (h2 & [_ ->]%write_Ok & [= <- <-]).
  change (destructions h1 = destructions h).
  destruct (GrowingArray.size a =? GrowingArray.capacity a); [|by injection Hre as <- <-].
  unfold GrowingArray.reallocate in Hre.
  destruct (malloc _ h) as [p h0] eqn:Hm.
  assert (destructions h0 = destructions h) as <-.
  { unfold malloc in Hm. destruct (_ <=? _); by injection Hm as <- <-. }
  apply bind_Ok in Hre as (h3 & Hloop & [= <- <-]).
  eapply (for_upto_partial (λ _ hk, destructions hk = destructions h0));
    [exact Hloop | done |].
  intros k hk hk' _ HP Hb. rewrite <- HP. by apply move_construct_counts in Hb as [-> _].
Qed.

Lemma push_accounted F0 D0 h a l item (K : Z) :
  accounted F0 D0 h a l → Z.of_nat (length l) < K →
  5 * K * sizeof ≤ F0 → 5 * K * sizeof ≤ SIZE_MAX →
  ∃ a' h', GrowingArray.push a item h = Ok (a', h') ∧ accounted F0 D0 h' a' (l ++ [item]).
Proof.
  intros (Hholds & Hcap & Hstatus & Hused & H0 & H12 & H3 & Hdes) HK HF Hmax.
  pose proof sizeof_pos as Hs.
  pose proof Hholds as (Hsize & Hle & _ & room & _ & Hstores).
  set (c := GrowingArray.capacity a) in *.
  set (n := Z.of_nat (length l)) in *.
  assert (0 ≤ n) as Hn0 by (unfold n; lia).
  assert (n = 0 → c = 0 ∧ free_bytes h = F0) as Hz0 by (intros; apply H0; lia).
  assert (1 ≤ n ≤ 2 → c = 2 ∧ free_bytes h + 2 * sizeof = F0)
    as Hz12 by (intros; apply H12; lia).
  assert (3 ≤ n → free_bytes h + c * sizeof ≤ F0 - 2 * sizeof)
    as Hz3 by (intros; apply H3; lia).
  clear H0 H12 H3.
  set (g := (3 * Z.max c 1 + 1) / 2) in *.
  assert (2 * g ≤ 3 * Z.max c 1 + 1 < 2 * g + 2) as Hg
    by (unfold g; Z.to_euclidean_division_equations; lia).
  destruct (push_holds h a l item Hholds) as (a' & h' & Hrun & Hholds' & Hc' & Hf' & _).
  { intros Hfull. fold c g. repeat split; nia. }
  fold c g in Hc', Hf'.
  exists a', h'. split; [done|].
  pose proof (push_status _ _ _ _ _ (GrowingArray.begin a') Hrun) as Hst'.
  pose proof (push_destructions _ _ _ _ _ Hrun) as Hdes'.
  fold c in Hst'.
  assert (Z.of_nat (length (l ++ [item])) = n + 1) as Hlen
    by (rewrite length_app; simpl; unfold n; lia).
  unfold accounted. split; [done|]. rewrite Hlen.
  destruct (decide (GrowingArray.size a = c)) as [Hfull|Hspare].
  - assert (GrowingArray.begin a' = Some (length (blocks h))) as Hb.
    { eapply push_growth_partial in Hrun as (-> & _); done. }
    rewrite Hb, decide_True in Hst' by done.
    assert (GrowingArray.grown c = g) as Hgrown by (apply grown_exact; nia).
    rewrite Hgrown, size_t_small in Hst' by nia.
    rewrite Hc', Hf', Hc', Hb. clearbody g.
    split; [lia|]. split; [by right|]. split; [nia|].
    split; [intros E; rewrite length_app in E; simpl in E; lia|].
    split.
    + intros E. rewrite length_app in E. simpl in E.
      assert (n = 0) as Hn by (unfold n in *; lia).
      destruct (Hz0 Hn) as [Hc Hfr]. assert (g = 2) as Hg2 by lia. rewrite Hg2. lia.
    + split; [|lia]. intros E. rewrite length_app in E. simpl in E.
      destruct (decide (n = 2)) as [Hn|Hn].
      * destruct Hz12 as [Hc Hfr]; [lia|]. assert (g = 3) as Hg3 by lia. rewrite Hg3. lia.
      * assert (3 ≤ n) as Hn3 by (unfold n in *; lia). specialize (Hz3 Hn3). nia.
  - rewrite decide_False in Hst' by naive_solver.
    assert (GrowingArray.begin a' = GrowingArray.begin a) as Hb.
    { pose proof Hholds as (_ & _ & Hmx & _).
      eapply push_spare_partial in Hrun as [[= -> ->] _];
        [done | exact Hstores | exact Hsize | fold c; lia | exact Hmx]. }
    rewrite Hc', Hf', Hb. clearbody g.
    split; [lia|]. split.
    { destruct Hstatus as [[_ Hz]|Hlive]; [lia|]. right. by rewrite <- Hb, Hst', Hb. }
    split; [lia|].
    split; [intros E; rewrite length_app in E; simpl in E; lia|].
    split.
    + intros E. rewrite length_app in E. simpl in E.
      destruct (decide (n = 0)) as [Hn|Hn]; [destruct (Hz0 Hn); lia|].
      apply Hz12. unfold n in *. lia.
    + split; [|lia]. intros E. rewrite length_app in E. simpl in E.
      destruct (decide (n = 2)) as [Hn|Hn]; [destruct Hz12; lia|].
      apply Hz3. unfold n in *. lia.
Qed.

Lemma push_all_accounted F0 D0 items : ∀ a h l,
  accounted F0 D0 h a l →
  5 * Z.of_nat (length l + length items) * sizeof ≤ F0 →
  5 * Z.of_nat (length l + length items) * sizeof ≤ SIZE_MAX →
  ∃ a' h', GrowingArray.push_all items a h = Ok (a', h')
           ∧ accounted F0 D0 h' a' (l ++ items).
Proof.
  induction items as [|item items IH]; intros a h l Hacc HF Hmax.
  - simpl. rewrite app_nil_r. eauto.
  - simpl in HF, Hmax.
    destruct (push_accounted F0 D0 h a l item (Z.of_nat (length l + S (length items))))
      as (a1 & h1 & Hrun & Hacc1); [done | lia | done | done |].
    simpl. rewrite Hrun. cbn [bind].
    destruct (IH a1 h1 (l ++ [item])) as (a' & h' & Hrun' & Hacc').
    + done.
    + rewrite length_app. simpl. by rewrite <- Nat.add_assoc.
    + rewrite length_app. simpl. by rewrite <- Nat.add_assoc.
    + exists a', h'. split; [done|]. by rewrite <- app_assoc in Hacc'.
Qed.

(** X8.  Capacity and memory use after [k] pushes onto a default-constructed
    array: the capacity is at least [k] and at most [(3 * k + 1) / 2]; the
    bytes taken from the heap, abandoned blocks included, are at most
    [3 * capacity * sizeof(T)]; and a non-empty array sits in a live block of
    [capacity * sizeof(T)] bytes. *)
Theorem push_all_capacity_bounds items h :
  5 * Z.of_nat (length items) * sizeof ≤ free_bytes h →
  5 * Z.of_nat (length items) * sizeof ≤ SIZE_MAX →
  ∃ a' h',
    GrowingArray.push_all items GrowingArray.create h = Ok (a', h')
    ∧ Z.of_nat (length items) ≤ GrowingArray.capacity a'
    ∧ 2 * GrowingArray.capacity a' ≤ 3 * Z.of_nat (length items) + 1
    ∧ free_bytes h - free_bytes h' ≤ 3 * GrowingArray.capacity a' * sizeof
    ∧ (items ≠ [] →
       status h' (GrowingArray.begin a')
       = Some (true, GrowingArray.capacity a' * sizeof)).
Proof.
  intros HF Hmax.
  destruct (push_all_accounted (free_bytes h) (destructions h) items
              GrowingArray.create h []) as (a' & h' & Hrun & Hacc);
    [apply accounted_create | done | done |].
  exists a', h'. split; [done|]. simpl in Hacc.
  destruct Hacc as ((Hsize & Hle & _) & Hcap & Hstatus & Hused & H0 & _).
  split; [lia|]. split; [done|]. split; [lia|].
  intros Hne. destruct Hstatus as [[_ Hz]|Hlive]; [|done].
  destruct items; [done|]. simpl in *. lia.
Qed.

(** X7.  A [GrowingArray] from its construction to its destruction.  After
    the [k] elements of [items] were pushed onto a default-constructed array
    (with memory as for C3, and [k <= INT_MAX]), the destructor runs to
    completion and has run exactly [k] element destructors.  With [k <= 2]
    every byte is back on the heap; with [k >= 3] at least [2 * sizeof(T)]
    bytes are lost for good, since [push] never frees the block it
    replaces. *)
Theorem growing_array_lifecycle items h :
  5 * Z.of_nat (length items) * sizeof ≤ free_bytes h →
  5 * Z.of_nat (length items) * sizeof ≤ SIZE_MAX →
  Z.of_nat (length items) ≤ INT_MAX →
  ∃ a' h' h'',
    GrowingArray.push_all items GrowingArray.create h = Ok (a', h')
    ∧ GrowingArray.destroy a' h' = Ok h''
    ∧ destructions h'' = (destructions h + length items)%nat
    ∧ ((length items ≤ 2)%nat → free_bytes h'' = free_bytes h)
    ∧ ((3 ≤ length items)%nat → free_bytes h'' ≤ free_bytes h - 2 * sizeof).
Proof.
  intros HF Hmax Hint.
  destruct (push_all_accounted (free_bytes h) (destructions h) items
              GrowingArray.create h []) as (a' & h' & Hrun & Hacc);
    [apply accounted_create | done | done |].
  simpl in Hacc.
  destruct Hacc as (Hholds & Hcap & Hstatus & Hused & H0 & H12 & H3 & Hdes).
  pose proof Hholds as (Hsize & Hle & _ & room & _ & Hstores).
  destruct (destructor_total h' (GrowingArray.begin a') items room) as (h'' & Hrun' & Hd);
    [done | done | destruct Hstatus as [[-> _]|Hl]; eauto |].
  exists a', h', h''. split; [done|].
  split; [unfold GrowingArray.destroy; by rewrite Hsize|].
  destruct Hd as (_ & _ & _ & Hfreed & Hnull & _ & Hdes' & _).
  split; [lia|].
  assert (free_bytes h'' = free_bytes h' + GrowingArray.capacity a' * sizeof) as ->.
  { destruct Hstatus as [[Hb Hz]|Hlive].
    - rewrite (Hnull Hb), Hz. lia.
    - by destruct (Hfreed _ Hlive) as [_ ->]. }
  split.
  - intros Hk. destruct (decide (length items = 0%nat)) as [E|E].
    + destruct (H0 E) as [Hc Hfr]. rewrite Hc. lia.
    + destruct H12 as [Hc Hfr]; [lia|]. rewrite Hc. lia.
  - intros Hk. specialize (H3 Hk). lia.
Qed.

End Account.

(** ** StackArray, and assignment through a reference *)

Section StackFacts.
Context {T : Type} {N : nat}.

(** X1.  The two overloads of [operator []] of [StackArray] agree, and so do
    the two ways of asking for the length.  For every index (a [size_t], so
    not negative): the run-time overload aborts exactly when the [constexpr]
    overload does, which is exactly when [length() <= index]; below
    [length()] both designate the same element [c_array[index]]; the
    [constexpr] overload never reads outside [c_array]; and the free function
    [length(c_array)] returns what [length()] returns, the number of elements
    of [c_array]. *)
Theorem stack_array_access_paths_agree (a : StackArray.t T N) (index : Z) :
  0 ≤ index →
  (StackArray.index a index = Abort ↔ StackArrayConst.index_constexpr a index = Abort)
  ∧ (StackArray.index a index = Abort ↔ StackArray.length a ≤ index)
  ∧ (index < StackArray.length a →
       ∃ v, StackArrayConst.index_constexpr a index = Ok v
            ∧ StackArray.index a index = Ok index
            ∧ StackArray.deref a index = Some v)
  ∧ StackArrayConst.index_constexpr a index ≠ Undefined
  ∧ CArray.length (StackArray.c_array a) = StackArray.length a
  ∧ Z.of_nat (length (vec_to_list (StackArray.c_array a))) = StackArray.length a.
Proof.
  intros Hindex.
  unfold StackArray.index, StackArrayConst.index_constexpr, StackArray.length,
    StackArray.deref, CArray.length,
    StackArrayConst.constexpr_stack_array_index_out_of_bounds.
  assert (Hlen : length (vec_to_list (StackArray.c_array a)) = N) by apply length_vec_to_list.
  destruct (Z.leb_spec (Z.of_nat N) index) as [Hle|Hlt];
    destruct (Z.ltb_spec index (Z.of_nat N)) as [Hlt'|Hle']; try lia.
  - repeat split; try done; lia.
  - destruct (lookup_lt_is_Some_2 (vec_to_list (StackArray.c_array a)) (Z.to_nat index))
      as [v Hv]; [lia|].
    rewrite Hv. repeat split; try done; try lia.
    intros _. exists v. repeat split.
    by destruct (Z.leb_spec 0 index); [|lia].
Qed.

End StackFacts.

Section AssignFacts.
Context `{Tg : Target} {T : Type} `{El : Element T}.

Lemma assign_stores (h : heap T) p (l : list T) room (index : Z) (v : T) :
  stores h p l room → 0 ≤ index < Z.of_nat (length l) →
  ∃ h', write p index v h = Ok h'
        ∧ read h' p index = Ok v
        ∧ stores h' p (<[Z.to_nat index := v]> l) room
        ∧ (∀ q j, ¬ (q = p ∧ j = index) → slot h' q j = slot h q j)
        ∧ free_bytes h' = free_bytes h
        ∧ constructions h' = constructions h
        ∧ destructions h' = destructions h.
Proof.
  intros Hstores Hindex.
  assert (Hslot : is_Some (slot h p index)).
  { rewrite (Hstores index). unfold layout. by destruct (decide (0 ≤ index < Z.of_nat (length l))). }
  destruct Hslot as [s Hs].
  exists (set_slot h p index (Some v)). unfold write, read. rewrite Hs.
  split; [done|].
  assert (Hnew : stores (set_slot h p index (Some v)) p (<[Z.to_nat index := v]> l) room).
  { replace index with (Z.of_nat (Z.to_nat index)) at 1 by lia.
    apply stores_overwrite; [done|lia]. }
  split.
  { rewrite (Hnew index). unfold layout. rewrite length_insert.
    destruct (decide (0 ≤ index < Z.of_nat (length l))); [|lia].
    rewrite list_lookup_insert_eq by lia. done. }
  split; [done|]. split.
  { intros q j Hne. rewrite slot_set_slot by (by rewrite Hs).
    by destruct (decide (q = p ∧ j = index)). }
  by destruct p.
Qed.

(** X10.  Assignment through [operator []], for [GrowingArray] and
    [HeapArray] alike.  For an index below [length()], [a[index]] is the
    reference [begin + index]; assigning [v] through it runs to completion;
    reading [a[index]] afterwards gives [v]; every other element reads as
    before; the array holds its old elements with position [index] replaced;
    and no other block has changed. *)
Theorem assign_then_read (index : Z) (v : T) (h : heap T) :
  (∀ (a : GrowingArray.t) (l : list T), holds h a l → 0 ≤ index < GrowingArray.length a →
     ∃ h', GrowingArray.index a index = Ok (GrowingArray.begin a, index)
           ∧ write (GrowingArray.begin a) index v h = Ok h'
           ∧ read h' (GrowingArray.begin a) index = Ok v
           ∧ holds h' a (<[Z.to_nat index := v]> l)
           ∧ (∀ i, i ≠ index → read h' (GrowingArray.begin a) i = read h (GrowingArray.begin a) i)
           ∧ (∀ q j, q ≠ GrowingArray.begin a → slot h' q j = slot h q j))
  ∧ (∀ (a : HeapArray.t) (l : list T), heap_array_holds h a l → 0 ≤ index < HeapArray.length a →
       ∃ h', HeapArray.index a index = Ok (HeapArray.begin a, index)
             ∧ write (HeapArray.begin a) index v h = Ok h'
             ∧ read h' (HeapArray.begin a) index = Ok v
             ∧ heap_array_holds h' a (<[Z.to_nat index := v]> l)
             ∧ (∀ i, i ≠ index → read h' (HeapArray.begin a) i = read h (HeapArray.begin a) i)
             ∧ (∀ q j, q ≠ HeapArray.begin a → slot h' q j = slot h q j)).
Proof.
  split.
  - intros a l (Hsize & Hcap & Hmax & room & Hroom & Hstores). unfold GrowingArray.length.
    intros Hindex.
    destruct (assign_stores h _ l room index v Hstores) as (h' & Hw & Hr & Hst & Hframe & _);
      [lia|].
    exists h'. unfold GrowingArray.index.
    destruct (Z.leb_spec (GrowingArray.size a) index); [lia|].
    repeat split; try done.
    + by rewrite length_insert.
    + by exists room.
    + intros i Hi. unfold read. rewrite Hframe; [done|naive_solver].
    + intros q j Hq. apply Hframe. naive_solver.
  - intros a l (Hsize & Hstores). unfold HeapArray.length. intros Hindex.
    destruct (assign_stores h _ l _ index v Hstores) as (h' & Hw & Hr & Hst & Hframe & _);
      [lia|].
    exists h'. unfold HeapArray.index.
    destruct (Z.leb_spec (HeapArray.size a) index); [lia|].
    repeat split; try done.
    + by rewrite length_insert.
    + intros i Hi. unfold read. rewrite Hframe; [done|naive_solver].
    + intros q j Hq. apply Hframe. naive_solver.
Qed.

End AssignFacts.

(** ** After a move, and [HeapArray::copy] *)

Section AfterMove.
Context `{Tg : Target} {T : Type} `{El : Element T}.

Lemma slot_null (h : heap T) j : slot h None j = None.
Proof. done. Qed.

Lemma write_null i (v : T) h : write None i v h = Undefined.
Proof. done. Qed.

(** X11.  Both sides of the move constructor of [GrowingArray].  The new
    array holds the elements and behaves as the source did: [push] and
    [operator []] give the same results.  The source has length 0, aborts on
    every index, and can be destroyed without touching the heap; it is the
    default-constructed array exactly when its capacity was 0, and when its
    capacity was not 0 a [push] onto it is undefined. *)
Theorem growing_array_after_move (h : heap T) a (l : list T) (item : T) :
  holds h a l →
  holds h (fst (GrowingArray.move a)) l
  ∧ GrowingArray.push (fst (GrowingArray.move a)) item h = GrowingArray.push a item h
  ∧ (∀ i, GrowingArray.index (fst (GrowingArray.move a)) i = GrowingArray.index a i)
  ∧ GrowingArray.length (snd (GrowingArray.move a)) = 0
  ∧ (∀ i, 0 ≤ i → GrowingArray.index (snd (GrowingArray.move a)) i = Abort)
  ∧ GrowingArray.destroy (snd (GrowingArray.move a)) h = Ok h
  ∧ (GrowingArray.capacity a ≠ 0 →
       GrowingArray.push (snd (GrowingArray.move a)) item h = Undefined)
  ∧ (GrowingArray.capacity a = 0 → snd (GrowingArray.move a) = GrowingArray.create).
Proof.
  intros Hholds.
  destruct (move_transfers h a l Hholds) as (Hnew & Hlen & Hdestroy & Hcreate).
  split; [done|]. split; [by destruct a|]. split; [by destruct a|].
  split; [done|]. split.
  { intros i Hi. unfold GrowingArray.index. simpl.
    by destruct (Z.leb_spec 0 i); [|lia]. }
  split; [done|]. split; [|by apply Hcreate].
  intros Hcap. unfold GrowingArray.push. simpl.
  by destruct (GrowingArray.capacity a).
Qed.

(** X12.  Both sides of the move constructor of [HeapArray].  The new array
    holds the elements and behaves as the source did under [operator []] and
    under the destructor.  The source is a valid empty array: it has length
    0, aborts on every index, and its destructor leaves the heap as it
    was. *)
Theorem heap_array_after_move (h : heap T) (a : HeapArray.t) (l : list T) :
  heap_array_holds h a l →
  heap_array_holds h (fst (HeapArray.move a)) l
  ∧ (∀ i, HeapArray.index (fst (HeapArray.move a)) i = HeapArray.index a i)
  ∧ HeapArray.destroy (fst (HeapArray.move a)) h = HeapArray.destroy a h
  ∧ HeapArray.length (snd (HeapArray.move a)) = 0
  ∧ (∀ i, 0 ≤ i → HeapArray.index (snd (HeapArray.move a)) i = Abort)
  ∧ HeapArray.destroy (snd (HeapArray.move a)) h = Ok h
  ∧ heap_array_holds h (snd (HeapArray.move a)) [].
Proof.
  intros Hholds.
  destruct (heap_array_move_transfers h a l Hholds) as (Hnew & Hlen & Hbegin & Hdestroy).
  split; [done|]. split; [by destruct a|]. split; [by destruct a|].
  split; [done|]. split.
  { intros i Hi. unfold HeapArray.index. simpl.
    by destruct (Z.leb_spec 0 i); [|lia]. }
  split; [done|]. split; [done|]. simpl. apply stores_null.
Qed.

End AfterMove.

Section HeapCopy.
Context `{Tg : Target} {T : Type} `{El : Element T}.

(** [HeapArray::copy] is [GrowingArray::copy] run after the constructor
    call [result{0}]. *)
Lemma heap_array_copy_unfold (a : HeapArray.t) (h : heap T) :
  HeapArray.copy a h =
    do (result, h0) <- HeapArray.create 0 h;
    outcome_map (λ gh, ({| HeapArray.begin := GrowingArray.begin (fst gh);
                           HeapArray.size := GrowingArray.size (fst gh) |}, snd gh))
      (GrowingArray.copy {| GrowingArray.begin := HeapArray.begin a;
                            GrowingArray.size := HeapArray.size a;
                            GrowingArray.capacity := HeapArray.size a |} h0).
Proof.
  unfold HeapArray.copy, GrowingArray.copy.
  destruct (HeapArray.create 0 h) as [[result h0]| |]; [|done..]. simpl.
  destruct (malloc (HeapArray.size a) h0) as [p h1].
  by destruct (for_size_t (HeapArray.size a) (copy_construct p (HeapArray.begin a)) h1).
Qed.

End HeapCopy.

Section HeapCopyFacts.
Context `{Tg : Target} {T : Type} `{El : Element T}.

(** A change that touches only a block [b] the heap did not have before
    leaves every array of the old heap as it was. *)
Lemma stores_frame (h h' : heap T) p (l : list T) room (b : nat) :
  stores h p l room → (length (blocks h) ≤ b)%nat →
  (∀ q j, q ≠ Some b → slot h' q j = slot h q j) →
  (∀ j, slot h' (Some b) j = None ∨ l ≠ [] ∨ 0 < room) →
  stores h' p l room.
Proof.
  intros Hst Hb Hframe Hnew j.
  destruct (decide (p = Some b)) as [->|Hne]; [|by rewrite Hframe].
  destruct (Hnew j) as [Hnone|Hroom].
  - rewrite Hnone. rewrite <- (Hst j). symmetry.
    destruct (slot h (Some b) j) eqn:Hs; [|done].
    destruct (slot_is_Some h (Some b) j) as (b' & [= <-] & Hlt & _); [by rewrite Hs|lia].
  - destruct (stores_room _ _ _ _ Hst Hroom) as (b' & [= <-] & Hlt). lia.
Qed.

Lemma copy_construct_status dst src i (h h' : heap T) q :
  copy_construct dst src i h = Ok h' → status h' q = status h q.
Proof.
  unfold copy_construct, construct.
  intros (v & _ & (h1 & Hw1 & [= <-])%bind_Ok)%bind_Ok.
  change (status h1 q = status h q). by rewrite (write_status _ _ _ _ _ _ Hw1).
Qed.

Lemma create_zero (h : heap T) :
  0 ≤ free_bytes h →
  HeapArray.create 0 h
  = Ok ({| HeapArray.begin := Some (length (blocks h)); HeapArray.size := 0 |},
        allocated 0 h).
Proof. intros Hfree. unfold HeapArray.create. by rewrite malloc_enough. Qed.

(** X13.  [HeapArray::copy] for one-byte elements.  When the heap has [size]
    bytes left, [copy()] runs to completion; the original still holds its
    elements and the copy holds the same elements in a live block of [size]
    bytes of its own; one copy constructor ran per element.  Two blocks were
    allocated: the first is the zero-byte block of the local
    [HeapArray<T> result{0}], whose pointer [copy] overwrites; it stays live
    and nothing refers to it.  The blocks the heap had before are as they
    were. *)
Theorem heap_array_copy_one_byte (h : heap T) (a : HeapArray.t) (l : list T) :
  heap_array_holds h a l → sizeof = 1 → HeapArray.size a ≤ free_bytes h →
  ∃ a' h',
    HeapArray.copy a h = Ok (a', h')
    ∧ heap_array_holds h' a l ∧ heap_array_holds h' a' l
    ∧ HeapArray.begin a' = Some (S (length (blocks h)))
    ∧ status h' (HeapArray.begin a') = Some (true, HeapArray.size a)
    ∧ status h' (Some (length (blocks h))) = Some (true, 0)
    ∧ length (blocks h') = S (S (length (blocks h)))
    ∧ free_bytes h' = free_bytes h - HeapArray.size a
    ∧ constructions h' = (constructions h + length l)%nat
    ∧ destructions h' = destructions h
    ∧ (∀ q, (∃ b, q = Some b ∧ (b < length (blocks h))%nat) →
         status h' q = status h q ∧ ∀ j, slot h' q j = slot h q j).
Proof.
  intros (Hsize & Hst) Hs Hfree.
  assert (Hdiv : ∀ z, z / sizeof = z) by (intros z; by rewrite Hs, Z.div_1_r).
  rewrite heap_array_copy_unfold, create_zero by lia. cbn [bind].
  set (g := {| GrowingArray.begin := HeapArray.begin a;
               GrowingArray.size := HeapArray.size a;
               GrowingArray.capacity := HeapArray.size a |}).
  set (h0 := allocated 0 h).
  assert (Hst0 : stores h0 (HeapArray.begin a) l (HeapArray.size a)).
  { apply (stores_frame h h0 _ _ _ (length (blocks h))); [done|done| |].
    - intros q j Hq. unfold h0. rewrite slot_allocated. by rewrite decide_False.
    - intros j. left. unfold h0. rewrite slot_allocated, decide_True by done.
      rewrite Hdiv. unfold layout. simpl. repeat case_decide; done || lia. }
  destruct (copy_total h0 g l (HeapArray.size a)) as (g' & h' & Hrun & Hc); [done|done| | |].
  { simpl. lia. }
  { simpl. rewrite Hdiv. lia. }
  pose proof Hrun as Hrun'.
  rewrite Hrun. cbn [outcome_map fst snd].
  destruct Hc as (-> & _ & _ & Hst' & Hframe & Hfree' & Hcon & Hdes & Hlen).
  cbn [GrowingArray.begin GrowingArray.size GrowingArray.capacity g] in *.
  rewrite Hdiv in Hst'.
  assert (Hlen0 : length (blocks h0) = S (length (blocks h))).
  { unfold h0. simpl. rewrite length_app. simpl. lia. }
  rewrite Hlen0 in Hst', Hframe, Hlen |- *.
  assert (Hstatus : ∀ q, status h' q = status (allocated (HeapArray.size a) h0) q).
  { unfold GrowingArray.copy in Hrun'. rewrite malloc_enough in Hrun' by (simpl; lia).
    cbn [GrowingArray.size g] in Hrun'.
    apply bind_Ok in Hrun' as (h2 & Hloop & [= <-]).
    intros q. eapply for_upto_status; [|exact Hloop].
    intros i h1 h3 q'. apply copy_construct_status. }
  eexists _, h'. split; [done|]. cbn [HeapArray.begin HeapArray.size].
  split.
  { split; [done|].
    apply (stores_frame h0 h' _ _ _ (S (length (blocks h)))); [done|lia|done|].
    intros j. destruct (decide (l = [])) as [->|Hl]; [left|by right; left].
    rewrite Hst'. unfold layout. simpl in *. repeat case_decide; done || lia. }
  split; [done|]. split; [done|]. split.
  { rewrite Hstatus, status_allocated, Hlen0. by rewrite decide_True. }
  split.
  { rewrite Hstatus, status_allocated, Hlen0.
    rewrite decide_False by (intros [=]; lia).
    unfold h0. rewrite status_allocated. by rewrite decide_True. }
  split; [done|]. split; [rewrite Hfree'; simpl; lia|]. split; [done|]. split; [done|].
  intros q (b & -> & Hb). split.
  - rewrite Hstatus, status_allocated, Hlen0.
    rewrite decide_False by (intros [=]; lia).
    unfold h0. rewrite status_allocated. rewrite decide_False by (intros [=]; lia). done.
  - intros j. rewrite Hframe by (intros [=]; lia).
    unfold h0. rewrite slot_allocated. rewrite decide_False by (intros [=]; lia). done.
Qed.

End HeapCopyFacts.

(** ** The earlier revisions, and the sketch *)

Section LegacyFacts.
Context `{Tg : Target} {T : Type} `{El : Element T}.

Lemma legacy_push_with_Ok realloc grown (a : LegacyPush.growing_array) (item : T) h a' h' :
  LegacyPush.push_with realloc grown a item h = Ok (a', h') →
  LegacyPush.begin a' = LegacyPush.begin a
  ∧ LegacyPush.begin a ≠ None
  ∧ LegacyPush.size a' = size_t (LegacyPush.size a + 1).
Proof.
  unfold LegacyPush.push_with.
  intros ([a1 h1] & Hfirst & (h2 & Hw & [= <- <-])%bind_Ok)%bind_Ok.
  cbn [LegacyPush.begin LegacyPush.size].
  assert (Ha1 : LegacyPush.begin a1 = LegacyPush.begin a ∧ LegacyPush.size a1 = LegacyPush.size a).
  { destruct (LegacyPush.size a =? LegacyPush.capacity a); [|by injection Hfirst as <- _].
    by apply bind_Ok in Hfirst as ([q h0] & _ & [= <- _]). }
  destruct Ha1 as [Hb Hs]. rewrite Hb, Hs in *. split; [done|]. split; [|done].
  intros Hnull. rewrite Hnull in Hw. discriminate.
Qed.

(** X17.  [push] in the two earlier revisions.  Both call [realloc] and drop
    the pointer it returns, so [begin] is never assigned: whatever [realloc]
    does, a [push] that runs to completion leaves [begin] as it was, and
    [begin] was not [nullptr].  The constructor sets [begin] to [nullptr], so
    no [push] onto a default-constructed array runs to completion. *)
Theorem legacy_push_never_assigns_begin realloc
    (a : LegacyPush.growing_array) (item : T) h a' h' :
  LegacyPush.push_first realloc a item h = Ok (a', h')
  ∨ LegacyPush.push_second realloc a item h = Ok (a', h') →
  LegacyPush.begin a' = LegacyPush.begin a
  ∧ LegacyPush.begin a ≠ None
  ∧ a ≠ LegacyPush.create
  ∧ LegacyPush.size a' = size_t (LegacyPush.size a + 1).
Proof.
  intros Hrun.
  assert (LegacyPush.begin a' = LegacyPush.begin a
          ∧ LegacyPush.begin a ≠ None
          ∧ LegacyPush.size a' = size_t (LegacyPush.size a + 1)) as (Hb & Hnull & Hsize).
  { destruct Hrun as [Hrun|Hrun]; by eapply legacy_push_with_Ok. }
  repeat split; try done. by intros ->.
Qed.

End LegacyFacts.

Section GrowthRules.
Context `{Tg : Target}.

(** X18.  The capacity rules of the three revisions of [push], when nothing
    wraps around.  The first computes [3 * c / 2 + 1], the second
    [3 * max(c, 1) / 2], the current one [(3 * max(c, 1) + 1) / 2].  The
    first and the current rule always yield more than [c]; the second does so
    except at [c = 1], where it yields 1 again, so that a full array of
    capacity 1 gets no room for the next element. *)
Theorem growth_rules_across_revisions (c : Z) :
  0 ≤ c → 3 * Z.max c 1 + 1 ≤ SIZE_MAX →
  Legacy.grown_first c = 3 * c / 2 + 1
  ∧ Legacy.grown_second c = 3 * Z.max c 1 / 2
  ∧ GrowingArray.grown c = (3 * Z.max c 1 + 1) / 2
  ∧ c < Legacy.grown_first c
  ∧ c < GrowingArray.grown c
  ∧ (c < Legacy.grown_second c ↔ c ≠ 1)
  ∧ (c = 1 → Legacy.grown_second c = c).
Proof.
  intros Hc Hmax.
  assert (H1 : Legacy.grown_first c = 3 * c / 2 + 1).
  { unfold Legacy.grown_first. rewrite (size_t_small (c * 3)) by lia.
    rewrite size_t_small; [f_equal; f_equal; lia|].
    Z.to_euclidean_division_equations; lia. }
  assert (H2 : Legacy.grown_second c = 3 * Z.max c 1 / 2).
  { unfold Legacy.grown_second. destruct (Z.eqb_spec c 0) as [->|Hne].
    - by rewrite size_t_small by lia.
    - rewrite size_t_small by lia. f_equal. lia. }
  assert (H3 : GrowingArray.grown c = (3 * Z.max c 1 + 1) / 2).
  { unfold GrowingArray.grown. destruct (Z.eqb_spec c 0) as [->|Hne].
    - rewrite (size_t_small (1 * 3)) by lia. by rewrite size_t_small by lia.
    - rewrite (size_t_small (c * 3)) by lia. rewrite size_t_small by lia.
      f_equal. lia. }
  rewrite H1, H2, H3.
  repeat split; try done; Z.to_euclidean_division_equations; lia.
Qed.

End GrowthRules.

Section SketchFacts.
Context `{Tg : Target} `{El : Element Z}.

Lemma create_overruns (n : Z) (h : heap Z) :
  0 < n → 2 ≤ sizeof → HeapArray.create n h = Undefined.
Proof.
  intros Hn Hs. destruct (HeapArray.create n h) as [[a h']| |] eqn:Hrun; [| |done].
  - apply create_partial in Hrun as (_ & _ & Hroom & _); [|done]. exfalso.
    revert Hroom. Z.to_euclidean_division_equations. nia.
  - by apply create_no_abort in Hrun.
Qed.

(** X19.  The sketch, run against this revision of the library.  Where an
    [int] takes two bytes or more, [setup()] has undefined behaviour on every
    heap: [HeapArray<int> c{3}] asks for three bytes and constructs three
    [int]s in them. *)
Theorem setup_is_undefined_for_wide_int (h : heap Z) :
  2 ≤ sizeof → Sketch.setup h = Undefined.
Proof.
  intros Hs. unfold Sketch.setup. rewrite (create_overruns 3 h) by (done || lia).
  reflexivity.
Qed.

End SketchFacts.

(** ** The library on an AVR board *)

Import Avr.
#[local] Existing Instance target.
#[local] Existing Instance int.

Example run_two :
  GrowingArray.push_all [2; 4] GrowingArray.create (fresh_heap 100)
  = Ok (two_of_two, heap_two_of_two).
Proof. reflexivity. Qed.

Example run_four :
  GrowingArray.push_all [2; 4; 6; 8] GrowingArray.create (fresh_heap 100)
  = Ok (four_of_five, heap_four_of_five).
Proof. reflexivity. Qed.

(** The sketch [test.ino]: [push(2); push(4); push(6)], then the three
    elements and the length are read back. *)
Example sketch_growing_array :
  (do (d, h) <- GrowingArray.push_all [2; 4; 6] GrowingArray.create (fresh_heap 100);
   do (p0, i0) <- GrowingArray.index d 0;
   do (p1, i1) <- GrowingArray.index d 1;
   do (p2, i2) <- GrowingArray.index d 2;
   do v0 <- read h p0 i0;
   do v1 <- read h p1 i1;
   do v2 <- read h p2 i2;
   Ok (v0, v1, v2, GrowingArray.length d)) = Ok (2, 4, 6, 3).
Proof. reflexivity. Qed.

Example sketch_growing_array_out_of_bounds :
  (do (d, h) <- GrowingArray.push_all [2; 4; 6] GrowingArray.create (fresh_heap 100);
   GrowingArray.index d 3) = Abort.
Proof. reflexivity. Qed.

(** [StackArray<int, 3> b{2, 4, 6}] *)
Example sketch_stack_array :
  let b : StackArray.t Z 3 := {| StackArray.c_array := [# 2; 4; 6] |} in
  (StackArray.index b 0, StackArray.index b 1, StackArray.index b 2,
   StackArray.index b 3, StackArray.length b)
  = (Ok 0, Ok 1, Ok 2, Abort, 3)
  ∧ (StackArray.deref b 0, StackArray.deref b 1, StackArray.deref b 2)
    = (Some 2, Some 4, Some 6).
Proof. split; reflexivity. Qed.

(** [HeapArray<char> c{3}], assigned 2, 4, 6, read back and destroyed: three
    constructor calls and three destructor calls. *)
Example sketch_heap_array_of_chars :
  (do (c, h0) <- HeapArray.create (El := char) 3 (fresh_heap 100);
   do h1 <- write (HeapArray.begin c) 0 2 h0;
   do h2 <- write (HeapArray.begin c) 1 4 h1;
   do h3 <- write (HeapArray.begin c) 2 6 h2;
   do v0 <- read h3 (HeapArray.begin c) 0;
   do v1 <- read h3 (HeapArray.begin c) 1;
   do v2 <- read h3 (HeapArray.begin c) 2;
   do h4 <- HeapArray.destroy c h3;
   Ok (v0, v1, v2, HeapArray.length c, constructions h4, destructions h4,
       free_bytes h4))
  = Ok (2, 4, 6, 3, 3%nat, 3%nat, 100).
Proof. reflexivity. Qed.

(** [copy()] of a [HeapArray<char>]: the copy is a block of its own, and the
    block of the [HeapArray<char> result{0}] it started from is left behind. *)
Example heap_array_of_chars_copy :
  (do (c, h0) <- HeapArray.create (El := char) 2 (fresh_heap 100);
   do (d, h1) <- HeapArray.copy (El := char) c h0;
   do h2 <- write (HeapArray.begin d) 0 7 h1;
   do v <- read h2 (HeapArray.begin c) 0;
   do w <- read h2 (HeapArray.begin d) 0;
   Ok (HeapArray.begin c, HeapArray.begin d, HeapArray.length d, v, w,
       length (blocks h2)))
  = Ok (Some 0%nat, Some 2%nat, 2, 0, 7, 3%nat).
Proof. reflexivity. Qed.

(** The capacities of the two earlier revisions, iterated from 0. *)
Example legacy_capacities :
  (λ n, Nat.iter n Legacy.grown_first 0) <$> [0; 1; 2; 3; 4; 5]%nat
    = [0; 1; 2; 4; 7; 11]
  ∧ (λ n, Nat.iter n Legacy.grown_second 0) <$> [0; 1; 2; 3; 4; 5]%nat
    = [0; 1; 1; 1; 1; 1].
Proof. split; reflexivity. Qed.

Lemma holds_two_of_two : holds heap_two_of_two two_of_two [2; 4].
Proof.
  unfold holds. simpl. repeat split; try lia. exists 2. split; [lia|].
  by apply (stores_block heap_two_of_two 0 (Block true 4 [Some 2; Some 4]) [2; 4] 0).
Qed.

Lemma holds_four_of_five : holds heap_four_of_five four_of_five [2; 4; 6; 8].
Proof.
  unfold holds. simpl. repeat split; try lia. exists 5. split; [lia|].
  by apply (stores_block heap_four_of_five 2
              (Block true 10 [Some 2; Some 4; Some 6; Some 8; None]) [2; 4; 6; 8] 1).
Qed.

(** Against C1 as stated: the first [push] onto an empty array raises the
    capacity to 2, not to [(0 == 0) ? 1 : ...]; the capacities do not follow
    0, 1, 2, 3, 5, 8. *)
Lemma first_growth_is_not_to_one :
  size_and_capacity (GrowingArray.push GrowingArray.create 2 (fresh_heap 100))
    ≠ Ok (1, if 0 =? 0 then 1 else (0 * 3 + 1) / 2)
  ∧ (λ n, Nat.iter n GrowingArray.grown 0) <$> [0; 1; 2; 3; 4; 5]%nat
    ≠ [0; 1; 2; 3; 5; 8].
Proof. split; vm_compute; discriminate. Qed.

Lemma push_capacity_policy_witness :
  holds heap_two_of_two two_of_two [2; 4]
  ∧ (∃ a' h',
       GrowingArray.push two_of_two 6 heap_two_of_two = Ok (a', h')
       ∧ (length (blocks h') = S (length (blocks heap_two_of_two))
          ↔ GrowingArray.size two_of_two = GrowingArray.capacity two_of_two)
       ∧ (length (blocks h') = length (blocks heap_two_of_two)
          ↔ GrowingArray.size two_of_two ≠ GrowingArray.capacity two_of_two)
       ∧ GrowingArray.capacity a' =
           (if decide (GrowingArray.size two_of_two = GrowingArray.capacity two_of_two)
            then (3 * Z.max (GrowingArray.capacity two_of_two) 1 + 1) / 2
            else GrowingArray.capacity two_of_two))
  ∧ (25 ≤ SIZE_MAX →
     (λ n, Nat.iter n GrowingArray.grown 0) <$> [0; 1; 2; 3; 4; 5]%nat
     = [0; 2; 3; 5; 8; 12]).
Proof.
  split; [apply holds_two_of_two|].
  apply (push_capacity_policy heap_two_of_two two_of_two [2; 4] 6).
  - apply holds_two_of_two.
  - vm_compute. discriminate.
  - vm_compute. discriminate.
  - vm_compute. discriminate.
Defined.

Lemma push_all_then_index_witness :
  5 * Z.of_nat (length [2; 4; 6]) * sizeof ≤ free_bytes (fresh_heap 100)
  ∧ 5 * Z.of_nat (length [2; 4; 6]) * sizeof ≤ SIZE_MAX
  ∧ ∃ a' h',
      GrowingArray.push_all [2; 4; 6] GrowingArray.create (fresh_heap 100) = Ok (a', h')
      ∧ GrowingArray.length a' = Z.of_nat (length [2; 4; 6])
      ∧ ∀ k item, [2; 4; 6] !! k = Some item →
          GrowingArray.index a' (Z.of_nat k) = Ok (GrowingArray.begin a', Z.of_nat k)
          ∧ read h' (GrowingArray.begin a') (Z.of_nat k) = Ok item.
Proof.
  split; [vm_compute; discriminate|]. split; [vm_compute; discriminate|].
  apply (push_all_then_index [2; 4; 6] (fresh_heap 100)); vm_compute; discriminate.
Defined.

(** Against C5 as stated: on a heap without free bytes the allocation in
    [push] fails and [push] does not abort; and after a [push] that
    reallocated, the old block is still live. *)
Lemma failed_allocation_is_not_fatal :
  fst (malloc (size_t (GrowingArray.grown 0 * sizeof)) (fresh_heap 0)) = None
  ∧ GrowingArray.push GrowingArray.create 2 (fresh_heap 0) ≠ Abort
  ∧ outcome_map (λ ah, blk_live <$> blocks (snd ah))
      (GrowingArray.push two_of_two 6 heap_two_of_two) = Ok [true; true].
Proof. split; [reflexivity|]. split; [vm_compute; discriminate | reflexivity]. Qed.

Lemma push_reallocation_witness :
  holds heap_two_of_two two_of_two [2; 4]
  ∧ GrowingArray.size two_of_two = GrowingArray.capacity two_of_two
  ∧ GrowingArray.push two_of_two 6 heap_two_of_two ≠ Abort
  ∧ (free_bytes heap_two_of_two
       < size_t (GrowingArray.grown (GrowingArray.capacity two_of_two) * sizeof) →
     GrowingArray.push two_of_two 6 heap_two_of_two = Undefined)
  ∧ (∀ a' h', GrowingArray.push two_of_two 6 heap_two_of_two = Ok (a', h') →
       GrowingArray.begin a' = Some (length (blocks heap_two_of_two))
       ∧ length (blocks h') = S (length (blocks heap_two_of_two))
       ∧ ∀ k v, ([2; 4] ++ [6]) !! k = Some v →
           read h' (GrowingArray.begin a') (Z.of_nat k) = Ok v).
Proof.
  split; [apply holds_two_of_two|]. split; [reflexivity|].
  apply (push_reallocation heap_two_of_two two_of_two [2; 4] 6);
    [apply holds_two_of_two | reflexivity].
Defined.

Lemma push_within_capacity_witness :
  holds heap_four_of_five four_of_five [2; 4; 6; 8]
  ∧ GrowingArray.size four_of_five < GrowingArray.capacity four_of_five
  ∧ ∃ h',
      GrowingArray.push four_of_five 10 heap_four_of_five =
        Ok ({| GrowingArray.begin := GrowingArray.begin four_of_five;
               GrowingArray.size := GrowingArray.size four_of_five + 1;
               GrowingArray.capacity := GrowingArray.capacity four_of_five |}, h')
      ∧ read h' (GrowingArray.begin four_of_five) (GrowingArray.size four_of_five) = Ok 10
      ∧ (∀ q j, ¬ (q = GrowingArray.begin four_of_five ∧ j = GrowingArray.size four_of_five) →
                slot h' q j = slot heap_four_of_five q j)
      ∧ (∀ k v, [2; 4; 6; 8] !! k = Some v →
                read h' (GrowingArray.begin four_of_five) (Z.of_nat k) = Ok v)
      ∧ length (blocks h') = length (blocks heap_four_of_five)
      ∧ free_bytes h' = free_bytes heap_four_of_five
      ∧ constructions h' = constructions heap_four_of_five
      ∧ destructions h' = destructions heap_four_of_five.
Proof.
  split; [apply holds_four_of_five|]. split; [reflexivity|].
  apply (push_within_capacity heap_four_of_five four_of_five [2; 4; 6; 8] 10);
    [apply holds_four_of_five | reflexivity].
Defined.

Lemma sizes_independent_of_values_witness :
  length [2; 4; 6] = length [7; 7; 7]
  ∧ size_and_capacity
      (GrowingArray.push_all (take 3 [2; 4; 6]) GrowingArray.create (fresh_heap 100))
    = size_and_capacity
        (GrowingArray.push_all (take 3 [7; 7; 7]) GrowingArray.create (fresh_heap 100)).
Proof.
  split; [reflexivity|].
  apply (sizes_independent_of_values [2; 4; 6] [7; 7; 7] (fresh_heap 100) 3). reflexivity.
Defined.

(** The invariant at work on the array that holds 2 and 4. *)
Lemma invariant_preserved_witness :
  invariant heap_two_of_two two_of_two
  ∧ (∀ item a' h',
       GrowingArray.push two_of_two item heap_two_of_two = Ok (a', h') →
       invariant h' a')
  ∧ invariant heap_two_of_two (fst (GrowingArray.move two_of_two))
  ∧ invariant heap_two_of_two (snd (GrowingArray.move two_of_two)).
Proof.
  pose proof (holds_invariant _ _ _ holds_two_of_two) as Hinv.
  split; [exact Hinv|].
  destruct (invariant_preserved heap_two_of_two two_of_two) as [_ Hops].
  destruct (Hops Hinv) as (Hpush & Hnew & Hold & _).
  split; [exact Hpush|]. split; [exact Hnew | exact Hold].
Defined.

(** C2 at a failing input.  Moving out of the array that holds 2 and 4 (size
    2, capacity 2) leaves a source with [begin == nullptr], [size == 0] and
    [capacity == 2]: not the state of a default-constructed array.  A [push]
    onto that source finds [size != capacity] and writes through [nullptr],
    where a [push] onto a default-constructed array allocates. *)
Theorem moved_from_growing_array_keeps_capacity :
  GrowingArray.move two_of_two
    = (two_of_two,
       {| GrowingArray.begin := None; GrowingArray.size := 0; GrowingArray.capacity := 2 |})
  ∧ snd (GrowingArray.move two_of_two) ≠ GrowingArray.create
  ∧ GrowingArray.push (snd (GrowingArray.move two_of_two)) 6 heap_two_of_two = Undefined
  ∧ size_and_capacity (GrowingArray.push GrowingArray.create 6 heap_two_of_two) = Ok (1, 2).
Proof. repeat split. discriminate. Qed.

(** C6 at failing inputs.  [GrowingArray]: one [push] followed by the
    destructor makes 0 constructor calls and 1 destructor call; three pushes
    make 2 and 3; and the block that the reallocation left behind is never
    freed. *)
Theorem growing_array_counts_do_not_match :
  outcome_map (λ h, (constructions h, destructions h))
    (do (a, h) <- GrowingArray.push_all [2] GrowingArray.create (fresh_heap 100);
     GrowingArray.destroy a h) = Ok (0%nat, 1%nat)
  ∧ outcome_map (λ h, (constructions h, destructions h))
      (do (a, h) <- GrowingArray.push_all [2; 4; 6] GrowingArray.create (fresh_heap 100);
       GrowingArray.destroy a h) = Ok (2%nat, 3%nat)
  ∧ outcome_map (λ h, blk_live <$> blocks h)
      (do (a, h) <- GrowingArray.push_all [2; 4; 6] GrowingArray.create (fresh_heap 100);
       GrowingArray.destroy a h) = Ok [true; false].
Proof. repeat split. Qed.

(** C7 at a failing input.  [copy()] of the array of [int]s that holds 2 and
    4 asks [malloc] for 2 bytes, room for one [int], and constructs two: the
    second construction is past the end of the block.  The constructor of
    [HeapArray<int>] asks for [length] bytes in the same way. *)
Theorem copy_of_ints_overruns_its_block :
  GrowingArray.copy two_of_two heap_two_of_two = Undefined
  ∧ snd (malloc (GrowingArray.size two_of_two) heap_two_of_two)
    = Heap [Block true 4 [Some 2; Some 4]; Block true 2 [None]] 94 0 0
  ∧ HeapArray.create 3 (fresh_heap 100) = Undefined.
Proof. repeat split. Qed.

(** ** The further properties at concrete inputs *)

Lemma holds_three_chars : heap_array_holds heap_three_chars three_chars [2; 4; 6].
Proof.
  split; [done|].
  by apply (stores_block heap_three_chars 0
              (Block true 3 [Some 2; Some 4; Some 6]) [2; 4; 6] 0).
Qed.

Lemma holds_full : holds heap_full full (replicate (Z.to_nat 21845) 0).
Proof.
  unfold holds. rewrite length_replicate. cbn [GrowingArray.size GrowingArray.capacity full].
  split; [done|]. split; [done|]. split; [by vm_compute|]. exists 21845. split; [done|].
  pose proof (stores_block heap_full 0
                (Block true 43690 (replicate (Z.to_nat 21845) (Some 0))) (replicate (Z.to_nat 21845) 0) 0) as Hst.
  rewrite length_replicate, Nat.add_0_r, Z2Nat.id in Hst by done.
  apply Hst; [done|done|].
  cbn [blk_slots replicate]. by rewrite fmap_replicate, app_nil_r.
Qed.

Lemma stack_array_access_paths_agree_witness :
  0 ≤ 1
  ∧ ∃ v, StackArrayConst.index_constexpr two_four_six 1 = Ok v
         ∧ StackArray.index two_four_six 1 = Ok 1
         ∧ StackArray.deref two_four_six 1 = Some v.
Proof.
  assert (H0 : 0 ≤ 1) by lia. split; [exact H0|].
  destruct (stack_array_access_paths_agree two_four_six 1 H0) as (_ & _ & Hin & _).
  apply Hin. reflexivity.
Defined.

Lemma heap_array_create_one_byte_witness :
  sizeof (Element := char) = 1 ∧ 0 ≤ 3 ∧ 3 ≤ free_bytes (fresh_heap 100)
  ∧ ∃ a h',
      HeapArray.create (El := char) 3 (fresh_heap 100) = Ok (a, h')
      ∧ HeapArray.length a = 3
      ∧ heap_array_holds h' a (replicate (Z.to_nat 3) (T_default (Element := char))).
Proof.
  assert (H1 : sizeof (Element := char) = 1) by reflexivity.
  assert (H2 : 0 ≤ 3) by lia.
  assert (H3 : 3 ≤ free_bytes (fresh_heap 100)) by (simpl; lia).
  split; [exact H1|]. split; [exact H2|]. split; [exact H3|].
  destruct (heap_array_create_one_byte (El := char) 3 (fresh_heap 100) H1 H2 H3)
    as (a & h' & Hrun & Hlen & Hholds & _).
  exists a, h'. split; [exact Hrun|]. split; [exact Hlen | exact Hholds].
Defined.

Lemma heap_array_create_completes_iff_witness :
  0 ≤ 3
  ∧ ((∃ a h', HeapArray.create (El := int) 3 (fresh_heap 100) = Ok (a, h'))
     ↔ 3 = 0 ∨ (sizeof (Element := int) = 1 ∧ 3 ≤ free_bytes (fresh_heap 100)))
  ∧ HeapArray.create (El := int) 3 (fresh_heap 100) = Undefined.
Proof.
  assert (H0 : 0 ≤ 3) by lia. split; [exact H0|].
  destruct (heap_array_create_completes_iff (El := int) 3 (fresh_heap 100) H0) as [Hiff Hund].
  split; [exact Hiff|]. apply Hund. intros a h'. vm_compute. discriminate.
Defined.

Lemma heap_array_create_destroy_witness :
  sizeof (Element := char) = 1 ∧ 0 ≤ 3 ≤ INT_MAX ∧ 3 ≤ free_bytes (fresh_heap 100)
  ∧ ∃ a h1 h2,
      HeapArray.create (El := char) 3 (fresh_heap 100) = Ok (a, h1)
      ∧ HeapArray.destroy a h1 = Ok h2
      ∧ constructions h2 = (constructions (fresh_heap 100) + Z.to_nat 3)%nat
      ∧ destructions h2 = (destructions (fresh_heap 100) + Z.to_nat 3)%nat
      ∧ free_bytes h2 = free_bytes (fresh_heap 100).
Proof.
  assert (H1 : sizeof (Element := char) = 1) by reflexivity.
  assert (H2 : 0 ≤ 3 ≤ INT_MAX) by (vm_compute; split; discriminate).
  assert (H3 : 3 ≤ free_bytes (fresh_heap 100)) by (simpl; lia).
  split; [exact H1|]. split; [exact H2|]. split; [exact H3|].
  destruct (heap_array_create_destroy (El := char) 3 (fresh_heap 100) H1 H2 H3)
    as (a & h1 & h2 & Hc & Hd & Hcon & Hdes & Hfree & _).
  exists a, h1, h2. repeat split; assumption.
Defined.

Lemma destroy_twice_undefined_witness :
  HeapArray.destroy three_chars heap_three_chars
  = Ok (Heap [Block false 3 [None; None; None]] 100 3 3 : heap Z)
  ∧ HeapArray.destroy three_chars
      (Heap [Block false 3 [None; None; None]] 100 3 3 : heap Z) = Undefined.
Proof.
  assert (H1 : HeapArray.destroy three_chars heap_three_chars
               = Ok (Heap [Block false 3 [None; None; None]] 100 3 3 : heap Z)) by reflexivity.
  split; [exact H1|].
  destruct (destroy_twice_undefined (Tg := target) (T := Z)) as [Hheap _].
  destruct (Hheap three_chars heap_three_chars _ H1) as [_ Hsecond].
  apply Hsecond. discriminate.
Defined.

Lemma growing_array_destroy_witness :
  holds heap_two_of_two two_of_two [2; 4]
  ∧ GrowingArray.size two_of_two ≤ INT_MAX
  ∧ (GrowingArray.begin two_of_two = None
     ∨ ∃ bytes : Z, status heap_two_of_two (GrowingArray.begin two_of_two)
                    = Some (true, bytes))
  ∧ ∃ h',
      GrowingArray.destroy two_of_two heap_two_of_two = Ok h'
      ∧ destructions h' = (destructions heap_two_of_two + length [2; 4])%nat
      ∧ free_bytes h' = free_bytes heap_two_of_two + 4.
Proof.
  assert (H1 : holds heap_two_of_two two_of_two [2; 4]) by apply holds_two_of_two.
  assert (H2 : GrowingArray.size two_of_two ≤ INT_MAX) by (vm_compute; discriminate).
  assert (H3 : GrowingArray.begin two_of_two = None
               ∨ ∃ bytes : Z, status heap_two_of_two (GrowingArray.begin two_of_two)
                              = Some (true, bytes)) by (right; exists 4; reflexivity).
  split; [exact H1|]. split; [exact H2|]. split; [exact H3|].
  destruct (growing_array_destroy heap_two_of_two two_of_two [2; 4] H1 H2 H3)
    as (h' & Hrun & _ & Hdes & _ & _ & _ & Hfree).
  exists h'. split; [exact Hrun|]. split; [exact Hdes|]. apply Hfree. reflexivity.
Defined.

Lemma growing_array_lifecycle_witness :
  5 * Z.of_nat (length [2; 4; 6]) * sizeof (Element := int) ≤ free_bytes (fresh_heap 100)
  ∧ 5 * Z.of_nat (length [2; 4; 6]) * sizeof (Element := int) ≤ SIZE_MAX
  ∧ Z.of_nat (length [2; 4; 6]) ≤ INT_MAX
  ∧ ∃ a' h' h'',
      GrowingArray.push_all (El := int) [2; 4; 6] GrowingArray.create (fresh_heap 100)
      = Ok (a', h')
      ∧ GrowingArray.destroy a' h' = Ok h''
      ∧ destructions h'' = (destructions (fresh_heap 100) + length [2; 4; 6])%nat
      ∧ free_bytes h'' ≤ free_bytes (fresh_heap 100) - 2 * sizeof (Element := int).
Proof.
  assert (H1 : 5 * Z.of_nat (length [2; 4; 6]) * sizeof (Element := int)
               ≤ free_bytes (fresh_heap 100)) by (vm_compute; discriminate).
  assert (H2 : 5 * Z.of_nat (length [2; 4; 6]) * sizeof (Element := int) ≤ SIZE_MAX)
    by (vm_compute; discriminate).
  assert (H3 : Z.of_nat (length [2; 4; 6]) ≤ INT_MAX) by (vm_compute; discriminate).
  split; [exact H1|]. split; [exact H2|]. split; [exact H3|].
  destruct (growing_array_lifecycle (El := int) [2; 4; 6] (fresh_heap 100) H1 H2 H3)
    as (a' & h' & h'' & Hrun & Hd & Hdes & _ & Hleak).
  exists a', h', h''. split; [exact Hrun|]. split; [exact Hd|]. split; [exact Hdes|].
  apply Hleak. simpl. lia.
Defined.

Lemma push_all_capacity_bounds_witness :
  5 * Z.of_nat (length [2; 4; 6]) * sizeof (Element := int) ≤ free_bytes (fresh_heap 100)
  ∧ 5 * Z.of_nat (length [2; 4; 6]) * sizeof (Element := int) ≤ SIZE_MAX
  ∧ ∃ a' h',
      GrowingArray.push_all (El := int) [2; 4; 6] GrowingArray.create (fresh_heap 100)
      = Ok (a', h')
      ∧ Z.of_nat (length [2; 4; 6]) ≤ GrowingArray.capacity a'
      ∧ 2 * GrowingArray.capacity a' ≤ 3 * Z.of_nat (length [2; 4; 6]) + 1
      ∧ free_bytes (fresh_heap 100) - free_bytes h'
        ≤ 3 * GrowingArray.capacity a' * sizeof (Element := int).
Proof.
  assert (H1 : 5 * Z.of_nat (length [2; 4; 6]) * sizeof (Element := int)
               ≤ free_bytes (fresh_heap 100)) by (vm_compute; discriminate).
  assert (H2 : 5 * Z.of_nat (length [2; 4; 6]) * sizeof (Element := int) ≤ SIZE_MAX)
    by (vm_compute; discriminate).
  split; [exact H1|]. split; [exact H2|].
  destruct (push_all_capacity_bounds (El := int) [2; 4; 6] (fresh_heap 100) H1 H2)
    as (a' & h' & Hrun & Hlow & Hhigh & Hbytes & _).
  exists a', h'. repeat split; assumption.
Defined.

Lemma push_never_frees_witness :
  holds heap_two_of_two two_of_two [2; 4]
  ∧ GrowingArray.push (El := int) two_of_two 6 heap_two_of_two
    = Ok ({| GrowingArray.begin := Some 1%nat;
             GrowingArray.size := 3; GrowingArray.capacity := 3 |},
          Heap [Block true 4 [Some 2; Some 4];
                Block true 6 [Some 2; Some 4; Some 6]] 90 2 0)
  ∧ status (Heap [Block true 4 [Some 2; Some 4];
                  Block true 6 [Some 2; Some 4; Some 6]] 90 2 0) (Some 0%nat)
    = Some (true, 4).
Proof.
  assert (H1 : holds heap_two_of_two two_of_two [2; 4]) by apply holds_two_of_two.
  assert (H2 : GrowingArray.push (El := int) two_of_two 6 heap_two_of_two
               = Ok ({| GrowingArray.begin := Some 1%nat;
                        GrowingArray.size := 3; GrowingArray.capacity := 3 |},
                     Heap [Block true 4 [Some 2; Some 4];
                           Block true 6 [Some 2; Some 4; Some 6]] 90 2 0))
    by reflexivity.
  split; [exact H1|]. split; [exact H2|].
  destruct (push_never_frees (El := int) heap_two_of_two two_of_two [2; 4] 6 _ _ H1 H2)
    as (Hlive & _).
  apply Hlive. reflexivity.
Defined.

Lemma assign_then_read_witness :
  holds heap_two_of_two two_of_two [2; 4]
  ∧ 0 ≤ 1 < GrowingArray.length two_of_two
  ∧ heap_array_holds heap_three_chars three_chars [2; 4; 6]
  ∧ 0 ≤ 1 < HeapArray.length three_chars
  ∧ (∃ h', write (GrowingArray.begin two_of_two) 1 7 heap_two_of_two = Ok h'
           ∧ read h' (GrowingArray.begin two_of_two) 1 = Ok 7
           ∧ holds h' two_of_two (<[Z.to_nat 1 := 7]> [2; 4]))
  ∧ (∃ h', write (HeapArray.begin three_chars) 1 7 heap_three_chars = Ok h'
           ∧ read h' (HeapArray.begin three_chars) 1 = Ok 7
           ∧ heap_array_holds h' three_chars (<[Z.to_nat 1 := 7]> [2; 4; 6])).
Proof.
  assert (H1 : holds heap_two_of_two two_of_two [2; 4]) by apply holds_two_of_two.
  assert (H2 : 0 ≤ 1 < GrowingArray.length two_of_two) by (vm_compute; done).
  assert (H3 : heap_array_holds heap_three_chars three_chars [2; 4; 6])
    by apply holds_three_chars.
  assert (H4 : 0 ≤ 1 < HeapArray.length three_chars) by (vm_compute; done).
  split; [exact H1|]. split; [exact H2|]. split; [exact H3|]. split; [exact H4|].
  split.
  - destruct (assign_then_read 1 7 heap_two_of_two) as [Hgrowing _].
    destruct (Hgrowing two_of_two [2; 4] H1 H2) as (h' & _ & Hw & Hr & Hh & _).
    exists h'. split; [exact Hw|]. split; [exact Hr | exact Hh].
  - destruct (assign_then_read 1 7 heap_three_chars) as [_ Hheap].
    destruct (Hheap three_chars [2; 4; 6] H3 H4) as (h' & _ & Hw & Hr & Hh & _).
    exists h'. split; [exact Hw|]. split; [exact Hr | exact Hh].
Defined.

Lemma growing_array_after_move_witness :
  holds heap_two_of_two two_of_two [2; 4]
  ∧ holds heap_two_of_two (fst (GrowingArray.move two_of_two)) [2; 4]
  ∧ GrowingArray.destroy (snd (GrowingArray.move two_of_two)) heap_two_of_two
    = Ok heap_two_of_two
  ∧ GrowingArray.push (El := int) (snd (GrowingArray.move two_of_two)) 6 heap_two_of_two
    = Undefined.
Proof.
  assert (H1 : holds heap_two_of_two two_of_two [2; 4]) by apply holds_two_of_two.
  split; [exact H1|].
  destruct (growing_array_after_move (El := int) heap_two_of_two two_of_two [2; 4] 6 H1)
    as (Hnew & _ & _ & _ & _ & Hdestroy & Hpush & _).
  split; [exact Hnew|]. split; [exact Hdestroy|]. apply Hpush. discriminate.
Defined.

Lemma heap_array_after_move_witness :
  heap_array_holds heap_three_chars three_chars [2; 4; 6]
  ∧ heap_array_holds heap_three_chars (fst (HeapArray.move three_chars)) [2; 4; 6]
  ∧ HeapArray.length (snd (HeapArray.move three_chars)) = 0
  ∧ HeapArray.destroy (snd (HeapArray.move three_chars)) heap_three_chars
    = Ok heap_three_chars.
Proof.
  assert (H1 : heap_array_holds heap_three_chars three_chars [2; 4; 6])
    by apply holds_three_chars.
  split; [exact H1|].
  destruct (heap_array_after_move heap_three_chars three_chars [2; 4; 6] H1)
    as (Hnew & _ & _ & Hlen & _ & Hdestroy & _).
  split; [exact Hnew|]. split; [exact Hlen | exact Hdestroy].
Defined.

Lemma heap_array_copy_one_byte_witness :
  heap_array_holds heap_three_chars three_chars [2; 4; 6]
  ∧ sizeof (Element := char) = 1
  ∧ HeapArray.size three_chars ≤ free_bytes heap_three_chars
  ∧ ∃ a' h',
      HeapArray.copy (El := char) three_chars heap_three_chars = Ok (a', h')
      ∧ heap_array_holds h' three_chars [2; 4; 6]
      ∧ heap_array_holds h' a' [2; 4; 6]
      ∧ HeapArray.begin a' = Some (S (length (blocks heap_three_chars)))
      ∧ status h' (Some (length (blocks heap_three_chars))) = Some (true, 0).
Proof.
  assert (H1 : heap_array_holds heap_three_chars three_chars [2; 4; 6])
    by apply holds_three_chars.
  assert (H2 : sizeof (Element := char) = 1) by reflexivity.
  assert (H3 : HeapArray.size three_chars ≤ free_bytes heap_three_chars)
    by (vm_compute; discriminate).
  split; [exact H1|]. split; [exact H2|]. split; [exact H3|].
  destruct (heap_array_copy_one_byte (El := char) heap_three_chars three_chars [2; 4; 6]
              H1 H2 H3) as (a' & h' & Hrun & Ha & Ha' & Hbegin & _ & Hzero & _).
  exists a', h'. split; [exact Hrun|]. split; [exact Ha|]. split; [exact Ha'|].
  split; [exact Hbegin | exact Hzero].
Defined.

Lemma copy_overruns_witness :
  holds heap_two_of_two two_of_two [2; 4]
  ∧ [2; 4] ≠ []
  ∧ 2 ≤ sizeof (Element := int)
  ∧ GrowingArray.copy (El := int) two_of_two heap_two_of_two = Undefined.
Proof.
  assert (H1 : holds heap_two_of_two two_of_two [2; 4]) by apply holds_two_of_two.
  assert (H2 : [2; 4] ≠ ([] : list Z)) by discriminate.
  assert (H3 : 2 ≤ sizeof (Element := int)) by (vm_compute; discriminate).
  split; [exact H1|]. split; [exact H2|]. split; [exact H3|].
  exact (copy_overruns (El := int) heap_two_of_two two_of_two [2; 4] H1 H2 H3).
Defined.

Lemma copy_independent_witness :
  holds heap_two_of_two two_of_two [2; 4]
  ∧ sizeof (Element := char) = 1
  ∧ GrowingArray.size two_of_two ≤ free_bytes heap_two_of_two
  ∧ ∃ a' h',
      GrowingArray.copy (El := char) two_of_two heap_two_of_two = Ok (a', h')
      ∧ holds h' two_of_two [2; 4] ∧ holds h' a' [2; 4]
      ∧ GrowingArray.capacity a' = GrowingArray.size a'.
Proof.
  assert (H1 : holds heap_two_of_two two_of_two [2; 4]) by apply holds_two_of_two.
  assert (H2 : sizeof (Element := char) = 1) by reflexivity.
  assert (H3 : GrowingArray.size two_of_two ≤ free_bytes heap_two_of_two)
    by (vm_compute; discriminate).
  split; [exact H1|]. split; [exact H2|]. split; [exact H3|].
  destruct (copy_independent (El := char) heap_two_of_two two_of_two [2; 4] H1 H2 H3)
    as (a' & h' & Hrun & Ha & Ha' & Hcap & _).
  exists a', h'. split; [exact Hrun|]. split; [exact Ha|]. split; [exact Ha' | exact Hcap].
Defined.

Lemma push_wraps_undefined_witness :
  holds heap_full full (replicate (Z.to_nat 21845) 0)
  ∧ GrowingArray.size full = GrowingArray.capacity full
  ∧ 1 ≤ GrowingArray.capacity full
  ∧ SIZE_MAX < 3 * GrowingArray.capacity full + 1
  ∧ GrowingArray.push (El := int) full 7 heap_full = Undefined.
Proof.
  assert (H1 : holds heap_full full (replicate (Z.to_nat 21845) 0)) by apply holds_full.
  assert (H2 : GrowingArray.size full = GrowingArray.capacity full) by reflexivity.
  assert (H3 : 1 ≤ GrowingArray.capacity full) by (vm_compute; discriminate).
  assert (H4 : SIZE_MAX < 3 * GrowingArray.capacity full + 1) by reflexivity.
  split; [exact H1|]. split; [exact H2|]. split; [exact H3|]. split; [exact H4|].
  exact (push_wraps_undefined (El := int) heap_full full _ 7 H1 H2 H3 H4).
Defined.

Lemma legacy_push_never_assigns_begin_witness :
  LegacyPush.push_first (El := int) realloc_in_place legacy_four_of_five 10
    heap_four_of_five
  = Ok ({| LegacyPush.begin := Some 2%nat; LegacyPush.size := 5;
           LegacyPush.capacity := 5 |},
        Heap [Block true 4 [Some 2; Some 4];
              Block true 6 [Some 2; Some 4; Some 6];
              Block true 10 [Some 2; Some 4; Some 6; Some 8; Some 10]] 80 5 0)
  ∧ LegacyPush.begin legacy_four_of_five ≠ None
  ∧ legacy_four_of_five ≠ LegacyPush.create.
Proof.
  assert (H1 : LegacyPush.push_first (El := int) realloc_in_place legacy_four_of_five 10
                 heap_four_of_five
               = Ok ({| LegacyPush.begin := Some 2%nat; LegacyPush.size := 5;
                        LegacyPush.capacity := 5 |},
                     Heap [Block true 4 [Some 2; Some 4];
                           Block true 6 [Some 2; Some 4; Some 6];
                           Block true 10 [Some 2; Some 4; Some 6; Some 8; Some 10]] 80 5 0))
    by reflexivity.
  split; [exact H1|].
  destruct (legacy_push_never_assigns_begin (El := int) realloc_in_place
              legacy_four_of_five 10 heap_four_of_five _ _ (or_introl H1))
    as (_ & Hnull & Hcreate & _).
  split; [exact Hnull | exact Hcreate].
Defined.

Lemma growth_rules_across_revisions_witness :
  0 ≤ 1 ∧ 3 * Z.max 1 1 + 1 ≤ SIZE_MAX
  ∧ Legacy.grown_first 1 = 3 * 1 / 2 + 1
  ∧ Legacy.grown_second 1 = 1
  ∧ 1 < GrowingArray.grown 1.
Proof.
  assert (H1 : 0 ≤ 1) by lia.
  assert (H2 : 3 * Z.max 1 1 + 1 ≤ SIZE_MAX) by (vm_compute; discriminate).
  split; [exact H1|]. split; [exact H2|].
  destruct (growth_rules_across_revisions 1 H1 H2) as (Hf & _ & _ & _ & Hg & _ & Hs).
  split; [exact Hf|]. split; [apply Hs; reflexivity | exact Hg].
Defined.

Lemma setup_is_undefined_for_wide_int_witness :
  2 ≤ sizeof (Element := int)
  ∧ Sketch.setup (El := int) (fresh_heap 100) = Undefined.
Proof.
  assert (H1 : 2 ≤ sizeof (Element := int)) by (vm_compute; discriminate).
  split; [exact H1|].
  exact (setup_is_undefined_for_wide_int (El := int) (fresh_heap 100) H1).
Defined.

(** The sketch with [char] in the place of [int], on a heap of 100 bytes:
    every assertion passes, and [setup] returns with the first block of the
    [GrowingArray] (two bytes) still allocated. *)
Example setup_of_chars :
  Sketch.setup (El := char) (fresh_heap 100)
  = Ok (Heap [Block false 3 [None; None; None];
              Block true 2 [Some 2; Some 4];
              Block false 3 [None; None; None]] 98 5 6).
Proof. reflexivity. Qed.
